(** * miniparse: entity extractors, normalize stage, stage registration

    A shallow embedding of the text-processing core of miniparse: the
    extract and normalize processors, the clean processor, the stage
    registration of core/pipeline.ts and the parser of configuration texts
    of config/loader.ts.

    JavaScript strings are modelled as [string]: a character is one code unit
    below 256 (ASCII and Latin-1), a range closed under every operation used
    here ([toLowerCase], [substring], [split], [indexOf]).  Offsets are
    natural numbers; a result of [-1] or [undefined] is [None].
    Stages mutate the [IntentResult] they receive and return it: they are
    modelled as functions from the record to the updated record. *)

From Stdlib Require Import Bool Arith Lia List ZArith NArith.
From Stdlib Require Import Ascii String DecimalString DecimalN.
Import ListNotations.
Open Scope string_scope.
Open Scope nat_scope.

(** ** Data model (types.ts, core/Tokenizer.ts) *)

(** The string literal types ["word" | "number" | "punct" | "symbol"] and
    ["email" | "phone" | "url" | "number"]. *)
Inductive TokenType := T_word | T_number | T_punct | T_symbol.

Inductive EntityType := E_email | E_phone | E_url | E_number.

Record Token := mkToken {
  token_type : TokenType;
  token_value : string;
  token_start : nat;
  token_end : nat
}.

Record Entity := mkEntity {
  entity_type : EntityType;
  entity_value : string;
  entity_start : nat;
  entity_end : nat
}.

Record IntentResult := mkIntentResult {
  text : string;
  tokens : list Token;
  entities : list Entity
}.

(** [input.entities.push(e)] *)
Definition push_entity (input : IntentResult) (e : Entity) : IntentResult :=
  {| text := text input; tokens := tokens input;
     entities := entities input ++ [e] |}.

(** ** JavaScript string primitives *)

(** [text[i]]: [None] is [undefined]. *)
Definition charAt (s : string) (i : nat) : option ascii := get i s.

(** [s.substring(a, b)]: the arguments are swapped when [a > b] and the
    result is clamped to the end of [s]. *)
Definition js_substring (s : string) (a b : nat) : string :=
  substring (Nat.min a b) (Nat.max a b - Nat.min a b) s.

(** [s.indexOf(needle, from)] for a non-empty [needle]. *)
Definition indexOf (s needle : string) (from : nat) : option nat :=
  index from needle s.

(** The suffix of [s] from offset [n]. *)
Fixpoint drop (n : nat) (s : string) : string :=
  match n, s with
  | 0, _ => s
  | S n', String _ s' => drop n' s'
  | S _, EmptyString => EmptyString
  end.

Fixpoint string_forallb (p : ascii -> bool) (s : string) : bool :=
  match s with
  | EmptyString => true
  | String c s' => p c && string_forallb p s'
  end.

Fixpoint string_count (p : ascii -> bool) (s : string) : nat :=
  match s with
  | EmptyString => 0
  | String c s' => (if p c then 1 else 0) + string_count p s'
  end.

(** ** Character classes *)

Definition in_range (lo hi c : ascii) : bool := ((lo <=? c) && (c <=? hi))%char.

(** [isDigit(char)]: [char >= '0' && char <= '9'], false on [undefined]. *)
Definition isDigit (char : option ascii) : bool :=
  match char with
  | None => false
  | Some c => in_range "0" "9" c
  end.

Definition is_digit (c : ascii) : bool := isDigit (Some c).

Definition is_alpha (c : ascii) : bool :=
  in_range "a" "z" c || in_range "A" "Z" c.

Definition is_alnum (c : ascii) : bool := is_alpha c || is_digit c.

(** The regular expression class [\s] restricted to code units below 256:
    TAB, LF, VT, FF, CR, SPACE and NBSP. *)
Definition is_space (c : ascii) : bool :=
  let n := nat_of_ascii c in
  ((9 <=? n) && (n <=? 13)) || (n =? 32) || (n =? 160).

Definition char_in (l : list ascii) (c : ascii) : bool :=
  existsb (Ascii.eqb c) l.

(** ** Loops

    A [while] loop is run with fuel: [None] means the fuel ran out before the
    loop exited.  The body reports whether it ended by [break]. *)

Inductive LoopStep (S : Type) : Type :=
  | Continue (s : S)
  | Break (s : S).
Arguments Continue {S} s.
Arguments Break {S} s.

Fixpoint while_loop {S : Type} (fuel : nat) (cond : S -> bool)
    (body : S -> LoopStep S) (s : S) : option S :=
  match fuel with
  | 0 => None
  | Datatypes.S fuel' =>
      if cond s then
        match body s with
        | Continue s' => while_loop fuel' cond body s'
        | Break s' => Some s'
        end
      else Some s
  end.

(** The state after at most [n] iterations of the same loop. *)
Fixpoint while_steps {S : Type} (n : nat) (cond : S -> bool)
    (body : S -> LoopStep S) (s : S) : S :=
  match n with
  | 0 => s
  | Datatypes.S n' =>
      if cond s then
        match body s with
        | Continue s' => while_steps n' cond body s'
        | Break s' => s'
        end
      else s
  end.

(** ** parseFloat and isNumber

    [parseFloat] is modelled up to the exact decimal value of the longest
    prefix that is a StrDecimalLiteral; the rounding to a double only matters
    for [isFinite], which holds exactly when the value is below
    [2^1024 - 2^970], the midpoint above the largest double. *)

Inductive ParsedNumber :=
  | PN_NaN
  | PN_Infinity (negative : bool)
  | PN_Decimal (negative : bool) (mantissa : N) (exp10 : Z).

Fixpoint trim_start (s : string) : string :=
  match s with
  | String c s' => if is_space c then trim_start s' else s
  | EmptyString => s
  end.

(** The longest run of decimal digits at the head of [s], and the rest. *)
Fixpoint take_digits (s : string) : string * string :=
  match s with
  | String c s' =>
      if is_digit c then
        let '(ds, rest) := take_digits s' in (String c ds, rest)
      else (EmptyString, s)
  | EmptyString => (EmptyString, EmptyString)
  end.

Definition digit_value (c : ascii) : N := (N_of_ascii c - 48)%N.

Fixpoint digits_value_acc (acc : N) (ds : string) : N :=
  match ds with
  | EmptyString => acc
  | String c ds' => digits_value_acc (acc * 10 + digit_value c)%N ds'
  end.

Definition digits_value (ds : string) : N := digits_value_acc 0%N ds.

Definition take_sign (s : string) : bool * string :=
  match s with
  | String c s' =>
      if (c =? "-")%char then (true, s')
      else if (c =? "+")%char then (false, s')
      else (false, s)
  | EmptyString => (false, s)
  end.

(** ExponentPart: [e] or [E], an optional sign and at least one digit;
    anything else contributes no exponent. *)
Definition parse_exponent (s : string) : Z :=
  match s with
  | String c s' =>
      if char_in ["e"; "E"]%char c then
        let '(neg, s'') := take_sign s' in
        let '(ds, _) := take_digits s'' in
        match ds with
        | EmptyString => 0%Z
        | _ => if neg then (- Z.of_N (digits_value ds))%Z
               else Z.of_N (digits_value ds)
        end
      else 0%Z
  | EmptyString => 0%Z
  end.

(** A ['.'] and the digits after it, if [s] starts with ['.']. *)
Definition take_fraction (s : string) : string * string :=
  match s with
  | String c r => if (c =? ".")%char then take_digits r else (EmptyString, s)
  | EmptyString => (EmptyString, s)
  end.

Definition parseFloat (str : string) : ParsedNumber :=
  let '(neg, s) := take_sign (trim_start str) in
  if prefix "Infinity" s then PN_Infinity neg
  else
    let '(int_part, s1) := take_digits s in
    let '(frac_part, s2) := take_fraction s1 in
    match int_part ++ frac_part with
    | EmptyString => PN_NaN
    | ds =>
        PN_Decimal neg (digits_value ds)
          (parse_exponent s2 - Z.of_nat (length frac_part))
    end.

Definition double_overflow : Z := (2 ^ 1024 - 2 ^ 970)%Z.

(** Whether [mantissa * 10 ^ exp10] rounds to a finite double. *)
Definition rounds_to_finite (mantissa : N) (exp10 : Z) : bool :=
  if (0 <=? exp10)%Z
  then (Z.of_N mantissa * 10 ^ exp10 <? double_overflow)%Z
  else (Z.of_N mantissa <? double_overflow * 10 ^ (- exp10))%Z.

Definition isNaN (x : ParsedNumber) : bool :=
  match x with PN_NaN => true | _ => false end.

Definition isFinite (x : ParsedNumber) : bool :=
  match x with
  | PN_NaN => false
  | PN_Infinity _ => false
  | PN_Decimal _ m e => rounds_to_finite m e
  end.

Definition isNumber (str : string) : bool :=
  negb (isNaN (parseFloat str)) && isFinite (parseFloat str).

(** ** extractNumbers *)

(** The first inner loop: advance [i] to the next digit or ['.'].  Each
    iteration increments [i], so [n = text.length - i] iterations exhaust
    the loop condition. *)
Fixpoint find_number_start (n : nat) (text : string) (i : nat) : nat :=
  match n with
  | 0 => i
  | S n' =>
      if i <? length text then
        match charAt text i with
        | Some currentChar =>
            if isDigit (Some currentChar) || (currentChar =? ".")%char then i
            else find_number_start n' text (S i)
        | None => find_number_start n' text (S i)
        end
      else i
  end.

(** The second inner loop: consume digits and at most one ['.'] that has a
    digit on both sides. *)
Fixpoint scan_number (n : nat) (text : string) (i : nat) (hasDecimal : bool)
    : nat :=
  match n with
  | 0 => i
  | S n' =>
      if i <? length text then
        match charAt text i with
        | None => i
        | Some char =>
            if isDigit (Some char) then scan_number n' text (S i) hasDecimal
            else if (char =? ".")%char && negb hasDecimal then
              let prevChar := if i =? 0 then None else charAt text (i - 1) in
              let nextChar := charAt text (i + 1) in
              if (0 <? i) && isDigit prevChar
                 && (i <? length text - 1) && isDigit nextChar
              then scan_number n' text (S i) true
              else i
            else i
        end
      else i
  end.

(** One candidate: where it starts and where the scan stopped. *)
Definition number_candidate (text : string) (i : nat) : nat * nat :=
  let start := find_number_start (length text - i) text i in
  (start, scan_number (length text - start) text start false).

Definition extractNumbers_cond (st : nat * IntentResult) : bool :=
  fst st <? length (text (snd st)).

Definition extractNumbers_body (st : nat * IntentResult)
    : LoopStep (nat * IntentResult) :=
  let '(i, input) := st in
  let '(start, i) := number_candidate (text input) i in
  if length (text input) <=? start then Break (start, input)
  else if start <? i then
    let numberValue := js_substring (text input) start i in
    if isNumber numberValue then
      Continue (i, push_entity input
                     {| entity_type := E_number;
                        entity_value := numberValue;
                        entity_start := start;
                        entity_end := i |})
    else Continue (i, input)
  else Continue (i, input).

Definition extractNumbers (fuel : nat) (input : IntentResult)
    : option IntentResult :=
  option_map snd
    (while_loop fuel extractNumbers_cond extractNumbers_body (0, input)).

(** ** extractEmails

    The pattern [[a-zA-Z0-9._%+-]+@[a-zA-Z0-9.-]+\.[a-zA-Z]{2,}] is matched
    the way a backtracking engine does: a matcher takes the rest of the input
    and returns the number of characters consumed up to the end of the whole
    match; a greedy repetition first tries one more character and falls back
    to its continuation. *)

Definition Matcher := string -> option nat.

Definition match_end : Matcher := fun _ => Some 0.

Definition match_one (cls : ascii -> bool) (k : Matcher) : Matcher :=
  fun s =>
    match s with
    | String c s' => if cls c then option_map S (k s') else None
    | EmptyString => None
    end.

Fixpoint match_star (cls : ascii -> bool) (k : Matcher) (s : string)
    : option nat :=
  match s with
  | String c s' =>
      if cls c then
        match match_star cls k s' with
        | Some n => Some (S n)
        | None => k s
        end
      else k s
  | EmptyString => k s
  end.

Definition match_plus (cls : ascii -> bool) (k : Matcher) : Matcher :=
  match_one cls (match_star cls k).

Definition is_char (d : ascii) (c : ascii) : bool := (c =? d)%char.

(** [[a-zA-Z0-9._%+-]] *)
Definition is_local_char (c : ascii) : bool :=
  is_alnum c || char_in ["."; "_"; "%"; "+"; "-"]%char c.

(** [[a-zA-Z0-9.-]] *)
Definition is_domain_char (c : ascii) : bool :=
  is_alnum c || char_in ["."; "-"]%char c.

Definition emailPattern : Matcher :=
  match_plus is_local_char
    (match_one (is_char "@")
       (match_plus is_domain_char
          (match_one (is_char ".")
             (match_one is_alpha (match_one is_alpha
                (match_star is_alpha match_end)))))).

(** The leftmost position at or after [i] where [m] matches; [s] is the
    input from offset [i] on.  The result is the index and the length. *)
Fixpoint regex_search (m : Matcher) (s : string) (i : nat)
    : option (nat * nat) :=
  match m s with
  | Some len => Some (i, len)
  | None =>
      match s with
      | String _ s' => regex_search m s' (S i)
      | EmptyString => None
      end
  end.

(** [pattern.exec(text)] for a global pattern whose [lastIndex] is
    [lastIndex]: [None] is [null]. *)
Definition regex_exec (m : Matcher) (text : string) (lastIndex : nat)
    : option (nat * nat) :=
  if length text <? lastIndex then None
  else regex_search m (drop lastIndex text) lastIndex.

(** The loop state is [emailPattern.lastIndex] and the record. *)
Definition extractEmails_body (st : nat * IntentResult)
    : LoopStep (nat * IntentResult) :=
  let '(lastIndex, input) := st in
  match regex_exec emailPattern (text input) lastIndex with
  | None => Break (0, input)
  | Some (index, len) =>
      let match0 := js_substring (text input) index (index + len) in
      let input' :=
        push_entity input
          {| entity_type := E_email;
             entity_value := match0;
             entity_start := index;
             entity_end := index + length match0 |} in
      let lastIndex' := index + len in
      Continue (if index =? lastIndex' then S lastIndex' else lastIndex',
                input')
  end.

Definition extractEmails (fuel : nat) (input : IntentResult)
    : option IntentResult :=
  option_map snd
    (while_loop fuel (fun _ => true) extractEmails_body (0, input)).

(** ** extractPhones *)

(** [text.split(re)] for a pattern [re] that matches one or more characters
    of the class [delim]: the pieces between maximal runs of delimiters,
    with an empty piece before a leading run and after a trailing one.
    [cur] is the piece being read, [in_sep] whether the previous character
    was a delimiter. *)
Fixpoint split_class_go (delim : ascii -> bool) (s : string) (cur : string)
    (in_sep : bool) : list string :=
  match s with
  | EmptyString => [cur]
  | String c s' =>
      if delim c then
        if in_sep then split_class_go delim s' EmptyString true
        else cur :: split_class_go delim s' EmptyString true
      else split_class_go delim s' (cur ++ String c EmptyString) false
  end.

Definition split_class (delim : ascii -> bool) (s : string) : list string :=
  split_class_go delim s EmptyString false.

(** [[\s\n\r\t,;()<>[\]{}]] *)
Definition is_phone_delimiter (c : ascii) : bool :=
  is_space c
  || char_in [","; ";"; "("; ")"; "<"; ">"; "["; "]"; "{"; "}"]%char c.

Definition phone_separators : list ascii :=
  ["-"; "."; " "; "("; ")"; "+"]%char.

(** The counting loop over the characters of a token. *)
Fixpoint count_phone_chars (token : string) (digitCount separatorCount : nat)
    : nat * nat :=
  match token with
  | EmptyString => (digitCount, separatorCount)
  | String char rest =>
      if isDigit (Some char) then
        count_phone_chars rest (S digitCount) separatorCount
      else if char_in phone_separators char then
        count_phone_chars rest digitCount (S separatorCount)
      else count_phone_chars rest digitCount separatorCount
  end.

(** One iteration of the loop over the tokens. *)
Definition extractPhones_token (input : IntentResult) (token : string)
    : IntentResult :=
  if (token =? "")%string then input
  else if 10 <=? length token then
    let '(digitCount, separatorCount) := count_phone_chars token 0 0 in
    if (10 <=? digitCount) && (digitCount <=? 15)
       && (digitCount + separatorCount =? length token)
    then
      match indexOf (text input) token 0 with
      | Some start =>
          push_entity input
            {| entity_type := E_phone;
               entity_value := token;
               entity_start := start;
               entity_end := start + length token |}
      | None => input
      end
    else input
  else input.

Definition extractPhones (input : IntentResult) : IntentResult :=
  fold_left extractPhones_token
    (split_class is_phone_delimiter (text input)) input.

(** ** extractUrls and isValidUrl *)

(** [s.split(sep)] for a non-empty string [sep]; [skip] counts the
    characters of a separator still to be passed over. *)
Fixpoint split_string_go (sep : string) (s : string) (cur : string)
    (skip : nat) : list string :=
  match s with
  | EmptyString => [cur]
  | String c s' =>
      match skip with
      | S k => split_string_go sep s' cur k
      | 0 =>
          if prefix sep s
          then cur :: split_string_go sep s' EmptyString (length sep - 1)
          else split_string_go sep s' (cur ++ String c EmptyString) 0
      end
  end.

Definition split_string (sep s : string) : list string :=
  split_string_go sep s EmptyString 0.

Definition string_in (l : list string) (s : string) : bool :=
  existsb (String.eqb s) l.

(** [/^[a-zA-Z0-9-]+$/.test(part)] *)
Definition is_label_char (c : ascii) : bool := is_alnum c || is_char "-" c.

Definition is_label (part : string) : bool :=
  negb (part =? "")%string && string_forallb is_label_char part.

Definition isValidUrl (url : string) : bool :=
  match split_string "://" url with
  | [protocol; path] =>
      if (protocol =? "")%string || (path =? "")%string
         || negb (string_in ["http"; "https"] protocol)
      then false
      else
        let domainPath := hd EmptyString (split_string "/" path) in
        if (domainPath =? "")%string then false
        else
          let domainParts := split_string "." domainPath in
          if List.length domainParts <? 2 then false
          else forallb (fun part => negb (part =? "")%string && is_label part)
                 domainParts
  | _ => false
  end.

Definition url_terminators : list ascii :=
  [" "; "010"; "013"; "009"; "<"; ">"; "("; ")"; "["; "]"; "{"; "}"]%char.

(** The inner loop that finds the end of the URL; it runs at most
    [n = text.length - urlEnd] times. *)
Fixpoint find_url_end (n : nat) (text : string) (urlEnd : nat) : nat :=
  match n with
  | 0 => urlEnd
  | S n' =>
      if urlEnd <? length text then
        match charAt text urlEnd with
        | None => urlEnd
        | Some char =>
            if char_in url_terminators char then urlEnd
            else find_url_end n' text (S urlEnd)
        end
      else urlEnd
  end.

Definition extractUrls_cond (st : nat * IntentResult) : bool :=
  fst st <? length (text (snd st)).

(** The loop state is [searchStart] and the record. *)
Definition extractUrls_body (protocol : string) (st : nat * IntentResult)
    : LoopStep (nat * IntentResult) :=
  let '(searchStart, input) := st in
  match indexOf (text input) protocol searchStart with
  | None => Break (searchStart, input)
  | Some protocolIndex =>
      let urlStart := protocolIndex + length protocol in
      let urlEnd :=
        find_url_end (length (text input) - urlStart) (text input) urlStart in
      let url := js_substring (text input) protocolIndex urlEnd in
      let input' :=
        if negb (url =? "")%string && isValidUrl url then
          push_entity input
            {| entity_type := E_url;
               entity_value := url;
               entity_start := protocolIndex;
               entity_end := urlEnd |}
        else input in
      Continue (if searchStart <? urlEnd then urlEnd else searchStart + 1,
                input')
  end.

Definition extractUrls_protocol (fuel : nat) (protocol : string)
    (input : IntentResult) : option IntentResult :=
  option_map snd
    (while_loop fuel extractUrls_cond (extractUrls_body protocol) (0, input)).

Definition protocols : list string := ["http://"; "https://"].

Definition extractUrls (fuel : nat) (input : IntentResult)
    : option IntentResult :=
  fold_left
    (fun acc protocol =>
       match acc with
       | Some input' => extractUrls_protocol fuel protocol input'
       | None => None
       end)
    protocols (Some input).

(** ** extract: the four extractors in sequence *)

Definition extract (fuel : nat) (input : IntentResult) : option IntentResult :=
  match extractEmails fuel input with
  | None => None
  | Some input1 =>
      match extractUrls fuel (extractPhones input1) with
      | None => None
      | Some input2 => extractNumbers fuel input2
      end
  end.

(** A record with no tokens and no entities yet. *)
Definition initial (t : string) : IntentResult :=
  {| text := t; tokens := []; entities := [] |}.

(** ** normalize

    [toLowerCase] on code units below 256: the letters A-Z and the accented
    capitals U+00C0-U+00DE (U+00D7, the multiplication sign, apart) move up
    by 32. *)

Definition toLowerCase_char (c : ascii) : ascii :=
  let n := nat_of_ascii c in
  if ((65 <=? n) && (n <=? 90))
     || ((192 <=? n) && (n <=? 222) && negb (n =? 215))
  then ascii_of_nat (n + 32)
  else c.

Fixpoint toLowerCase (s : string) : string :=
  match s with
  | EmptyString => EmptyString
  | String c s' => String (toLowerCase_char c) (toLowerCase s')
  end.

Definition set_token_value (token : Token) (v : string) : Token :=
  {| token_type := token_type token; token_value := v;
     token_start := token_start token; token_end := token_end token |}.

Definition set_entity_value (entity : Entity) (v : string) : Entity :=
  {| entity_type := entity_type entity; entity_value := v;
     entity_start := entity_start entity; entity_end := entity_end entity |}.

Section Normalize.

(** [parseFloat(v).toString()] goes through the engine: the double a parsed
    decimal rounds to and the text of a number are parameters of the
    stage. *)
Variable JSNumber : Type.
Variable toNumber : ParsedNumber -> JSNumber.
Variable numberToString : JSNumber -> string.

Definition normalize_token (token : Token) : Token :=
  match token_type token with
  | T_word => set_token_value token (toLowerCase (token_value token))
  | T_number =>
      set_token_value token
        (numberToString (toNumber (parseFloat (token_value token))))
  | _ => token
  end.

Definition normalize_entity (entity : Entity) : Entity :=
  set_entity_value entity (toLowerCase (entity_value entity)).

Definition normalize (input : IntentResult) : IntentResult :=
  {| text := text input;
     tokens := map normalize_token (tokens input);
     entities := map normalize_entity (entities input) |}.

End Normalize.

Arguments normalize_token {JSNumber} toNumber numberToString token.
Arguments normalize {JSNumber} toNumber numberToString input.

(** ** Number.prototype.toString

    The text of a number is laid out from its decimal digits as
    Number::toString prescribes (ECMA-262): what the engine supplies is, for
    a finite number other than zero, its sign, the digits of the integer [s]
    and the exponent [n] with [s * 10 ^ (n - k)] the number, [k] the number
    of digits. *)

Inductive NumberDigits :=
  | ND_NaN
  | ND_Infinity (negative : bool)
  | ND_Zero
  | ND_Finite (negative : bool) (digits : string) (n : Z).

Fixpoint zeros (j : nat) : string :=
  match j with
  | 0 => EmptyString
  | S j' => String "0" (zeros j')
  end.

(** The decimal representation of an integer, with no leading zeros. *)
Definition decimal_string (m : N) : string :=
  NilZero.string_of_uint (N.to_uint m).

Definition sign_prefix (negative : bool) : string :=
  if negative then "-" else "".

(** [e], a plus or minus sign, and the decimal representation of [abs(e)]. *)
Definition format_exponent (e : Z) : string :=
  String "e" ((if (e <? 0)%Z then "-" else "+") ++ decimal_string (Z.abs_N e)).

(** The five layouts: digits and zeros when [k <= n <= 21]; digits, a point
    and digits when [0 < n <= 21]; ["0."], zeros and digits when
    [-6 < n <= 0]; otherwise the exponent notation, without a point when
    there is one digit. *)
Definition format_finite (ds : string) (n : Z) : string :=
  let k := Z.of_nat (length ds) in
  if ((k <=? n) && (n <=? 21))%Z then ds ++ zeros (Z.to_nat (n - k))
  else if ((0 <? n) && (n <=? 21))%Z then
    substring 0 (Z.to_nat n) ds ++ "."
    ++ substring (Z.to_nat n) (Z.to_nat (k - n)) ds
  else if ((-6 <? n) && (n <=? 0))%Z then
    "0." ++ zeros (Z.to_nat (- n)) ++ ds
  else
    match ds with
    | String d EmptyString => String d (format_exponent (n - 1))
    | String d rest => String d ("." ++ rest ++ format_exponent (n - 1))
    | EmptyString => EmptyString
    end.

Definition format_number (d : NumberDigits) : string :=
  match d with
  | ND_NaN => "NaN"
  | ND_Infinity negative => sign_prefix negative ++ "Infinity"
  | ND_Zero => "0"
  | ND_Finite negative ds n => sign_prefix negative ++ format_finite ds n
  end.

Definition Number_toString {JSNumber : Type}
    (Number_digits : JSNumber -> NumberDigits) (x : JSNumber) : string :=
  format_number (Number_digits x).

(** [m * 10 ^ e] and [m' * 10 ^ e'] are the same number. *)
Definition same_decimal (m : N) (e : Z) (m' : N) (e' : Z) : Prop :=
  (Z.of_N m * 10 ^ (e - Z.min e e') = Z.of_N m' * 10 ^ (e' - Z.min e e'))%Z.

(** An engine whose numbers are the integers: a decimal that is no integer
    is NaN there. *)
Inductive IntNumber :=
  | Int_NaN
  | Int_Infinity (negative : bool)
  | Int_Finite (v : Z).

Definition integer_value (m : N) (e : Z) : option Z :=
  if (0 <=? e)%Z then Some (Z.of_N m * 10 ^ e)%Z
  else if (Z.of_N m mod 10 ^ (- e) =? 0)%Z
       then Some (Z.of_N m / 10 ^ (- e))%Z
       else None.

Definition int_toNumber (p : ParsedNumber) : IntNumber :=
  match p with
  | PN_NaN => Int_NaN
  | PN_Infinity negative => Int_Infinity negative
  | PN_Decimal negative m e =>
      match integer_value m e with
      | Some v => Int_Finite (if negative then - v else v)
      | None => Int_NaN
      end
  end.

Definition int_digits (x : IntNumber) : NumberDigits :=
  match x with
  | Int_NaN => ND_NaN
  | Int_Infinity negative => ND_Infinity negative
  | Int_Finite 0 => ND_Zero
  | Int_Finite v =>
      ND_Finite (v <? 0)%Z (decimal_string (Z.abs_N v))
        (Z.of_nat (length (decimal_string (Z.abs_N v))))
  end.

(** ** clean (processors/clean.ts) *)

Definition clean (input : IntentResult) : IntentResult :=
  {| text := text input;
     tokens :=
       filter (fun token =>
                 match token_type token with T_punct => false | _ => true end)
         (tokens input);
     entities := entities input |}.

(** ** Pipeline: stage registration (core/pipeline.ts)

    A method mutates the instance and returns [this]: it is modelled as the
    function from the instance to the instance it returns. *)

Definition PipelineComponent := IntentResult -> IntentResult.

(** The options the tokenizer is built with, and the settings the
    constructor reads. *)
Record TokenizerOptions := mkTokenizerOptions {
  lowercase : bool;
  mergeSymbols : bool
}.

Record PipelineFlags := mkPipelineFlags {
  enableNormalization : bool;
  enableCleaning : bool;
  enableExtraction : bool;
  enableSegmentation : bool
}.

Record ExtractionFlags := mkExtractionFlags {
  extractEmailsFlag : bool;
  extractPhonesFlag : bool;
  extractUrlsFlag : bool;
  extractNumbersFlag : bool
}.

Record MiniparseConfig := mkMiniparseConfig {
  config_tokenizer : TokenizerOptions;
  config_pipeline : PipelineFlags;
  config_extraction : ExtractionFlags
}.

(** The private fields of the class. *)
Record Pipeline := mkPipeline {
  components : list PipelineComponent;
  tokenizer : TokenizerOptions;
  config : MiniparseConfig
}.

Definition use (this : Pipeline) (component : PipelineComponent) : Pipeline :=
  {| components := components this ++ [component];
     tokenizer := tokenizer this;
     config := config this |}.

Definition getConfig (this : Pipeline) : MiniparseConfig := config this.

(** [process(text)]: tokenize, then run the stages in the order they were
    registered.  The tokenizer is not part of the sources modelled here: it
    is a parameter. *)
Definition process (tokenize : TokenizerOptions -> string -> list Token)
    (this : Pipeline) (t : string) : IntentResult :=
  fold_left (fun result component => component result) (components this)
    {| text := t; tokens := tokenize (tokenizer this) t; entities := [] |}.

Definition addCustomProcessor (this : Pipeline) (component : PipelineComponent)
    : Pipeline :=
  {| components := components this ++ [component];
     tokenizer := tokenizer this;
     config := config this |}.

(** ** Properties of entities *)

(** [0 <= start < end <= length(text)] and [value == text[start:end]]. *)
Definition entity_in_text (t : string) (e : Entity) : Prop :=
  entity_start e < entity_end e
  /\ entity_end e <= length t
  /\ entity_value e = js_substring t (entity_start e) (entity_end e).

(** [out] is [input] with entities appended that all satisfy [P]. *)
Definition appends (P : Entity -> Prop) (input out : IntentResult) : Prop :=
  text out = text input
  /\ tokens out = tokens input
  /\ exists new, entities out = (entities input ++ new)%list /\ Forall P new.

(** The email shape with labels that may not be empty: a local part, ['@'],
    one or more labels joined by ['.'], ['.'] and a final label. *)
Definition email_shape_nonempty_labels (v : string) : Prop :=
  exists local labels tld,
    v = (local ++ "@" ++ concat "." labels ++ "." ++ tld)%string
    /\ local <> EmptyString
    /\ string_forallb is_local_char local = true
    /\ labels <> []
    /\ Forall (fun l => l <> EmptyString
                        /\ string_forallb is_label_char l = true) labels
    /\ string_forallb is_alpha tld = true
    /\ 2 <= length tld.

(** The same shape, the part between ['@'] and the last ['.'] being any
    non-empty string over [[a-zA-Z0-9.-]]: its labels may be empty. *)
Definition email_shape (v : string) : Prop :=
  exists local domain tld,
    v = (local ++ "@" ++ domain ++ "." ++ tld)%string
    /\ local <> EmptyString
    /\ string_forallb is_local_char local = true
    /\ domain <> EmptyString
    /\ string_forallb is_domain_char domain = true
    /\ string_forallb is_alpha tld = true
    /\ 2 <= length tld.

(** ** The phone extractor as the specification words it *)

Definition phone_qualifies (candidate : string) : bool :=
  let digits := string_count is_digit candidate in
  let separators := string_count (char_in phone_separators) candidate in
  (10 <=? length candidate)
  && (10 <=? digits) && (digits <=? 15)
  && (digits + separators =? length candidate).

Definition phone_candidates (t : string) : list string :=
  filter phone_qualifies (split_class is_phone_delimiter t).

(** [m] is the index of the first occurrence of [v] in [t]. *)
Definition first_occurrence (t v : string) (m : nat) : Prop :=
  substring m (length v) t = v
  /\ forall m', m' < m -> substring m' (length v) t <> v.

Definition phone_entity_of (t : string) (e : Entity) : Prop :=
  entity_type e = E_phone
  /\ first_occurrence t (entity_value e) (entity_start e)
  /\ entity_end e = entity_start e + length (entity_value e).

(** Digits and the separators that survive the split. *)
Definition is_phone_value_char (c : ascii) : bool :=
  is_digit c || char_in ["-"; "."; "+"]%char c.

(** ** The shape of a number candidate *)

(** [digits], [digits.digits] or [.digits], with at least one digit in each
    run written. *)
Definition is_decimal_literal (s : string) : bool :=
  let '(int_part, rest) := take_digits s in
  match rest with
  | EmptyString => negb (int_part =? "")%string
  | String c r =>
      let '(frac_part, rest') := take_digits r in
      (c =? ".")%char && negb (frac_part =? "")%string && (rest' =? "")%string
  end.

(** [scan_number] read on the rest of the text: [prev] is the character
    before [s], the result the number of characters consumed. *)
Fixpoint scan_suffix (prev : option ascii) (s : string) (hasDecimal : bool)
    : nat :=
  match s with
  | EmptyString => 0
  | String c s' =>
      if is_digit c then S (scan_suffix (Some c) s' hasDecimal)
      else if (c =? ".")%char && negb hasDecimal then
        if isDigit prev && isDigit (get 0 s')
        then S (scan_suffix (Some c) s' true)
        else 0
      else 0
  end.

Definition prev_char (t : string) (i : nat) : option ascii :=
  if i =? 0 then None else charAt t (i - 1).

(** The test [scan_number] makes on a ['.'] at offset [i]: a digit before
    and a digit after. *)
Definition between_digits (t : string) (i : nat) : bool :=
  (0 <? i) && isDigit (if i =? 0 then None else charAt t (i - 1))
  && (i <? length t - 1) && isDigit (charAt t (i + 1)).

(** Every ['.'] of the text stands between two digits. *)
Definition periods_between_digits (t : string) : Prop :=
  forall p, charAt t p = Some "."%char -> between_digits t p = true.

(** A text whose only number has 310 digits. *)
Definition huge_number : string :=
  "1000000000000000000000000000000000000000000000000000000000000000000000000000000000000000000000000000000000000000000000000000000000000000000000000000000000000000000000000000000000000000000000000000000000000000000000000000000000000000000000000000000000000000000000000000000000000000000000000000000000000000000000".

(** ** Predicates used by the properties *)

(** [consumes k P]: when [k] matches, it has consumed a prefix of its input
    that satisfies [P]. *)
Definition consumes (k : Matcher) (P : string -> Prop) : Prop :=
  forall s n, k s = Some n ->
    exists a b, s = (a ++ b)%string /\ length a = n /\ P a.

(** [piece] is a substring of [t]. *)
Definition occurs_in (t piece : string) : Prop :=
  exists pre post, t = (pre ++ piece ++ post)%string.

(** What the email loop and the URL loop append. *)
Definition email_entity (t : string) (e : Entity) : Prop :=
  entity_type e = E_email /\ entity_in_text t e /\ email_shape (entity_value e).

Definition url_entity (t : string) (e : Entity) : Prop :=
  entity_type e = E_url /\ entity_in_text t e
  /\ isValidUrl (entity_value e) = true.

(** A URL that passes the validation splits on ["://"] into a scheme and a
    rest, and the first path segment of the rest splits on ['.'] into at
    least two labels, non-empty and made of [[a-zA-Z0-9-]] only. *)
Definition has_dotted_host (candidate : string) : Prop :=
  exists protocol path,
    split_string "://" candidate = [protocol; path]
    /\ string_in ["http"; "https"] protocol = true
    /\ 2 <= List.length
              (split_string "." (hd EmptyString (split_string "/" path)))
    /\ Forall (fun part => is_label part = true)
         (split_string "." (hd EmptyString (split_string "/" path))).

(** A record to normalize. *)
Definition sample_result : IntentResult :=
  {| text := "Mail John@Example.COM 007 times!";
     tokens := [mkToken T_word "Mail" 0 4; mkToken T_word "John" 5 9;
                mkToken T_number "007" 22 25; mkToken T_word "times" 26 31;
                mkToken T_punct "!" 31 32];
     entities := [mkEntity E_email "John@Example.COM" 5 21;
                  mkEntity E_number "007" 22 25] |}.

(** ** The constructor of the pipeline (core/pipeline.ts)

    The constructor first loads the configuration, then registers the
    built-in stages the flags select.  It is modelled from the loaded
    configuration on.  The stages that extract one type of entity and the
    segment stage are imported from modules that are not among the sources
    modelled here: the built-in stages are a parameter. *)

Record BuiltinStages := mkBuiltinStages {
  stage_normalize : PipelineComponent;
  stage_clean : PipelineComponent;
  stage_extractEmailsOnly : PipelineComponent;
  stage_extractPhonesOnly : PipelineComponent;
  stage_extractUrlsOnly : PipelineComponent;
  stage_extractNumbersOnly : PipelineComponent;
  stage_segment : PipelineComponent
}.

(** [if (flag) this.use(component)] *)
Definition use_when (flag : bool) (this : Pipeline)
    (component : PipelineComponent) : Pipeline :=
  if flag then use this component else this.

Definition construct (stages : BuiltinStages) (cfg : MiniparseConfig)
    : Pipeline :=
  let this0 :=
    {| components := [];
       tokenizer :=
         {| lowercase := lowercase (config_tokenizer cfg);
            mergeSymbols := mergeSymbols (config_tokenizer cfg) |};
       config := cfg |} in
  let this1 :=
    use_when (enableNormalization (config_pipeline cfg)) this0
      (stage_normalize stages) in
  let this2 :=
    use_when (enableCleaning (config_pipeline cfg)) this1
      (stage_clean stages) in
  let this3 :=
    if enableExtraction (config_pipeline cfg) then
      let e1 :=
        use_when (extractEmailsFlag (config_extraction cfg)) this2
          (stage_extractEmailsOnly stages) in
      let e2 :=
        use_when (extractPhonesFlag (config_extraction cfg)) e1
          (stage_extractPhonesOnly stages) in
      let e3 :=
        use_when (extractUrlsFlag (config_extraction cfg)) e2
          (stage_extractUrlsOnly stages) in
      use_when (extractNumbersFlag (config_extraction cfg)) e3
        (stage_extractNumbersOnly stages)
    else this2 in
  use_when (enableSegmentation (config_pipeline cfg)) this3
    (stage_segment stages).

(** The record [process] starts from. *)
Definition tokenized (tokenize : TokenizerOptions -> string -> list Token)
    (options : TokenizerOptions) (t : string) : IntentResult :=
  {| text := t; tokens := tokenize options t; entities := [] |}.


(** A capital letter that [toLowerCase] changes. *)
Definition is_capital (c : ascii) : bool :=
  let n := nat_of_ascii c in
  ((65 <=? n) && (n <=? 90))
  || ((192 <=? n) && (n <=? 222) && negb (n =? 215)).

(** ** Predicates on what the extractors append *)

(** The entities follow one another from offset [from] on: each starts at
    or after the end of the one before and ends after it starts. *)
Fixpoint spans_in_order (from : nat) (l : list Entity) : Prop :=
  match l with
  | [] => True
  | e :: l' =>
      from <= entity_start e /\ entity_start e < entity_end e
      /\ spans_in_order (entity_end e) l'
  end.

(** The end of the last entity, [from] when there is none. *)
Definition last_end (from : nat) (l : list Entity) : nat :=
  fold_left (fun _ e => entity_end e) l from.

(** [out] is [input] with entities appended that satisfy [Q] and follow one
    another without overlap. *)
Definition appends_in_order (Q : Entity -> Prop) (input out : IntentResult)
    : Prop :=
  text out = text input
  /\ tokens out = tokens input
  /\ exists new,
       entities out = (entities input ++ new)%list
       /\ Forall Q new /\ spans_in_order 0 new.

(** One iteration of a scan from [pos]: the position does not move back,
    and at most one entity, lying between the old and the new position, is
    pushed. *)
Definition scan_step (Q : string -> Entity -> Prop) (pos : nat)
    (st : IntentResult) (s' : nat * IntentResult) : Prop :=
  pos <= fst s'
  /\ (snd s' = st
      \/ exists e,
           snd s' = push_entity st e /\ Q (text st) e
           /\ pos <= entity_start e /\ entity_start e < entity_end e
           /\ entity_end e <= fst s').

(** A number entity as the number loop reports it. *)
Definition number_entity (t : string) (e : Entity) : Prop :=
  entity_type e = E_number
  /\ entity_in_text t e
  /\ is_decimal_literal (entity_value e) = true
  /\ isNumber (entity_value e) = true.

Definition not_url_terminator (c : ascii) : bool :=
  negb (char_in url_terminators c).

(** A URL entity as the loop for [protocol] reports it. *)
Definition url_entity_of (protocol t : string) (e : Entity) : Prop :=
  entity_type e = E_url
  /\ entity_in_text t e
  /\ prefix protocol (entity_value e) = true
  /\ string_forallb not_url_terminator (entity_value e) = true
  /\ isValidUrl (entity_value e) = true.

(** A URL entity of either pass. *)
Definition url_entity_any (t : string) (e : Entity) : Prop :=
  url_entity_of "http://" t e \/ url_entity_of "https://" t e.

(** The text has a ['.'] that does not stand between two digits. *)
Definition has_stray_period (t : string) : Prop :=
  exists p, charAt t p = Some "."%char /\ between_digits t p = false.

(** ** Configuration file parser (config/loader.ts)

    [parseYAMLToJSON] builds its result by mutating objects that it also
    keeps on a stack: objects live in a heap and are named by their address,
    the index at which they were created.  The root object is created first
    and has address 0. *)

(** [s.trim()]: the white space and line terminators below 256 are those of
    [is_space]. *)
Fixpoint trim_end (s : string) : string :=
  match s with
  | EmptyString => EmptyString
  | String c s' =>
      let r := trim_end s' in
      if is_space c && (r =? "")%string then EmptyString else String c r
  end.

Definition trim (s : string) : string := trim_end (trim_start s).

(** [s.startsWith(p)] and [s.endsWith(p)] *)
Definition startsWith (s p : string) : bool := prefix p s.

Definition endsWith (s p : string) : bool :=
  (length p <=? length s) && (drop (length s - length p) s =? p)%string.

(** *** The line pattern

    The pattern of [line.match] reads: start of input, group 1 of white
    space, group 2 of one or more of [[a-zA-Z0-9_-]], a colon, white space,
    group 3 of any characters, end of input; all repetitions are greedy.

    Capturing repetitions in continuation style: the continuation receives
    the text the repetition matched and the rest of the input.  A greedy
    repetition first tries one more character and falls back to its
    continuation. *)
Fixpoint capture_star {A : Type} (cls : ascii -> bool)
    (k : string -> string -> option A) (s : string) : option A :=
  match s with
  | String c s' =>
      if cls c then
        match capture_star cls (fun m rest => k (String c m) rest) s' with
        | Some r => Some r
        | None => k EmptyString s
        end
      else k EmptyString s
  | EmptyString => k EmptyString s
  end.

Definition capture_plus {A : Type} (cls : ascii -> bool)
    (k : string -> string -> option A) (s : string) : option A :=
  match s with
  | String c s' =>
      if cls c then capture_star cls (fun m rest => k (String c m) rest) s'
      else None
  | EmptyString => None
  end.

(** [[a-zA-Z0-9_-]] *)
Definition is_key_char (c : ascii) : bool :=
  is_alnum c || char_in ["_"; "-"]%char c.

(** [.] without the [s] flag: any character but a line terminator. *)
Definition is_line_char (c : ascii) : bool :=
  negb (char_in ["010"; "013"]%char c).

(** [line.match(...)]: the groups 1, 2 and 3 of the match, which the
    anchor [^] allows at offset 0 only. *)
Definition line_pattern (line : string) : option (string * string * string) :=
  capture_star is_space
    (fun indent r1 =>
       capture_plus is_key_char
         (fun key r2 =>
            match r2 with
            | String ":" r3 =>
                capture_star is_space
                  (fun _ r4 =>
                     capture_star is_line_char
                       (fun value r5 =>
                          if (r5 =? "")%string
                          then Some (indent, key, value)
                          else None)
                       r4)
                  r3
            | _ => None
            end)
         r1)
    line.

Definition double_quote : string := String "034" EmptyString.

Section ConfigLoader.

(** The numbers of the engine and its conversion [Number(value)]; [None] is
    the result NaN. *)
Variable JSNumber : Type.
Variable Number : string -> option JSNumber.

Inductive JSValue :=
| V_undefined
| V_null
| V_boolean (b : bool)
| V_number (n : JSNumber)
| V_string (s : string)
| V_object (ref : nat).

(** The prototype of an object: [Object.prototype] (that of every object
    literal), [null], or an object of the heap. *)
Inductive Prototype := Proto_Object | Proto_null | Proto_ref (ref : nat).

(** An object: its own properties and its prototype.  The list keeps the
    properties in the order of their creation; the order in which the engine
    enumerates them is not modelled, the parser never enumerates. *)
Record JSObject := mkObject {
  own : list (string * JSValue);
  proto : Prototype
}.

Definition Heap := list JSObject.

(** The object literal [{}]. *)
Definition empty_object : JSObject := mkObject [] Proto_Object.

Fixpoint get_own (props : list (string * JSValue)) (key : string)
    : option JSValue :=
  match props with
  | [] => None
  | (k, v) :: rest => if (k =? key)%string then Some v else get_own rest key
  end.

Fixpoint set_own (props : list (string * JSValue)) (key : string)
    (v : JSValue) : list (string * JSValue) :=
  match props with
  | [] => [(key, v)]
  | (k, w) :: rest =>
      if (k =? key)%string then (k, v) :: rest
      else (k, w) :: set_own rest key v
  end.

Fixpoint update (h : Heap) (ref : nat) (o : JSObject) : Heap :=
  match h, ref with
  | [], _ => []
  | _ :: h', 0 => o :: h'
  | x :: h', S ref' => x :: update h' ref' o
  end.

(** Whether looking [__proto__] up along the prototype chain [p] ends at the
    accessor of [Object.prototype]: it does not when the chain ends in
    [null] or passes an object with an own property of that name.  A chain
    is no longer than the heap. *)
Fixpoint inherits_proto_accessor (fuel : nat) (h : Heap) (p : Prototype)
    : bool :=
  match p with
  | Proto_Object => true
  | Proto_null => false
  | Proto_ref r =>
      match fuel, nth_error h r with
      | S fuel', Some o =>
          match get_own (own o) "__proto__" with
          | Some _ => false
          | None => inherits_proto_accessor fuel' h (proto o)
          end
      | _, _ => false
      end
  end.

(** [obj[key] = v] on the object at [ref].  The assignment creates or
    overwrites an own property, except for the key [__proto__] reaching the
    accessor of [Object.prototype]: that one replaces the prototype when [v]
    is an object or [null], and does nothing otherwise. *)
Definition put (h : Heap) (ref : nat) (key : string) (v : JSValue) : Heap :=
  match nth_error h ref with
  | None => h
  | Some o =>
      if (key =? "__proto__")%string
         && match get_own (own o) key with Some _ => false | None => true end
         && inherits_proto_accessor (List.length h) h (proto o)
      then
        match v with
        | V_object r => update h ref (mkObject (own o) (Proto_ref r))
        | V_null => update h ref (mkObject (own o) Proto_null)
        | _ => h
        end
      else update h ref (mkObject (set_own (own o) key v) (proto o))
  end.

Definition parseYAMLValue (value : string) : JSValue :=
  if (toLowerCase value =? "true")%string then V_boolean true
  else if (toLowerCase value =? "false")%string then V_boolean false
  else if (value =? "null")%string then V_null
  else if (value =? "undefined")%string then V_undefined
  else
    match Number value with
    | Some num => V_number num
    | None =>
        if (startsWith value double_quote && endsWith value double_quote)
           || (startsWith value "'" && endsWith value "'")
        then V_string (js_substring value 1 (length value - 1))
        else V_string value
    end.

(** The module's [indentLevels]: a [WeakMap] keyed by object identity. *)
Definition IndentLevels := list (nat * nat).

(** [indentLevels.get(obj) || 0] *)
Fixpoint getIndentLevel (levels : IndentLevels) (obj : nat) : nat :=
  match levels with
  | [] => 0
  | (o, level) :: rest =>
      if o =? obj then level else getIndentLevel rest obj
  end.

Definition setIndentLevel (levels : IndentLevels) (obj level : nat)
    : IndentLevels :=
  (obj, level) :: levels.

(** The state of the loop over the lines; the head of [stack] is the last
    element of the array. *)
Record ParserState := mkParserState {
  heap : Heap;
  stack : list nat;
  indentLevels : IndentLevels
}.

(** The inner [while (stack.length > 1)] loop. *)
Fixpoint adjust_stack (levels : IndentLevels) (indent : nat)
    (stack : list nat) : list nat :=
  match stack with
  | top :: (_ :: _) as rest =>
      if indent <? getIndentLevel levels top
      then adjust_stack levels indent rest
      else stack
  | _ => stack
  end.

(** One iteration of [for (const line of lines)].  The property read back
    into [newObj] after the assignment is the object just created. *)
Definition process_line (st : ParserState) (line : string) : ParserState :=
  let trimmed := trim line in
  if (trimmed =? "")%string || startsWith trimmed "#" then st
  else
    match line_pattern line with
    | None => st
    | Some (indent_text, key, rest) =>
        let indent := length indent_text in
        let value := trim rest in
        let stack' := adjust_stack (indentLevels st) indent (stack st) in
        match stack' with
        | [] => mkParserState (heap st) stack' (indentLevels st)
        | currentObj :: _ =>
            if (value =? "")%string then
              let newObj := List.length (heap st) in
              mkParserState
                (put (heap st ++ [empty_object])%list currentObj key
                   (V_object newObj))
                (newObj :: stack')
                (setIndentLevel (indentLevels st) newObj indent)
            else
              mkParserState
                (put (heap st) currentObj key (parseYAMLValue value))
                stack' (indentLevels st)
        end
    end.

Definition parser_start : ParserState :=
  mkParserState [empty_object] [0] [].

Definition parse_lines (lines : list string) : Heap :=
  heap (fold_left process_line lines parser_start).

(** The heap of the objects created, with [result] at address 0. *)
Definition parseYAMLToJSON (yamlStr : string) : Heap :=
  parse_lines (split_string (String "010" EmptyString) yamlStr).

End ConfigLoader.

Arguments V_undefined {JSNumber}.
Arguments V_null {JSNumber}.
Arguments V_boolean {JSNumber} b.
Arguments V_number {JSNumber} n.
Arguments V_string {JSNumber} s.
Arguments V_object {JSNumber} ref.
Arguments mkObject {JSNumber} own proto.
Arguments own {JSNumber} j.
Arguments proto {JSNumber} j.
Arguments empty_object {JSNumber}.
Arguments get_own {JSNumber} props key.
Arguments set_own {JSNumber} props key v.
Arguments update {JSNumber} h ref o.
Arguments inherits_proto_accessor {JSNumber} fuel h p.
Arguments put {JSNumber} h ref key v.
Arguments parseYAMLValue {JSNumber} Number value.
Arguments mkParserState {JSNumber} heap stack indentLevels.
Arguments heap {JSNumber} p.
Arguments stack {JSNumber} p.
Arguments indentLevels {JSNumber} p.
Arguments process_line {JSNumber} Number st line.
Arguments parser_start {JSNumber}.
Arguments parse_lines {JSNumber} Number lines.
Arguments parseYAMLToJSON {JSNumber} Number yamlStr.

(** An engine for examples: its numbers are the whole numbers written in
    decimal digits, every other text converting to NaN. *)
Definition digits_Number (value : string) : option N :=
  if negb (value =? "")%string && string_forallb is_digit value
  then Some (digits_value value)
  else None.

(** *** Reading the line pattern without backtracking *)

(** The longest prefix of [s] in the class [cls], and the rest. *)
Fixpoint span (cls : ascii -> bool) (s : string) : string * string :=
  match s with
  | String c s' =>
      if cls c then let (m, rest) := span cls s' in (String c m, rest)
      else (EmptyString, s)
  | EmptyString => (EmptyString, EmptyString)
  end.

(** The string [s] does not go on with a character of [cls]. *)
Definition head_outside (cls : ascii -> bool) (s : string) : Prop :=
  match s with String c _ => cls c = false | EmptyString => True end.

(** The groups of a line read from left to right, each repetition taking all
    it can. *)
Definition line_groups (line : string) : option (string * string * string) :=
  let (indent, r1) := span is_space line in
  let (key, r2) := span is_key_char r1 in
  if (key =? "")%string then None
  else
    match r2 with
    | String ":" r3 =>
        let (_, r4) := span is_space r3 in
        if string_forallb is_line_char r4 then Some (indent, key, r4)
        else None
    | _ => None
    end.

Definition carriage_return : string := String "013" EmptyString.

Definition line_feed : string := String "010" EmptyString.

(** A key of the line pattern other than [__proto__]. *)
Definition plain_key (key : string) : bool :=
  negb (key =? "")%string && string_forallb is_key_char key
  && negb (key =? "__proto__")%string.

(** A value as it stands after the colon: not empty, without white space at
    either end and without a line terminator. *)
Definition plain_value (value : string) : bool :=
  match value with
  | String c _ => negb (is_space c)
  | EmptyString => false
  end
  && (trim_end value =? value)%string
  && string_forallb is_line_char value.

(** Every own property of every object is an object. *)
Definition only_sections {JSNumber : Type} (h : Heap JSNumber) : Prop :=
  Forall
    (fun o => Forall (fun kv => exists ref, snd kv = V_object ref) (own o))
    h.

(** The object [obj], registered with indentation [level], is on the stack
    above the objects [below] and under objects created after it; the
    objects created before it are [before]. *)
Definition section_open {JSNumber : Type} (obj level : nat)
    (below : list nat) (before : Heap JSNumber)
    (st : ParserState JSNumber) : Prop :=
  (exists above,
      stack st = (above ++ obj :: below)%list
      /\ Forall (fun a => obj < a) above)
  /\ getIndentLevel (indentLevels st) obj = level
  /\ obj < List.length (heap st)
  /\ firstn obj (heap st) = before.

(** The lines that the pattern matches have at least [level] characters of
    white space in front. *)
Definition indented_by (level : nat) (lines : list string) : Prop :=
  Forall
    (fun l =>
       forall ws key rest,
         line_pattern l = Some (ws, key, rest) -> level <= length ws)
    lines.

(** * Properties *)

#[local] Arguments in_range : simpl never.
#[local] Arguments isDigit : simpl never.
#[local] Arguments is_digit : simpl never.
#[local] Arguments is_alpha : simpl never.
#[local] Arguments is_alnum : simpl never.
#[local] Arguments is_space : simpl never.
#[local] Arguments char_in : simpl never.
#[local] Arguments is_local_char : simpl never.
#[local] Arguments is_domain_char : simpl never.
#[local] Arguments is_label_char : simpl never.
#[local] Arguments is_phone_delimiter : simpl never.
#[local] Arguments is_char : simpl never.
#[local] Arguments Ascii.eqb : simpl never.

(** ** Loops *)

Lemma while_loop_steps {S : Type} (cond : S -> bool) (body : S -> LoopStep S) :
  forall fuel s s',
    while_loop fuel cond body s = Some s' ->
    while_steps fuel cond body s = s'.
Proof.
  induction fuel as [|fuel IH]; intros s s' H; simpl in *.
  - discriminate.
  - destruct (cond s); [|congruence].
    destruct (body s) as [s1|s1]; [auto|congruence].
Qed.

(** A loop whose iterations keep an invariant and decrease a measure exits
    within that many iterations. *)
Lemma while_loop_terminates_inv {S : Type} (cond : S -> bool)
    (body : S -> LoopStep S) (measure : S -> nat) (Inv : S -> Prop) :
  (forall s s', Inv s -> cond s = true -> body s = Continue s' ->
                Inv s' /\ measure s' < measure s) ->
  forall fuel s, Inv s -> measure s < fuel ->
    exists s', while_loop fuel cond body s = Some s'.
Proof.
  intros Hdec.
  induction fuel as [|fuel IH]; intros s Hinv Hm; [lia|].
  simpl. destruct (cond s) eqn:Hc; [|eauto].
  destruct (body s) as [s1|s1] eqn:Hb; [|eauto].
  destruct (Hdec s s1 Hinv Hc Hb) as [Hinv' Hlt].
  apply IH; [assumption|lia].
Qed.

Lemma while_loop_terminates {S : Type} (cond : S -> bool)
    (body : S -> LoopStep S) (measure : S -> nat) :
  (forall s s', cond s = true -> body s = Continue s' ->
                measure s' < measure s) ->
  forall fuel s, measure s < fuel ->
    exists s', while_loop fuel cond body s = Some s'.
Proof.
  intros Hdec fuel s Hm.
  apply (while_loop_terminates_inv cond body measure (fun _ => True));
    auto.
Qed.

(** A loop whose body leaves the state as it is never exits. *)
Lemma while_loop_stuck {S : Type} (cond : S -> bool) (body : S -> LoopStep S)
    (s : S) :
  cond s = true -> body s = Continue s ->
  forall fuel, while_loop fuel cond body s = None.
Proof.
  intros Hc Hb. induction fuel as [|fuel IH]; simpl; [reflexivity|].
  now rewrite Hc, Hb.
Qed.

Lemma while_steps_stuck {S : Type} (cond : S -> bool) (body : S -> LoopStep S)
    (s : S) :
  body s = Continue s -> forall n, while_steps n cond body s = s.
Proof.
  intros Hb. induction n as [|n IH]; simpl; [reflexivity|].
  rewrite Hb. now destruct (cond s).
Qed.

Lemma while_steps_invariant {S : Type} (cond : S -> bool)
    (body : S -> LoopStep S) (Inv : S -> Prop) :
  (forall s s', Inv s -> cond s = true ->
                body s = Continue s' \/ body s = Break s' -> Inv s') ->
  forall n s, Inv s -> Inv (while_steps n cond body s).
Proof.
  intros Hstep. induction n as [|n IH]; intros s Hs; simpl; [assumption|].
  destruct (cond s) eqn:Hc; [|assumption].
  destruct (body s) as [s1|s1] eqn:Hb.
  - apply IH. eapply Hstep; eauto.
  - eapply Hstep; eauto.
Qed.

(** ** Strings *)

Lemma length_append (a b : string) :
  length (a ++ b) = length a + length b.
Proof. induction a; simpl; congruence. Qed.

Lemma append_nil_r (a : string) : (a ++ "")%string = a.
Proof. induction a; simpl; congruence. Qed.

Lemma append_assoc (a b c : string) :
  ((a ++ b) ++ c)%string = (a ++ (b ++ c))%string.
Proof. induction a; simpl; congruence. Qed.

Lemma length_drop (n : nat) (s : string) : length (drop n s) = length s - n.
Proof.
  revert s; induction n as [|n IH]; intros [|c s]; simpl; auto.
Qed.

Lemma substring_drop (n m : nat) (s : string) :
  substring n m s = substring 0 m (drop n s).
Proof.
  revert s; induction n as [|n IH]; intros s.
  - reflexivity.
  - destruct s as [|c s]; simpl.
    + destruct m; reflexivity.
    + apply IH.
Qed.

Lemma substring_0_append (a b : string) :
  substring 0 (length a) (a ++ b) = a.
Proof.
  induction a as [|c a IH]; simpl.
  - destruct b; reflexivity.
  - now rewrite IH.
Qed.

Lemma length_substring (n m : nat) (s : string) :
  length (substring n m s) = Nat.min m (length s - n).
Proof.
  revert n m; induction s as [|c s IH]; intros n m.
  - destruct n, m; reflexivity.
  - destruct n as [|n].
    + destruct m as [|m]; simpl; [reflexivity|]. now rewrite IH, Nat.sub_0_r.
    + simpl. apply IH.
Qed.

Lemma drop_drop (n m : nat) (s : string) : drop n (drop m s) = drop (m + n) s.
Proof.
  revert s; induction m as [|m IH]; intros s; simpl; [reflexivity|].
  destruct s as [|c s]; [destruct n; reflexivity|apply IH].
Qed.

Lemma get_drop (n i : nat) (s : string) : get i (drop n s) = get (n + i) s.
Proof.
  revert s; induction n as [|n IH]; intros s; simpl; [reflexivity|].
  destruct s as [|c s]; [destruct i; reflexivity|apply IH].
Qed.

Lemma get_none (i : nat) (s : string) : get i s = None <-> length s <= i.
Proof.
  revert i; induction s as [|c s IH]; intros i; simpl.
  - split; [lia|reflexivity].
  - destruct i as [|i]; [split; [discriminate|lia]|].
    rewrite IH. lia.
Qed.

(** The suffix at an offset inside the string starts with the character at
    that offset. *)
Lemma drop_get (i : nat) (s : string) (c : ascii) :
  get i s = Some c -> drop i s = String c (drop (S i) s).
Proof.
  revert s; induction i as [|i IH]; intros [|d s] H; simpl in *;
    try discriminate.
  - congruence.
  - now apply IH.
Qed.

Lemma substring_S (c : ascii) (s : string) (m : nat) :
  substring 0 (S m) (String c s) = String c (substring 0 m s).
Proof. reflexivity. Qed.

Lemma string_forallb_append (p : ascii -> bool) (a b : string) :
  string_forallb p (a ++ b) = string_forallb p a && string_forallb p b.
Proof.
  induction a as [|c a IH]; simpl; [reflexivity|].
  now rewrite IH, andb_assoc.
Qed.

(** A string occurs at the offset given by what stands before it. *)
Lemma substring_middle (pre v post : string) :
  substring (length pre) (length v) (pre ++ v ++ post) = v.
Proof.
  rewrite substring_drop.
  replace (drop (length pre) (pre ++ v ++ post)) with (v ++ post)%string.
  - apply substring_0_append.
  - induction pre; simpl; auto.
Qed.

(** ** The number scan *)

Lemma find_number_start_bounds (n : nat) (t : string) (i : nat) :
  i <= find_number_start n t i
  /\ find_number_start n t i <= Nat.max i (length t).
Proof.
  revert i; induction n as [|n IH]; intros i; cbn [find_number_start]; [lia|].
  destruct (i <? length t) eqn:Hi; [|lia].
  apply Nat.ltb_lt in Hi.
  destruct (charAt t i) as [c|].
  - destruct (isDigit (Some c) || (c =? ".")%char); [lia|].
    specialize (IH (S i)); lia.
  - specialize (IH (S i)); lia.
Qed.

Lemma scan_number_bounds (n : nat) (t : string) (i : nat) (h : bool) :
  i <= scan_number n t i h /\ scan_number n t i h <= Nat.max i (length t).
Proof.
  revert i h; induction n as [|n IH]; intros i h; cbn [scan_number]; [lia|].
  destruct (i <? length t) eqn:Hi; [|lia].
  apply Nat.ltb_lt in Hi.
  destruct (charAt t i) as [c|]; [|lia].
  destruct (isDigit (Some c)).
  - specialize (IH (S i) h); lia.
  - destruct ((c =? ".")%char && negb h); [|lia].
    match goal with |- context [if ?b then _ else _] => destruct b end;
      [|lia].
    specialize (IH (S i) true); lia.
Qed.

Lemma number_candidate_bounds (t : string) (i start stop : nat) :
  number_candidate t i = (start, stop) ->
  i <= start /\ start <= stop /\ stop <= Nat.max i (length t).
Proof.
  unfold number_candidate. intros H. inversion H; subst; clear H.
  pose proof (find_number_start_bounds (length t - i) t i).
  pose proof (scan_number_bounds
                (length t - find_number_start (length t - i) t i) t
                (find_number_start (length t - i) t i) false).
  lia.
Qed.

(** The scan by offsets is the scan of the rest of the text. *)
Lemma scan_number_suffix (n : nat) (t : string) (i : nat) (h : bool) :
  length t - i <= n ->
  scan_number n t i h = i + scan_suffix (prev_char t i) (drop i t) h.
Proof.
  revert i h; induction n as [|n IH]; intros i h Hn.
  - simpl. assert (Hd : drop i t = EmptyString).
    { assert (Hl := length_drop i t).
      destruct (drop i t); [reflexivity|simpl in Hl; lia]. }
    rewrite Hd. simpl. lia.
  - cbn [scan_number]. destruct (i <? length t) eqn:Hi.
    + apply Nat.ltb_lt in Hi. unfold charAt.
      destruct (get i t) as [c|] eqn:Hg.
      * rewrite (drop_get _ _ _ Hg). cbn [scan_suffix].
        assert (Hp : prev_char t (S i) = Some c).
        { unfold prev_char, charAt. simpl. now rewrite Nat.sub_0_r. }
        unfold is_digit.
        destruct (isDigit (Some c)).
        { rewrite IH by lia. rewrite Hp. lia. }
        destruct ((c =? ".")%char && negb h); [|lia].
        rewrite get_drop, Nat.add_0_r.
        replace (i + 1) with (S i) by lia.
        assert (Hc : (0 <? i) && isDigit (if i =? 0 then None else get (i - 1) t)
                     && (i <? length t - 1) && isDigit (get (S i) t)
                     = isDigit (prev_char t i) && isDigit (get (S i) t)).
        { unfold prev_char, charAt. destruct i as [|i]; [reflexivity|].
          simpl (0 <? S i). simpl (S i =? 0). rewrite andb_true_l.
          destruct (get (S (S i)) t) as [d|] eqn:Hd.
          - assert (~ length t <= S (S i))
              by (rewrite <- get_none; congruence).
            replace (S i <? length t - 1) with true
              by (symmetry; apply Nat.ltb_lt; lia).
            now rewrite andb_true_r.
          - simpl. now rewrite !andb_false_r. }
        rewrite Hc.
        destruct (isDigit (prev_char t i) && isDigit (get (S i) t)); [|lia].
        rewrite IH by lia. rewrite Hp. lia.
      * apply get_none in Hg. lia.
    + apply Nat.ltb_ge in Hi.
      assert (Hd : drop i t = EmptyString).
      { assert (Hl := length_drop i t).
        destruct (drop i t); [reflexivity|simpl in Hl; lia]. }
      rewrite Hd. simpl. lia.
Qed.

(** ** Digits and decimal literals *)

Lemma digit_is_plain (c : ascii) :
  is_digit c = true ->
  is_space c = false /\ (c =? "-")%char = false /\ (c =? "+")%char = false
  /\ (c =? ".")%char = false /\ c <> "I"%char.
Proof.
  destruct c as [[] [] [] [] [] [] [] []]; vm_compute; intros H;
    try discriminate H; repeat split; discriminate.
Qed.

Lemma take_digits_split (s d r : string) :
  take_digits s = (d, r) ->
  s = (d ++ r)%string /\ string_forallb is_digit d = true
  /\ isDigit (get 0 r) = false.
Proof.
  revert d r; induction s as [|c s IH]; intros d r H; simpl in H.
  - inversion H; subst. auto.
  - destruct (is_digit c) eqn:Hc.
    + destruct (take_digits s) as [ds rest]. inversion H; subst; clear H.
      destruct (IH ds r eq_refl) as (-> & Hd & Hr).
      simpl. rewrite Hc, Hd. auto.
    + inversion H; subst; clear H. simpl. auto.
Qed.

Lemma take_digits_all (d : string) :
  string_forallb is_digit d = true -> take_digits d = (d, EmptyString).
Proof.
  induction d as [|c d IH]; simpl; intros H; [reflexivity|].
  apply andb_true_iff in H as [Hc Hd]. now rewrite Hc, (IH Hd).
Qed.

Lemma take_digits_nonempty (s : string) :
  isDigit (get 0 s) = true -> fst (take_digits s) <> EmptyString.
Proof.
  destruct s as [|c s]; simpl; [discriminate|]. unfold is_digit.
  intros ->. destruct (take_digits s). discriminate.
Qed.

Lemma scan_suffix_decimal_seen (prev : option ascii) (s : string) :
  scan_suffix prev s true = length (fst (take_digits s)).
Proof.
  revert prev; induction s as [|c s IH]; intros prev; simpl; [reflexivity|].
  destruct (is_digit c).
  - rewrite IH. now destruct (take_digits s).
  - now rewrite andb_false_r.
Qed.

Lemma is_decimal_literal_digit (c : ascii) (s : string) :
  is_digit c = true ->
  s = EmptyString \/ is_decimal_literal s = true ->
  is_decimal_literal (String c s) = true.
Proof.
  intros Hc [->|Hs]; unfold is_decimal_literal in *; simpl; rewrite Hc.
  - reflexivity.
  - destruct (take_digits s) as [ds rest]. destruct rest; [reflexivity|].
    assumption.
Qed.

(** What the scan consumes is a decimal literal. *)
Lemma scan_suffix_literal (s : string) :
  forall prev k,
    scan_suffix prev s false = k -> 0 < k ->
    is_decimal_literal (substring 0 k s) = true.
Proof.
  induction s as [|c s IH]; intros prev k Hk Hpos; simpl in Hk; [lia|].
  destruct (is_digit c) eqn:Hc.
  - subst k. rewrite substring_S. apply is_decimal_literal_digit; [assumption|].
    destruct (scan_suffix (Some c) s false) as [|k'] eqn:Hk'.
    + left. destruct s; reflexivity.
    + right. apply (IH (Some c)); [assumption|lia].
  - rewrite andb_true_r in Hk.
    destruct (c =? ".")%char eqn:Hdot; [|lia].
    destruct (isDigit prev && isDigit (get 0 s)) eqn:Hfl; [|lia].
    apply andb_true_iff in Hfl as [_ Hnext].
    apply Ascii.eqb_eq in Hdot. subst c k.
    rewrite scan_suffix_decimal_seen, substring_S.
    destruct (take_digits s) as [d r] eqn:Hd.
    pose proof (take_digits_nonempty s Hnext) as Hne. rewrite Hd in Hne.
    destruct (take_digits_split _ _ _ Hd) as (-> & Hall & _).
    simpl fst in *. rewrite substring_0_append.
    unfold is_decimal_literal. simpl. rewrite (take_digits_all d Hall).
    destruct d; [congruence|reflexivity].
Qed.

Lemma prefix_Infinity (c : ascii) (s : string) :
  c <> "I"%char -> prefix "Infinity" (String c s) = false.
Proof.
  intros Hc.
  change (prefix "Infinity" (String c s))
    with (if ascii_dec "I" c then prefix "nfinity" s else false).
  destruct (ascii_dec "I" c); [congruence|reflexivity].
Qed.

(** [parseFloat] reads a decimal literal as a non-negative decimal. *)
Lemma parseFloat_decimal_literal (s : string) :
  is_decimal_literal s = true ->
  exists m e, parseFloat s = PN_Decimal false m e.
Proof.
  unfold is_decimal_literal. intros H.
  assert (Hplain : take_sign (trim_start s) = (false, s)
                   /\ prefix "Infinity" s = false).
  { destruct s as [|c s]; [discriminate H|].
    destruct (is_digit c) eqn:Hc.
    - destruct (digit_is_plain c Hc) as (Hsp & Hm & Hp & _ & HI).
      simpl. rewrite Hsp. simpl. rewrite Hm, Hp.
      split; [reflexivity|]. now apply prefix_Infinity.
    - simpl in H. rewrite Hc in H. destruct (take_digits s) as [fp r'].
      apply andb_true_iff in H as [H _]. apply andb_true_iff in H as [H _].
      apply Ascii.eqb_eq in H. subst c. split; reflexivity. }
  destruct Hplain as [Hsign Hinf].
  unfold parseFloat. rewrite Hsign, Hinf.
  destruct (take_digits s) as [ip rest].
  destruct rest as [|c r].
  - simpl. rewrite append_nil_r. destruct ip; [discriminate H|]. eauto.
  - unfold take_fraction. destruct (take_digits r) as [fp r'].
    apply andb_true_iff in H as [H _]. apply andb_true_iff in H as [Hdot Hfp].
    rewrite Hdot.
    destruct (ip ++ fp)%string eqn:Happ; [|eauto].
    destruct ip; [|discriminate Happ]. simpl in Happ. subst fp.
    discriminate Hfp.
Qed.

(** A candidate the scan advanced past is a decimal literal. *)
Lemma number_candidate_literal (t : string) (i start stop : nat) :
  number_candidate t i = (start, stop) -> start < stop ->
  is_decimal_literal (js_substring t start stop) = true.
Proof.
  unfold number_candidate. intros H Hlt. injection H as Hs Hstop.
  rewrite Hs in Hstop.
  rewrite scan_number_suffix in Hstop by lia.
  unfold js_substring.
  replace (Nat.min start stop) with start by lia.
  replace (Nat.max start stop - start)
    with (scan_suffix (prev_char t start) (drop start t) false) by lia.
  rewrite substring_drop.
  eapply scan_suffix_literal; [reflexivity|lia].
Qed.

(** ** extractNumbers *)

Lemma appends_refl (P : Entity -> Prop) (input : IntentResult) :
  appends P input input.
Proof.
  repeat split. exists []. split; [now rewrite app_nil_r|constructor].
Qed.

Lemma appends_push (P : Entity -> Prop) (input out : IntentResult)
    (e : Entity) :
  appends P input out -> P e -> appends P input (push_entity out e).
Proof.
  intros (Ht & Hk & new & Hn & HP) He. unfold appends, push_entity; simpl.
  repeat split; try assumption.
  exists (new ++ [e])%list. split.
  - now rewrite Hn, app_assoc.
  - apply Forall_app. auto.
Qed.

Lemma extractNumbers_body_appends (input : IntentResult)
    (s s' : nat * IntentResult) :
  appends (entity_in_text (text input)) input (snd s) ->
  extractNumbers_cond s = true ->
  extractNumbers_body s = Continue s' \/ extractNumbers_body s = Break s' ->
  appends (entity_in_text (text input)) input (snd s').
Proof.
  destruct s as [i st]. unfold extractNumbers_cond, extractNumbers_body.
  simpl fst; simpl snd. intros Hinv Hc Hb. apply Nat.ltb_lt in Hc.
  destruct (number_candidate (text st) i) as [start stop] eqn:Hcand.
  destruct (number_candidate_bounds _ _ _ _ Hcand) as (H1 & H2 & H3).
  destruct (length (text st) <=? start).
  { destruct Hb as [Hb|Hb]; inversion Hb; subst; assumption. }
  destruct (start <? stop) eqn:Hlt.
  - apply Nat.ltb_lt in Hlt.
    destruct (isNumber (js_substring (text st) start stop)).
    + assert (Hs' : snd s' = push_entity st
                {| entity_type := E_number;
                   entity_value := js_substring (text st) start stop;
                   entity_start := start; entity_end := stop |})
        by (destruct Hb as [Hb|Hb]; inversion Hb; reflexivity).
      rewrite Hs'. apply appends_push; [assumption|].
      destruct Hinv as (Ht & _). rewrite <- Ht.
      unfold entity_in_text; simpl. repeat split; [lia|lia].
    + destruct Hb as [Hb|Hb]; inversion Hb; subst; assumption.
  - destruct Hb as [Hb|Hb]; inversion Hb; subst; assumption.
Qed.

(** C2 (the code diverges on the second text): on
    ["price is 12.50 dollars"] the number extractor returns exactly one
    entity, the number ["12.50"] at offsets 9 to 14; on
    ["end of sentence. Next"] it never returns, because the period at
    offset 15 stops the scan without advancing it; it appends no entity on
    the way. *)
Theorem extractNumbers_price_and_sentence :
  (forall (tks : list Token) (k : nat),
     extractNumbers (2 + k)
       {| text := "price is 12.50 dollars"; tokens := tks; entities := [] |}
     = Some {| text := "price is 12.50 dollars"; tokens := tks;
               entities := [mkEntity E_number "12.50" 9 14] |})
  /\ (forall (tks : list Token) (es : list Entity) (fuel : nat),
        extractNumbers fuel
          {| text := "end of sentence. Next"; tokens := tks; entities := es |}
        = None)
  /\ (forall (tks : list Token) (es : list Entity) (n : nat),
        while_steps (S n) extractNumbers_cond extractNumbers_body
          (0, {| text := "end of sentence. Next"; tokens := tks;
                 entities := es |})
        = (15, {| text := "end of sentence. Next"; tokens := tks;
                  entities := es |})).
Proof.
  split; [|split].
  - intros tks k. vm_compute. reflexivity.
  - intros tks es fuel. unfold extractNumbers.
    destruct fuel as [|fuel]; [reflexivity|].
    set (input := {| text := "end of sentence. Next"; tokens := tks;
                     entities := es |}).
    assert (Hb : extractNumbers_body (0, input) = Continue (15, input))
      by reflexivity.
    cbn [while_loop].
    replace (extractNumbers_cond (0, input)) with true by reflexivity.
    rewrite Hb. rewrite while_loop_stuck; reflexivity.
  - intros tks es n.
    set (input := {| text := "end of sentence. Next"; tokens := tks;
                     entities := es |}).
    assert (Hb : extractNumbers_body (0, input) = Continue (15, input))
      by reflexivity.
    cbn [while_steps].
    replace (extractNumbers_cond (0, input)) with true by reflexivity.
    rewrite Hb. apply while_steps_stuck. reflexivity.
Qed.

(** C10, counterexample: the 310-digit candidate ["1000...0"] is collected
    by the first iteration, [isNumber] rejects it (it parses to Infinity),
    and the extractor returns without reporting it. *)
Lemma huge_candidate_is_discarded :
  number_candidate huge_number 0 = (0, 310)
  /\ isNumber (js_substring huge_number 0 310) = false
  /\ extractNumbers 2 (initial huge_number) = Some (initial huge_number).
Proof. vm_compute. repeat split. Qed.

(** C10, amended: a candidate the scan advanced past has the form [digits],
    [digits.digits] or [.digits], so [parseFloat] never yields NaN on it; the
    validation rejects it only when its value does not round to a finite
    double. *)
Theorem collected_candidate_parses :
  forall (t : string) (i start stop : nat),
    number_candidate t i = (start, stop) -> start < stop ->
    is_decimal_literal (js_substring t start stop) = true
    /\ exists m e,
         parseFloat (js_substring t start stop) = PN_Decimal false m e
         /\ isNumber (js_substring t start stop) = rounds_to_finite m e.
Proof.
  intros t i start stop Hc Hlt.
  pose proof (number_candidate_literal t i start stop Hc Hlt) as Hlit.
  split; [assumption|].
  destruct (parseFloat_decimal_literal _ Hlit) as (m & e & Hp).
  exists m, e. split; [assumption|].
  unfold isNumber. rewrite Hp. reflexivity.
Qed.

Lemma collected_candidate_parses_witness :
  number_candidate "price is 12.50 dollars" 0 = (9, 14)
  /\ is_decimal_literal "12.50" = true
  /\ isNumber "12.50" = true.
Proof.
  assert (Hc : number_candidate "price is 12.50 dollars" 0 = (9, 14))
    by reflexivity.
  assert (Hlt : 9 < 14) by lia.
  destruct (collected_candidate_parses _ _ _ _ Hc Hlt) as (Hlit & _).
  split; [exact Hc|split; [exact Hlit|reflexivity]].
Defined.

(** ** When the number loop exits *)

Lemma charAt_inside (t : string) (p : nat) (c : ascii) :
  charAt t p = Some c -> p < length t.
Proof.
  unfold charAt. intros H.
  destruct (Nat.lt_ge_cases p (length t)) as [Hlt|Hge]; [assumption|].
  apply get_none in Hge. congruence.
Qed.

Lemma find_number_start_stops (n : nat) (t : string) (i p : nat) :
  charAt t p = Some "."%char -> i <= p -> find_number_start n t i <= p.
Proof.
  intros Hp. revert i. induction n as [|n IH]; intros i Hi;
    cbn [find_number_start]; [assumption|].
  destruct (i <? length t); [|assumption].
  destruct (Nat.eq_dec i p) as [->|Hne].
  - rewrite Hp. change ("." =? ".")%char with true.
    now rewrite orb_true_r.
  - destruct (charAt t i) as [c|]; [|apply IH; lia].
    destruct (isDigit (Some c) || (c =? ".")%char); [assumption|apply IH; lia].
Qed.

(** Where the first inner loop stops inside the text, there is a digit or a
    ['.']. *)
Lemma find_number_start_found (n : nat) (t : string) (i : nat) :
  length t - i <= n ->
  find_number_start n t i < length t ->
  exists c, charAt t (find_number_start n t i) = Some c
            /\ (isDigit (Some c) || (c =? ".")%char) = true.
Proof.
  revert i. induction n as [|n IH]; intros i Hn; cbn [find_number_start].
  - lia.
  - destruct (i <? length t) eqn:Hi; [|apply Nat.ltb_ge in Hi; lia].
    destruct (charAt t i) as [c|] eqn:Hc.
    + destruct (isDigit (Some c) || (c =? ".")%char) eqn:Hd.
      * intros _. eauto.
      * apply IH. lia.
    + apply IH. lia.
Qed.

Lemma scan_number_stops (n : nat) (t : string) (p : nat) :
  charAt t p = Some "."%char -> between_digits t p = false ->
  forall i h, i <= p -> scan_number n t i h <= p.
Proof.
  intros Hp Hb. induction n as [|n IH]; intros i h Hi; cbn [scan_number];
    [assumption|].
  destruct (i <? length t); [|assumption].
  destruct (Nat.eq_dec i p) as [->|Hne].
  - rewrite Hp. change (isDigit (Some "."%char)) with false.
    change ("." =? ".")%char with true. cbn [andb].
    destruct (negb h); [|lia].
    unfold between_digits in Hb. rewrite Hb. lia.
  - destruct (charAt t i) as [c|]; [|assumption].
    destruct (isDigit (Some c)); [apply IH; lia|].
    destruct ((c =? ".")%char && negb h); [|assumption].
    match goal with |- context [if ?b then _ else _] => destruct b end;
      [apply IH; lia|assumption].
Qed.

Lemma scan_number_advances (n : nat) (t : string) (i : nat) (c : ascii) :
  charAt t i = Some c ->
  isDigit (Some c) = true \/ (c = "."%char /\ between_digits t i = true) ->
  i < scan_number (S n) t i false.
Proof.
  intros Hc Hd. pose proof (charAt_inside _ _ _ Hc) as Hlt.
  cbn [scan_number]. replace (i <? length t) with true
    by (symmetry; now apply Nat.ltb_lt).
  rewrite Hc. destruct Hd as [Hd|[-> Hb]].
  - rewrite Hd. pose proof (scan_number_bounds n t (S i) false). lia.
  - change (isDigit (Some "."%char)) with false.
    change ("." =? ".")%char with true. cbn [andb negb].
    unfold between_digits in Hb. rewrite Hb.
    pose proof (scan_number_bounds n t (S i) true). lia.
Qed.

(** The state of the number loop never passes a ['.'] that does not stand
    between two digits. *)
Lemma extractNumbers_body_blocked (p : nat) (i : nat) (st : IntentResult) :
  charAt (text st) p = Some "."%char -> between_digits (text st) p = false ->
  i <= p ->
  exists i' st',
    extractNumbers_body (i, st) = Continue (i', st')
    /\ i' <= p /\ text st' = text st.
Proof.
  intros Hp Hb Hi. unfold extractNumbers_body, number_candidate.
  pose proof (find_number_start_stops (length (text st) - i) _ _ _ Hp Hi)
    as Hstart.
  set (start := find_number_start _ _ _) in *.
  pose proof (scan_number_stops (length (text st) - start) _ _ Hp Hb
                start false Hstart) as Hstop.
  set (stop := scan_number _ _ _ _) in *.
  pose proof (charAt_inside _ _ _ Hp) as Hlt.
  replace (length (text st) <=? start) with false
    by (symmetry; apply Nat.leb_gt; lia).
  destruct (start <? stop); [|eauto].
  destruct (isNumber (js_substring (text st) start stop)); eauto.
Qed.

(** The number extractor never returns on a text with a ['.'] that does not
    stand between two digits. *)
Lemma extractNumbers_diverges (input : IntentResult) (p : nat) :
  charAt (text input) p = Some "."%char ->
  between_digits (text input) p = false ->
  forall fuel, extractNumbers fuel input = None.
Proof.
  intros Hp Hb fuel. unfold extractNumbers.
  assert (H : forall i st, i <= p -> text st = text input ->
                while_loop fuel extractNumbers_cond extractNumbers_body (i, st)
                = None).
  { induction fuel as [|fuel IH]; intros i st Hi Ht; [reflexivity|].
    cbn [while_loop]. unfold extractNumbers_cond at 1. cbn [fst snd].
    rewrite <- Ht in Hp, Hb. pose proof (charAt_inside _ _ _ Hp) as Hlt.
    replace (i <? length (text st)) with true
      by (symmetry; apply Nat.ltb_lt; lia).
    destruct (extractNumbers_body_blocked p i st Hp Hb Hi)
      as (i' & st' & -> & Hi' & Ht').
    apply IH; [assumption|congruence]. }
  rewrite H; [reflexivity|lia|reflexivity].
Qed.

(** It returns, within [text.length + 1] iterations, on every other text. *)
Lemma extractNumbers_terminates (input : IntentResult) (fuel : nat) :
  periods_between_digits (text input) -> length (text input) < fuel ->
  exists out, extractNumbers fuel input = Some out.
Proof.
  intros Hall Hfuel. unfold extractNumbers.
  destruct (while_loop_terminates_inv extractNumbers_cond extractNumbers_body
              (fun s => length (text (snd s)) - fst s)
              (fun s => text (snd s) = text input)) with
    (fuel := fuel) (s := (0, input)) as [s' Hs'].
  - intros [i st] s1 Ht Hc Hbody. cbn [fst snd] in *.
    unfold extractNumbers_cond in Hc. cbn [fst snd] in Hc.
    apply Nat.ltb_lt in Hc.
    unfold extractNumbers_body in Hbody.
    destruct (number_candidate (text st) i) as [start stop] eqn:Hcand.
    destruct (number_candidate_bounds _ _ _ _ Hcand) as (H1 & H2 & H3).
    destruct (length (text st) <=? start) eqn:Hbreak; [discriminate|].
    apply Nat.leb_gt in Hbreak.
    assert (Hadv : start < stop).
    { unfold number_candidate in Hcand. injection Hcand as Hs Hstop.
      rewrite Hs in Hstop.
      destruct (find_number_start_found (length (text st) - i) (text st) i)
        as (c & Hc1 & Hc2); [lia|lia|].
      rewrite Hs in Hc1.
      destruct (length (text st) - start) as [|n] eqn:Hn; [lia|].
      rewrite <- Hstop. apply (scan_number_advances n _ _ c Hc1).
      apply orb_true_iff in Hc2 as [Hd|Hd]; [now left|right].
      apply Ascii.eqb_eq in Hd. subst c. split; [reflexivity|].
      rewrite Ht in *. now apply Hall. }
    assert (Hs1 : fst s1 = stop /\ text (snd s1) = text st).
    { destruct (start <? stop);
        [destruct (isNumber (js_substring (text st) start stop))|];
        inversion Hbody; subst; auto. }
    destruct Hs1 as [-> ->]. split; [assumption|lia].
  - reflexivity.
  - cbn [fst snd]. lia.
  - rewrite Hs'. simpl. eauto.
Qed.

(** ** The email pattern *)

Lemma consumes_end : consumes match_end (fun a => a = EmptyString).
Proof.
  intros s n H. inversion H; subst. exists EmptyString, s. auto.
Qed.

Lemma consumes_one (cls : ascii -> bool) (k : Matcher) (P : string -> Prop) :
  consumes k P ->
  consumes (match_one cls k)
    (fun a => exists c a', a = String c a' /\ cls c = true /\ P a').
Proof.
  intros Hk s n H. destruct s as [|c s]; simpl in H; [discriminate|].
  destruct (cls c) eqn:Hc; [|discriminate].
  destruct (k s) as [m|] eqn:Hm; [|discriminate].
  inversion H; subst; clear H.
  destruct (Hk s m Hm) as (a & b & -> & <- & HP).
  exists (String c a), b. simpl. eauto 10.
Qed.

Lemma consumes_star (cls : ascii -> bool) (k : Matcher) (P : string -> Prop) :
  consumes k P ->
  consumes (match_star cls k)
    (fun a => exists x y, a = (x ++ y)%string
                          /\ string_forallb cls x = true /\ P y).
Proof.
  intros Hk s. induction s as [|c s IH]; intros n H; simpl in H.
  - destruct (Hk _ _ H) as (a & b & Hab & Hn & HP).
    exists a, b. repeat split; auto. exists EmptyString, a. auto.
  - assert (Hfall : k (String c s) = Some n ->
              exists a b, String c s = (a ++ b)%string /\ length a = n
                /\ exists x y, a = (x ++ y)%string
                               /\ string_forallb cls x = true /\ P y).
    { intros Hk'. destruct (Hk _ _ Hk') as (a & b & Hab & Hn & HP).
      exists a, b. repeat split; auto. exists EmptyString, a. auto. }
    destruct (cls c) eqn:Hc; [|auto].
    destruct (match_star cls k s) as [m|] eqn:Hm; [|auto].
    inversion H; subst; clear H.
    destruct (IH m eq_refl) as (a & b & -> & <- & x & y & -> & Hx & HP).
    exists (String c (x ++ y)), b. simpl. repeat split.
    exists (String c x), y. simpl. rewrite Hc, Hx. auto.
Qed.

Lemma is_char_eq (d c : ascii) : is_char d c = true -> c = d.
Proof. unfold is_char. apply Ascii.eqb_eq. Qed.

(** A match of the email pattern consumes a string of the email shape. *)
Lemma emailPattern_consumes :
  consumes emailPattern (fun a => email_shape a /\ 0 < length a).
Proof.
  intros s n H.
  pose proof
    (consumes_one is_local_char _ _
       (consumes_star is_local_char _ _
          (consumes_one (is_char "@") _ _
             (consumes_one is_domain_char _ _
                (consumes_star is_domain_char _ _
                   (consumes_one (is_char ".") _ _
                      (consumes_one is_alpha _ _
                         (consumes_one is_alpha _ _
                            (consumes_star is_alpha _ _ consumes_end)))))))))
    as Hall.
  destruct (Hall s n H) as (a & b & Hs & Hn & Ha).
  exists a, b. split; [assumption|]. split; [assumption|].
  destruct Ha as (c1 & a1 & -> & Hc1 & x1 & y1 & -> & Hx1 & Hy1).
  destruct Hy1 as (at_ & a2 & -> & Hat & c2 & a3 & -> & Hc2 & Ha3).
  destruct Ha3 as (x2 & y2 & -> & Hx2 & dot & a4 & -> & Hdot & Ha4).
  destruct Ha4 as (t1 & a5 & -> & Ht1 & t2 & a6 & -> & Ht2 & Ha6).
  destruct Ha6 as (x3 & y3 & -> & Hx3 & ->).
  apply is_char_eq in Hat, Hdot. subst at_ dot.
  split; [|simpl; lia].
  exists (String c1 x1), (String c2 x2), (String t1 (String t2 x3)).
  repeat split.
  - simpl. now rewrite append_nil_r.
  - discriminate.
  - simpl. now rewrite Hc1, Hx1.
  - discriminate.
  - simpl. now rewrite Hc2, Hx2.
  - simpl. now rewrite Ht1, Ht2, Hx3.
  - simpl. lia.
Qed.

Lemma regex_search_found (m : Matcher) (s : string) :
  forall i index len,
    regex_search m s i = Some (index, len) ->
    exists j, index = i + j /\ j <= length s /\ m (drop j s) = Some len.
Proof.
  induction s as [|c s IH]; intros i index len H; simpl in H.
  - destruct (m EmptyString) as [l|] eqn:Hm; [|discriminate].
    inversion H; subst. exists 0. simpl. auto with arith.
  - destruct (m (String c s)) as [l|] eqn:Hm.
    + inversion H; subst. exists 0. simpl. repeat split; [lia|lia|assumption].
    + destruct (IH _ _ _ H) as (j & -> & Hj & Hd).
      exists (S j). simpl. repeat split; [lia|lia|assumption].
Qed.

Lemma regex_exec_found (m : Matcher) (t : string) (lastIndex index len : nat) :
  regex_exec m t lastIndex = Some (index, len) ->
  lastIndex <= index /\ index <= length t /\ m (drop index t) = Some len.
Proof.
  unfold regex_exec. destruct (length t <? lastIndex) eqn:Hl; [discriminate|].
  apply Nat.ltb_ge in Hl. intros H.
  destruct (regex_search_found _ _ _ _ _ H) as (j & -> & Hj & Hm).
  rewrite length_drop in Hj. rewrite drop_drop in Hm.
  repeat split; [lia|lia|assumption].
Qed.

(** What [exec] returns for the email pattern: a non-empty match inside the
    text, whose text has the email shape. *)
Lemma emailPattern_exec (t : string) (lastIndex index len : nat) :
  regex_exec emailPattern t lastIndex = Some (index, len) ->
  lastIndex <= index /\ 0 < len /\ index + len <= length t
  /\ length (js_substring t index (index + len)) = len
  /\ email_shape (js_substring t index (index + len)).
Proof.
  intros H. destruct (regex_exec_found _ _ _ _ _ H) as (Hle & Hidx & Hm).
  destruct (emailPattern_consumes _ _ Hm) as (a & b & Hab & Hn & Hshape & Hpos).
  assert (Hlen : length (drop index t) = len + length b)
    by (rewrite Hab, length_append; lia).
  rewrite length_drop in Hlen.
  assert (Hsub : js_substring t index (index + len) = a).
  { unfold js_substring.
    replace (Nat.min index (index + len)) with index by lia.
    replace (Nat.max index (index + len) - index) with len by lia.
    rewrite substring_drop, Hab, <- Hn. apply substring_0_append. }
  rewrite Hsub. repeat split; try lia; assumption.
Qed.

(** ** extractEmails *)

Lemma appends_weaken (P Q : Entity -> Prop) (input out : IntentResult) :
  (forall e, P e -> Q e) -> appends P input out -> appends Q input out.
Proof.
  intros HPQ (Ht & Hk & new & Hn & HP). repeat split; try assumption.
  exists new. split; [assumption|]. eapply Forall_impl; eauto.
Qed.

Lemma extractEmails_body_next (lastIndex : nat) (input : IntentResult)
    (s' : nat * IntentResult) :
  extractEmails_body (lastIndex, input) = Continue s' ->
  lastIndex < fst s' /\ fst s' <= length (text input)
  /\ exists e, snd s' = push_entity input e /\ email_entity (text input) e.
Proof.
  unfold extractEmails_body.
  destruct (regex_exec emailPattern (text input) lastIndex)
    as [[index len]|] eqn:Hx; [|discriminate].
  destruct (emailPattern_exec _ _ _ _ Hx) as (Hle & Hpos & Hend & Hlen & Hsh).
  intros H. inversion H; subst; clear H. simpl fst; simpl snd.
  replace (index =? index + len) with false
    by (symmetry; apply Nat.eqb_neq; lia).
  repeat split; try lia.
  eexists. split; [reflexivity|].
  unfold email_entity, entity_in_text; simpl. rewrite Hlen.
  repeat split; try lia; assumption.
Qed.

Lemma extractEmails_body_break (lastIndex : nat) (input : IntentResult)
    (s' : nat * IntentResult) :
  extractEmails_body (lastIndex, input) = Break s' -> snd s' = input.
Proof.
  unfold extractEmails_body.
  destruct (regex_exec emailPattern (text input) lastIndex) as [[index len]|];
    intros H; inversion H; reflexivity.
Qed.

Lemma extractEmails_steps_append (input : IntentResult) (n : nat) :
  appends (email_entity (text input)) input
    (snd (while_steps n (fun _ => true) extractEmails_body (0, input))).
Proof.
  apply (while_steps_invariant (fun _ => true) extractEmails_body
           (fun s => appends (email_entity (text input)) input (snd s))).
  - intros [lastIndex st] s' Hinv _ [Hb|Hb]; simpl snd in *.
    + destruct (extractEmails_body_next _ _ _ Hb) as (_ & _ & e & -> & He).
      apply appends_push; [assumption|].
      destruct Hinv as (Ht & _). now rewrite <- Ht.
    + now rewrite (extractEmails_body_break _ _ _ Hb).
  - apply appends_refl.
Qed.

(** The email loop exits within [text.length + 2] iterations: each match
    moves [lastIndex] forward. *)
Lemma extractEmails_terminates (input : IntentResult) (fuel : nat) :
  S (length (text input)) < fuel ->
  exists out, extractEmails fuel input = Some out.
Proof.
  intros Hfuel. unfold extractEmails.
  destruct (while_loop_terminates (fun _ => true) extractEmails_body
              (fun s => S (length (text (snd s))) - fst s)) with
    (fuel := fuel) (s := (0, input)) as [s' Hs'].
  - intros [lastIndex st] s1 _ Hb.
    destruct (extractEmails_body_next _ _ _ Hb) as (H1 & H2 & e & -> & _).
    cbn [fst snd push_entity text] in *. lia.
  - cbn [fst snd]. lia.
  - rewrite Hs'. simpl. eauto.
Qed.

Lemma extractEmails_appends (input out : IntentResult) (fuel : nat) :
  extractEmails fuel input = Some out ->
  appends (email_entity (text input)) input out.
Proof.
  unfold extractEmails. intros H.
  destruct (while_loop fuel (fun _ => true) extractEmails_body (0, input))
    as [s'|] eqn:Hs; [|discriminate].
  inversion H; subst; clear H.
  apply while_loop_steps in Hs. rewrite <- Hs.
  apply extractEmails_steps_append.
Qed.

(** C3, counterexample: the text ["a@..com"] is reported as an email, and
    its domain ["."] has empty labels. *)
Lemma email_with_empty_labels :
  extractEmails 9 (initial "a@..com")
  = Some {| text := "a@..com"; tokens := [];
            entities := [mkEntity E_email "a@..com" 0 7] |}
  /\ ~ email_shape_nonempty_labels "a@..com".
Proof.
  split; [reflexivity|].
  intros (local & labels & tld & Heq & Hne & Hl & Hlne & Hlab & _).
  destruct local as [|c l]; [congruence|].
  simpl in Heq. injection Heq as <- Hrest.
  destruct l as [|c' l'].
  - simpl in Hrest. injection Hrest as Hrest.
    destruct labels as [|l1 ls]; [congruence|].
    inversion Hlab as [|? ? [Hl1 Hc1] _]; subst.
    destruct l1 as [|c1 l1]; [congruence|].
    assert (c1 = "."%char).
    { destruct ls; simpl in Hrest; injection Hrest as <- _; reflexivity. }
    subst c1. discriminate Hc1.
  - simpl in Hrest. injection Hrest as <- _.
    discriminate Hl.
Qed.

(** C3, amended: every entity the email extractor reports has the shape
    local-part [@] domain [.] tld, where the local part is one or more
    characters of [[A-Za-z0-9._%+-]], the domain is one or more characters of
    [[A-Za-z0-9.-]] (dot-separated labels of alphanumerics and hyphens, which
    may be empty), and the final label is alphabetic of length at least 2.
    The extractor returns within [text.length + 2] iterations. *)
Theorem extractEmails_shape :
  forall input : IntentResult,
    exists out,
      extractEmails (length (text input) + 2) input = Some out
      /\ appends (fun e => email_shape (entity_value e)) input out.
Proof.
  intros input.
  destruct (extractEmails_terminates input (length (text input) + 2))
    as [out Hout]; [lia|].
  exists out. split; [assumption|].
  eapply appends_weaken; [|eapply extractEmails_appends; eassumption].
  intros e (_ & _ & H). exact H.
Qed.

(** ** indexOf *)

Lemma index_from (n m : nat) (s1 s2 : string) :
  index n s1 s2 = Some m -> n <= m.
Proof.
  revert n m; induction s2 as [|b s2 IH]; intros n m H; simpl in H.
  - destruct n; [|discriminate]. destruct s1; inversion H. lia.
  - destruct n as [|n]; [lia|].
    destruct (index n s1 s2) as [k|] eqn:Hk; [|discriminate].
    inversion H; subst. apply IH in Hk. lia.
Qed.

(** An occurrence found by [indexOf] lies inside the text. *)
Lemma index_inside (n m : nat) (s1 s2 : string) :
  s1 <> EmptyString -> index n s1 s2 = Some m -> m + length s1 <= length s2.
Proof.
  intros Hne H. apply index_correct1 in H.
  assert (Hl : length (substring m (length s1) s2) = length s1)
    by now rewrite H.
  rewrite length_substring in Hl.
  assert (0 < length s1) by (destruct s1; [congruence|simpl; lia]).
  lia.
Qed.

Lemma index_first_occurrence (t v : string) (m : nat) :
  indexOf t v 0 = Some m -> first_occurrence t v m.
Proof.
  unfold indexOf. intros H. split.
  - eapply index_correct1; eassumption.
  - intros m' Hm'. eapply index_correct2; [eassumption|lia|assumption].
Qed.

Lemma index_of_occurrence (pre v post : string) :
  v <> EmptyString ->
  exists m, indexOf (pre ++ v ++ post) v 0 = Some m.
Proof.
  intros Hne. unfold indexOf.
  destruct (index 0 v (pre ++ v ++ post)) as [m|] eqn:H; [eauto|].
  exfalso.
  eapply (index_correct3 0 (length pre)); [eassumption|assumption|lia|].
  apply substring_middle.
Qed.

(** ** split on a character class *)

Lemma split_class_go_occurs (delim : ascii -> bool) (s : string) :
  forall cur in_sep pre,
    Forall (occurs_in (pre ++ cur ++ s))
      (split_class_go delim s cur in_sep).
Proof.
  induction s as [|c s IH]; intros cur in_sep pre; simpl.
  - constructor; [|constructor]. exists pre, EmptyString. reflexivity.
  - assert (Hsep : Forall (occurs_in (pre ++ cur ++ String c s))
                     (split_class_go delim s EmptyString true)).
    { specialize (IH EmptyString true (pre ++ cur ++ String c EmptyString)%string).
      simpl in IH. now rewrite !append_assoc in IH. }
    destruct (delim c).
    + destruct in_sep; [assumption|].
      constructor; [|assumption]. exists pre, (String c s). reflexivity.
    + specialize (IH (cur ++ String c EmptyString)%string false pre).
      now rewrite append_assoc in IH.
Qed.

Lemma split_class_go_no_delim (delim : ascii -> bool) (s : string) :
  forall cur in_sep,
    string_forallb (fun c => negb (delim c)) cur = true ->
    Forall (fun p => string_forallb (fun c => negb (delim c)) p = true)
      (split_class_go delim s cur in_sep).
Proof.
  induction s as [|c s IH]; intros cur in_sep Hcur; simpl.
  - constructor; [assumption|constructor].
  - destruct (delim c) eqn:Hc.
    + destruct in_sep; [now apply IH|].
      constructor; [assumption|now apply IH].
    + apply IH. rewrite string_forallb_append, Hcur. simpl. now rewrite Hc.
Qed.

(** The pieces of a split are substrings of the text without delimiters. *)
Lemma split_class_pieces (delim : ascii -> bool) (t : string) :
  Forall (fun p => occurs_in t p
                   /\ string_forallb (fun c => negb (delim c)) p = true)
    (split_class delim t).
Proof.
  unfold split_class. apply Forall_and.
  - apply (split_class_go_occurs delim t EmptyString false EmptyString).
  - now apply split_class_go_no_delim.
Qed.

(** ** extractPhones *)

Lemma digit_not_separator (c : ascii) :
  is_digit c = true -> char_in phone_separators c = false.
Proof.
  destruct c as [[] [] [] [] [] [] [] []]; vm_compute; intros H;
    try discriminate H; reflexivity.
Qed.

Lemma count_phone_chars_counts (token : string) :
  forall d s,
    count_phone_chars token d s
    = (d + string_count is_digit token,
       s + string_count (char_in phone_separators) token).
Proof.
  induction token as [|c token IH]; intros d s; simpl.
  - f_equal; lia.
  - change (isDigit (Some c)) with (is_digit c).
    destruct (is_digit c) eqn:Hc.
    + rewrite (digit_not_separator c Hc), IH. f_equal; lia.
    + destruct (char_in phone_separators c); rewrite IH; f_equal; lia.
Qed.

(** One iteration of the loop reports the token exactly when it qualifies
    and occurs in the text. *)
Lemma extractPhones_token_spec (input : IntentResult) (token : string) :
  extractPhones_token input token
  = if phone_qualifies token then
      match indexOf (text input) token 0 with
      | Some start =>
          push_entity input (mkEntity E_phone token start (start + length token))
      | None => input
      end
    else input.
Proof.
  unfold extractPhones_token, phone_qualifies.
  rewrite count_phone_chars_counts. simpl Nat.add.
  destruct (token =? "")%string eqn:He.
  - apply String.eqb_eq in He. subst token. reflexivity.
  - destruct (10 <=? length token); reflexivity.
Qed.

Lemma phone_qualifies_nonempty (v : string) :
  phone_qualifies v = true -> 10 <= length v.
Proof.
  unfold phone_qualifies. intros H.
  repeat (apply andb_true_iff in H as [H ?]). now apply Nat.leb_le.
Qed.

Lemma extractPhones_fold (t : string) (l : list string) :
  Forall (occurs_in t) l ->
  forall st, text st = t ->
    exists new,
      fold_left extractPhones_token l st
      = {| text := t; tokens := tokens st;
           entities := (entities st ++ new)%list |}
      /\ map entity_value new = filter phone_qualifies l
      /\ Forall (phone_entity_of t) new.
Proof.
  induction 1 as [|v l Hv Hl IH]; intros st Ht; simpl.
  - exists []. rewrite app_nil_r. destruct st; simpl in *; subst. auto.
  - rewrite extractPhones_token_spec.
    destruct (phone_qualifies v) eqn:Hq; [|now apply IH].
    assert (Hne : v <> EmptyString).
    { apply phone_qualifies_nonempty in Hq. destruct v; [simpl in Hq; lia|].
      discriminate. }
    destruct Hv as (pre & post & Hocc).
    destruct (index_of_occurrence pre v post Hne) as [m Hm].
    rewrite <- Hocc, <- Ht in Hm. rewrite Hm.
    destruct (IH (push_entity st (mkEntity E_phone v m (m + length v))) Ht)
      as (new & Hfold & Hmap & Hall).
    exists (mkEntity E_phone v m (m + length v) :: new). split; [|split].
    + rewrite Hfold. simpl. now rewrite <- app_assoc.
    + simpl. now rewrite Hmap.
    + constructor; [|assumption].
      unfold phone_entity_of; simpl. repeat split.
      * rewrite Ht in Hm. now apply index_first_occurrence.
      * intros m' Hm'. rewrite Ht in Hm.
        now apply (index_first_occurrence _ _ _ Hm).
Qed.

(** What the phone extractor appends. *)
Lemma extractPhones_entities (input : IntentResult) :
  exists new,
    extractPhones input
    = {| text := text input; tokens := tokens input;
         entities := (entities input ++ new)%list |}
    /\ map entity_value new = phone_candidates (text input)
    /\ Forall (phone_entity_of (text input)) new.
Proof.
  unfold extractPhones, phone_candidates.
  apply extractPhones_fold; [|reflexivity].
  eapply Forall_impl; [|apply split_class_pieces]. intros p [H _]. exact H.
Qed.

(** Two disjoint classes that account for the whole length cover every
    character. *)
Lemma string_count_cover (p q : ascii -> bool) (s : string) :
  (forall c, p c = true -> q c = false) ->
  string_count p s + string_count q s = length s ->
  string_forallb (fun c => p c || q c) s = true.
Proof.
  intros Hdisj. induction s as [|c s IH]; simpl; intros H; [reflexivity|].
  assert (Hle : string_count p s + string_count q s <= length s).
  { clear IH H. induction s as [|d s IH]; simpl; [lia|].
    destruct (p d) eqn:Hp; [rewrite (Hdisj d Hp)|destruct (q d)]; lia. }
  destruct (p c) eqn:Hp.
  - rewrite (Hdisj c Hp) in H. simpl. apply IH. lia.
  - destruct (q c); simpl; [apply IH; lia|lia].
Qed.

Lemma string_forallb_both (p q r : ascii -> bool) (s : string) :
  (forall c, p c = true -> q c = true -> r c = true) ->
  string_forallb p s = true -> string_forallb q s = true ->
  string_forallb r s = true.
Proof.
  intros Hr. induction s as [|c s IH]; simpl; intros Hp Hq; [reflexivity|].
  apply andb_true_iff in Hp as [Hp1 Hp2].
  apply andb_true_iff in Hq as [Hq1 Hq2].
  rewrite (Hr c Hp1 Hq1). now apply IH.
Qed.

Lemma phone_char_survives_split (c : ascii) :
  is_digit c || char_in phone_separators c = true ->
  negb (is_phone_delimiter c) = true ->
  is_phone_value_char c = true.
Proof.
  destruct c as [[] [] [] [] [] [] [] []]; vm_compute; intros H1 H2;
    try reflexivity; discriminate.
Qed.

Lemma phone_qualifies_chars (v : string) :
  phone_qualifies v = true ->
  string_forallb (fun c => is_digit c || char_in phone_separators c) v = true.
Proof.
  unfold phone_qualifies. intros H.
  apply andb_true_iff in H as [_ H]. apply Nat.eqb_eq in H.
  apply string_count_cover; [apply digit_not_separator|assumption].
Qed.

(** The values reported are qualifying pieces of the split. *)
Lemma phone_candidates_values (t : string) (new : list Entity) :
  map entity_value new = phone_candidates t ->
  Forall (fun e => phone_qualifies (entity_value e) = true
                   /\ string_forallb is_phone_value_char (entity_value e) = true)
    new.
Proof.
  intros Hmap. apply Forall_forall. intros e He.
  assert (Hin : In (entity_value e) (phone_candidates t))
    by (rewrite <- Hmap; now apply in_map).
  apply filter_In in Hin as [Hin Hq]. split; [assumption|].
  pose proof (split_class_pieces is_phone_delimiter t) as Hp.
  rewrite Forall_forall in Hp. destruct (Hp _ Hin) as [_ Hnd].
  eapply string_forallb_both;
    [apply phone_char_survives_split|now apply phone_qualifies_chars|exact Hnd].
Qed.

Lemma first_occurrence_in_text (t v : string) (m : nat) :
  0 < length v -> first_occurrence t v m ->
  entity_in_text t (mkEntity E_phone v m (m + length v)).
Proof.
  intros Hpos [Hsub _]. unfold entity_in_text, js_substring; simpl.
  assert (Hl : length (substring m (length v) t) = length v)
    by now rewrite Hsub.
  rewrite length_substring in Hl.
  replace (Nat.min m (m + length v)) with m by lia.
  replace (Nat.max m (m + length v) - m) with (length v) by lia.
  repeat split; [lia|lia|now symmetry].
Qed.

Lemma extractPhones_appends (input : IntentResult) :
  appends (entity_in_text (text input)) input (extractPhones input).
Proof.
  destruct (extractPhones_entities input) as (new & -> & Hmap & Hall).
  repeat split. exists new. split; [reflexivity|].
  pose proof (phone_candidates_values _ _ Hmap) as Hq.
  rewrite Forall_forall in *. intros e He.
  destruct (Hall e He) as (Hty & Hfirst & Hend).
  destruct (Hq e He) as [Hqual _]. apply phone_qualifies_nonempty in Hqual.
  assert (Hpos : 0 < length (entity_value e)) by lia.
  pose proof (first_occurrence_in_text _ _ _ Hpos Hfirst) as Hin.
  destruct e as [ty v s e']; simpl in *. subst. exact Hin.
Qed.

(** C4: the phone extractor appends, in the order of the split, one phone
    entity for exactly those delimiter-split candidates of length at least 10
    whose digit count is between 10 and 15 and whose digits and accepted
    separators make up the whole candidate; its value is the candidate, its
    start the index of the first occurrence of the candidate in the text and
    its end the start plus the length of the candidate. *)
Theorem extractPhones_reports_qualifying_candidates :
  forall input : IntentResult,
    exists new,
      extractPhones input
      = {| text := text input; tokens := tokens input;
           entities := (entities input ++ new)%list |}
      /\ map entity_value new = phone_candidates (text input)
      /\ Forall (phone_entity_of (text input)) new.
Proof.
  intros input.
  destruct (extractPhones_entities input) as (new & Hout & Hvalues & Hall).
  exists new. split; [exact Hout|]. split; [exact Hvalues|exact Hall].
Qed.

(** C9: every value the phone extractor reports consists of digits and the
    characters ['-'], ['.'] and ['+'] only, so it is never
    ["(555) 123-4567"]; on that text the extractor reports nothing. *)
Theorem extractPhones_values_without_spaces_and_parentheses :
  (forall input : IntentResult,
     appends (fun e =>
                string_forallb is_phone_value_char (entity_value e) = true
                /\ entity_value e <> "(555) 123-4567")
       input (extractPhones input))
  /\ (forall tks : list Token,
        extractPhones
          {| text := "(555) 123-4567"; tokens := tks; entities := [] |}
        = {| text := "(555) 123-4567"; tokens := tks; entities := [] |}).
Proof.
  split; [|reflexivity].
  intros input.
  destruct (extractPhones_entities input) as (new & -> & Hmap & _).
  repeat split. exists new. split; [reflexivity|].
  eapply Forall_impl; [|exact (phone_candidates_values _ _ Hmap)].
  intros e [_ Hc]. split; [assumption|].
  intros Heq. rewrite Heq in Hc. discriminate Hc.
Qed.

(** ** extractUrls *)

Lemma find_url_end_bounds (n : nat) (t : string) (urlEnd : nat) :
  urlEnd <= find_url_end n t urlEnd
  /\ find_url_end n t urlEnd <= Nat.max urlEnd (length t).
Proof.
  revert urlEnd; induction n as [|n IH]; intros urlEnd; cbn [find_url_end];
    [lia|].
  destruct (urlEnd <? length t) eqn:Hlt; [|lia]. apply Nat.ltb_lt in Hlt.
  destruct (charAt t urlEnd) as [c|]; [|lia].
  destruct (char_in url_terminators c); [lia|].
  specialize (IH (S urlEnd)). lia.
Qed.

(** An iteration that continues has moved [searchStart] forward, inside the
    text, and has pushed at most one entity. *)
Lemma extractUrls_body_next (protocol : string) (searchStart : nat)
    (input : IntentResult) (s' : nat * IntentResult) :
  protocol <> EmptyString ->
  extractUrls_body protocol (searchStart, input) = Continue s' ->
  searchStart < fst s' /\ fst s' <= length (text input)
  /\ (snd s' = input
      \/ exists e, snd s' = push_entity input e /\ url_entity (text input) e).
Proof.
  intros Hne. unfold extractUrls_body.
  destruct (indexOf (text input) protocol searchStart) as [pidx|] eqn:Hidx;
    [|discriminate].
  unfold indexOf in Hidx.
  pose proof (index_from _ _ _ _ Hidx) as Hfrom.
  pose proof (index_inside _ _ _ _ Hne Hidx) as Hin.
  assert (Hp : 0 < length protocol)
    by (destruct protocol; [congruence|simpl; lia]).
  pose proof (find_url_end_bounds
                (length (text input) - (pidx + length protocol)) (text input)
                (pidx + length protocol)) as Hend.
  set (urlEnd := find_url_end _ _ _) in *.
  intros H. inversion H; subst; clear H. cbn [fst snd].
  replace (searchStart <? urlEnd) with true
    by (symmetry; apply Nat.ltb_lt; lia).
  repeat split; try lia.
  destruct (negb (js_substring (text input) pidx urlEnd =? "")%string
            && isValidUrl (js_substring (text input) pidx urlEnd)) eqn:Hv;
    [|now left].
  right. eexists. split; [reflexivity|].
  apply andb_true_iff in Hv as [_ Hv].
  unfold url_entity, entity_in_text; simpl. repeat split; try lia; assumption.
Qed.

Lemma extractUrls_body_break (protocol : string) (searchStart : nat)
    (input : IntentResult) (s' : nat * IntentResult) :
  extractUrls_body protocol (searchStart, input) = Break s' -> snd s' = input.
Proof.
  unfold extractUrls_body.
  destruct (indexOf (text input) protocol searchStart);
    intros H; inversion H; reflexivity.
Qed.

Lemma extractUrls_steps_append (protocol : string) (input : IntentResult)
    (n : nat) :
  protocol <> EmptyString ->
  appends (url_entity (text input)) input
    (snd (while_steps n extractUrls_cond (extractUrls_body protocol)
            (0, input))).
Proof.
  intros Hne.
  apply (while_steps_invariant extractUrls_cond (extractUrls_body protocol)
           (fun s => appends (url_entity (text input)) input (snd s))).
  - intros [searchStart st] s' Hinv _ [Hb|Hb]; cbn [snd] in *.
    + destruct (extractUrls_body_next _ _ _ _ Hne Hb)
        as (_ & _ & [->|(e & -> & He)]); [assumption|].
      apply appends_push; [assumption|].
      destruct Hinv as (Ht & _). now rewrite <- Ht.
    + now rewrite (extractUrls_body_break _ _ _ _ Hb).
  - apply appends_refl.
Qed.

(** One pass of the URL loop exits within [text.length + 1] iterations. *)
Lemma extractUrls_protocol_terminates (protocol : string)
    (input : IntentResult) (fuel : nat) :
  protocol <> EmptyString -> length (text input) < fuel ->
  exists out,
    extractUrls_protocol fuel protocol input = Some out
    /\ appends (url_entity (text input)) input out.
Proof.
  intros Hne Hfuel. unfold extractUrls_protocol.
  destruct (while_loop_terminates extractUrls_cond
              (extractUrls_body protocol)
              (fun s => length (text (snd s)) - fst s)) with
    (fuel := fuel) (s := (0, input)) as [s' Hs'].
  - intros [searchStart st] s1 Hc Hb.
    destruct (extractUrls_body_next _ _ _ _ Hne Hb) as (H1 & H2 & Hs).
    assert (Ht : text (snd s1) = text st)
      by (destruct Hs as [->|(e & -> & _)]; reflexivity).
    rewrite Ht. cbn [fst snd] in *. lia.
  - cbn [fst snd]. lia.
  - rewrite Hs'. simpl. eexists. split; [reflexivity|].
    apply while_loop_steps in Hs'. rewrite <- Hs'.
    now apply extractUrls_steps_append.
Qed.

Lemma appends_trans (P : Entity -> Prop) (a b c : IntentResult) :
  appends P a b -> appends P b c -> appends P a c.
Proof.
  intros (Ht1 & Hk1 & n1 & He1 & Hf1) (Ht2 & Hk2 & n2 & He2 & Hf2).
  repeat split; try congruence.
  exists (n1 ++ n2)%list. split.
  - now rewrite He2, He1, app_assoc.
  - apply Forall_app. auto.
Qed.

(** Both passes of the URL extractor exit within [text.length + 1]
    iterations each. *)
Lemma extractUrls_terminates (input : IntentResult) (fuel : nat) :
  length (text input) < fuel ->
  exists out,
    extractUrls fuel input = Some out
    /\ appends (url_entity (text input)) input out.
Proof.
  intros Hfuel. unfold extractUrls, protocols. cbn [fold_left].
  destruct (extractUrls_protocol_terminates "http://" input fuel)
    as (out1 & -> & Ha1); [discriminate|assumption|].
  assert (Ht : text out1 = text input) by apply Ha1.
  destruct (extractUrls_protocol_terminates "https://" out1 fuel)
    as (out2 & -> & Ha2); [discriminate|rewrite Ht; assumption|].
  exists out2. split; [reflexivity|].
  rewrite Ht in Ha2. eapply appends_trans; eassumption.
Qed.

(** C1 (the code diverges): the email loop exits within [text.length + 2]
    iterations and each pass of the URL loop within [text.length + 1], on
    every text, and the phone extractor is a loop over the finite list of
    split tokens.  The number loop exits within [text.length + 1] iterations
    on a text in which every ['.'] stands between two digits, and on every
    other text it never returns, whatever fuel it is given: the scan stops
    on the period, which is no decimal point, and the next iteration starts
    on it again.  The text ["."] is such a text. *)
Theorem extractors_exit_but_numbers_stuck_on_period :
  (forall input : IntentResult,
     exists out, extractEmails (length (text input) + 2) input = Some out)
  /\ (forall input : IntentResult,
        exists out, extractUrls (length (text input) + 1) input = Some out)
  /\ (forall input : IntentResult,
        periods_between_digits (text input) ->
        exists out, extractNumbers (length (text input) + 1) input = Some out)
  /\ (forall (input : IntentResult) (p : nat),
        charAt (text input) p = Some "."%char ->
        between_digits (text input) p = false ->
        forall fuel, extractNumbers fuel input = None)
  /\ (forall (tks : list Token) (es : list Entity) (fuel : nat),
        extractNumbers fuel {| text := "."; tokens := tks; entities := es |}
        = None).
Proof.
  split; [|split; [|split; [|split]]].
  - intros input. apply extractEmails_terminates. lia.
  - intros input.
    destruct (extractUrls_terminates input (length (text input) + 1))
      as (out & Hout & _); [lia|]. eauto.
  - intros input Hall. apply extractNumbers_terminates; [assumption|lia].
  - exact extractNumbers_diverges.
  - intros tks es fuel. unfold extractNumbers.
    rewrite while_loop_stuck; reflexivity.
Qed.

Lemma extractors_exit_but_numbers_stuck_on_period_witness :
  (exists out, extractNumbers 6 (initial "3.14 ") = Some out)
  /\ (forall fuel,
        extractNumbers fuel (initial "end of sentence. Next") = None).
Proof.
  destruct extractors_exit_but_numbers_stuck_on_period
    as (_ & _ & Hexit & Hstuck & _).
  split.
  - apply (Hexit (initial "3.14 ")).
    intros p. do 5 (destruct p as [|p]; [vm_compute; congruence|]).
    vm_compute. discriminate.
  - apply (Hstuck (initial "end of sentence. Next") 15); reflexivity.
Defined.

Lemma isValidUrl_dotted_host (candidate : string) :
  isValidUrl candidate = true -> has_dotted_host candidate.
Proof.
  unfold isValidUrl, has_dotted_host.
  destruct (split_string "://" candidate) as [|protocol [|path [|? ?]]];
    try discriminate.
  destruct ((protocol =? "")%string || (path =? "")%string
            || negb (string_in ["http"; "https"] protocol)) eqn:Hp;
    [discriminate|].
  apply orb_false_iff in Hp as [_ Hp]. apply negb_false_iff in Hp.
  destruct (hd "" (split_string "/" path) =? "")%string; [discriminate|].
  destruct (List.length (split_string "." (hd "" (split_string "/" path))) <? 2)
    eqn:Hlen; [discriminate|].
  apply Nat.ltb_ge in Hlen. intros Hall.
  exists protocol, path. repeat split; try assumption.
  rewrite forallb_forall in Hall. apply Forall_forall. intros part Hin.
  specialize (Hall part Hin). now apply andb_true_iff in Hall as [_ Hall].
Qed.

(** ** Decimal printing and parsing of natural numbers *)

Lemma digits_value_acc_pos (d : Decimal.uint) :
  forall acc : positive,
    digits_value_acc (Npos acc) (NilEmpty.string_of_uint d)
    = Npos (Pos.of_uint_acc d acc).
Proof.
  induction d as [|d IH|d IH|d IH|d IH|d IH|d IH|d IH|d IH|d IH|d IH];
    intros acc; cbn [NilEmpty.string_of_uint digits_value_acc Pos.of_uint_acc];
    [reflexivity|..]; rewrite <- IH; f_equal; unfold digit_value;
    match goal with
    | |- context [(N_of_ascii ?c - 48)%N] =>
        let v := eval vm_compute in (N_of_ascii c - 48)%N in
        change (N_of_ascii c - 48)%N with v
    end; lia.
Qed.

Lemma digits_value_of_uint (d : Decimal.uint) :
  digits_value (NilEmpty.string_of_uint d) = N.of_uint d.
Proof.
  unfold digits_value, N.of_uint.
  induction d as [|d IH|d IH|d IH|d IH|d IH|d IH|d IH|d IH|d IH|d IH];
    cbn [NilEmpty.string_of_uint digits_value_acc Pos.of_uint];
    [reflexivity|exact IH|..];
    apply digits_value_acc_pos.
Qed.

Lemma string_of_uint_digits (d : Decimal.uint) :
  string_forallb is_digit (NilEmpty.string_of_uint d) = true.
Proof.
  induction d; cbn [NilEmpty.string_of_uint string_forallb];
    [reflexivity|..]; rewrite IHd; reflexivity.
Qed.

(** ** Printing and parsing numbers *)

Lemma digits_value_acc_append (a b : string) :
  forall acc,
    digits_value_acc acc (a ++ b) = digits_value_acc (digits_value_acc acc a) b.
Proof. induction a as [|c a IH]; intros acc; simpl; auto. Qed.

Lemma digits_value_acc_zeros (j : nat) :
  forall acc, digits_value_acc acc (zeros j) = (acc * 10 ^ N.of_nat j)%N.
Proof.
  induction j as [|j IH]; intros acc.
  - simpl. lia.
  - cbn [zeros digits_value_acc]. rewrite IH.
    change (digit_value "0") with 0%N.
    rewrite Nat2N.inj_succ, N.pow_succ_r'. lia.
Qed.

Lemma digits_value_leading_zeros (j : nat) (ds : string) :
  digits_value (zeros j ++ ds) = digits_value ds.
Proof.
  unfold digits_value. rewrite digits_value_acc_append, digits_value_acc_zeros.
  reflexivity.
Qed.

Lemma take_digits_append (a r : string) :
  string_forallb is_digit a = true -> isDigit (get 0 r) = false ->
  take_digits (a ++ r) = (a, r).
Proof.
  intros Ha Hr. induction a as [|c a IH]; cbn [append take_digits].
  - destruct r as [|d r]; [reflexivity|]. cbn [take_digits].
    change (is_digit d) with (isDigit (get 0 (String d r))).
    now rewrite Hr.
  - cbn [string_forallb] in Ha.
    apply andb_true_iff in Ha as [Hc Ha]. now rewrite Hc, (IH Ha).
Qed.

Lemma decimal_string_spec (m : N) :
  decimal_string m <> EmptyString
  /\ string_forallb is_digit (decimal_string m) = true
  /\ digits_value (decimal_string m) = m.
Proof.
  unfold decimal_string.
  assert (Hs : exists d, NilZero.string_of_uint (N.to_uint m)
                         = NilEmpty.string_of_uint d
                         /\ d <> Decimal.Nil /\ N.of_uint d = m).
  { destruct (N.to_uint m) eqn:Hd;
      [exists (Decimal.D0 Decimal.Nil)|eexists..];
      (split; [reflexivity|split; [discriminate|]]);
      rewrite <- (DecimalN.Unsigned.of_to m), Hd; reflexivity. }
  destruct Hs as (d & -> & Hd & Hm). repeat split.
  - destruct d; [congruence|discriminate..].
  - apply string_of_uint_digits.
  - now rewrite digits_value_of_uint.
Qed.

Lemma sign_is_plain (neg : bool) (c : ascii) (s : string) :
  is_digit c = true ->
  take_sign (trim_start (sign_prefix neg ++ String c s)) = (neg, String c s).
Proof.
  intros Hc. destruct (digit_is_plain c Hc) as (Hsp & Hm & Hp & _).
  destruct neg; cbn [sign_prefix append trim_start].
  - change (is_space "-") with false. cbn [take_sign].
    change ("-" =? "-")%char with true. reflexivity.
  - rewrite Hsp. cbn [take_sign]. now rewrite Hm, Hp.
Qed.

(** [parseFloat] on an optional minus sign, a non-empty run of digits and a
    rest that does not start with a digit. *)
Lemma parseFloat_number (neg : bool) (ip rest : string) :
  ip <> EmptyString -> string_forallb is_digit ip = true ->
  isDigit (get 0 rest) = false ->
  parseFloat (sign_prefix neg ++ ip ++ rest)
  = PN_Decimal neg (digits_value (ip ++ fst (take_fraction rest)))
      (parse_exponent (snd (take_fraction rest))
       - Z.of_nat (length (fst (take_fraction rest)))).
Proof.
  intros Hne Hall Hrest. destruct ip as [|c ip]; [congruence|].
  pose proof Hall as Hall'. cbn [string_forallb] in Hall'.
  apply andb_true_iff in Hall' as [Hc _].
  destruct (digit_is_plain c Hc) as (_ & _ & _ & _ & HI).
  unfold parseFloat. cbn [append]. rewrite (sign_is_plain neg c _ Hc).
  rewrite (prefix_Infinity c _ HI).
  change (String c (ip ++ rest)) with (String c ip ++ rest)%string.
  rewrite (take_digits_append _ _ Hall Hrest).
  destruct (take_fraction rest) as [fp s2]. reflexivity.
Qed.

Lemma parse_exponent_format (e : Z) :
  parse_exponent (format_exponent e) = e.
Proof.
  unfold format_exponent, parse_exponent.
  change (char_in ["e"%char; "E"%char] "e") with true.
  destruct (decimal_string_spec (Z.abs_N e)) as (Hne & Hall & Hval).
  assert (Htd : take_digits (decimal_string (Z.abs_N e))
                = (decimal_string (Z.abs_N e), EmptyString))
    by now apply take_digits_all.
  destruct (e <? 0)%Z eqn:Hneg.
  - cbn [append take_sign]. change ("-" =? "-")%char with true.
    cbv beta iota zeta. rewrite Htd.
    destruct (decimal_string (Z.abs_N e)) eqn:Hd; [congruence|].
    rewrite Hval. apply Z.ltb_lt in Hneg. lia.
  - cbn [append take_sign]. change ("+" =? "-")%char with false.
    change ("+" =? "+")%char with true.
    cbv beta iota zeta. rewrite Htd.
    destruct (decimal_string (Z.abs_N e)) eqn:Hd; [congruence|].
    rewrite Hval. apply Z.ltb_ge in Hneg. lia.
Qed.

Lemma substring_split (n : nat) (s : string) :
  n <= length s ->
  s = (substring 0 n s ++ substring n (length s - n) s)%string.
Proof.
  revert n; induction s as [|c s IH]; intros n Hn.
  - destruct n; [reflexivity|simpl in Hn; lia].
  - destruct n as [|n].
    + cbn [substring append length Nat.sub]. f_equal.
      clear IH Hn. induction s as [|d s IH]; [reflexivity|].
      cbn [substring length]. now rewrite <- IH.
    + cbn [substring append length Nat.sub]. f_equal. apply IH.
      simpl in Hn. lia.
Qed.

Lemma zeros_digits (j : nat) : string_forallb is_digit (zeros j) = true.
Proof.
  induction j as [|j IH]; [reflexivity|].
  cbn [zeros string_forallb]. now rewrite IH.
Qed.

Lemma length_zeros (j : nat) : length (zeros j) = j.
Proof. induction j; simpl; congruence. Qed.

Lemma same_decimal_refl (m : N) (e : Z) : same_decimal m e m e.
Proof. reflexivity. Qed.

(** Parsing what [format_finite] prints gives back the digits and the
    exponent it was given, up to trailing zeros. *)
Lemma parseFloat_format_finite (neg : bool) (ds : string) (n : Z) :
  ds <> EmptyString -> string_forallb is_digit ds = true ->
  exists m e,
    parseFloat (sign_prefix neg ++ format_finite ds n) = PN_Decimal neg m e
    /\ same_decimal m e (digits_value ds) (n - Z.of_nat (length ds)).
Proof.
  intros Hne Hall. unfold format_finite.
  destruct ((Z.of_nat (length ds) <=? n) && (n <=? 21))%Z eqn:Ha.
  { (* digits and zeros *)
    apply andb_true_iff in Ha as [Ha _]. apply Z.leb_le in Ha.
    rewrite <- (append_nil_r (ds ++ zeros _)).
    rewrite parseFloat_number.
    - eexists _, _. split; [reflexivity|].
      cbn [take_fraction fst snd parse_exponent length].
      rewrite append_nil_r. unfold digits_value.
      rewrite digits_value_acc_append, digits_value_acc_zeros.
      unfold same_decimal.
      replace (Z.min (0 - Z.of_nat 0) (n - Z.of_nat (length ds))) with 0%Z by lia.
      rewrite N2Z.inj_mul, N2Z.inj_pow, nat_N_Z, Z2Nat.id by lia.
      simpl Z.of_N. rewrite !Z.sub_0_r. simpl (10 ^ (0 - 0))%Z. lia.
    - destruct ds; [congruence|discriminate].
    - now rewrite string_forallb_append, Hall, zeros_digits.
    - reflexivity. }
  destruct ((0 <? n) && (n <=? 21))%Z eqn:Hb.
  { (* digits, point, digits *)
    apply andb_true_iff in Hb as [Hb Hb']. apply Z.ltb_lt in Hb.
    apply Z.leb_le in Hb'.
    apply andb_false_iff in Ha as [Ha|Ha];
      [apply Z.leb_gt in Ha|apply Z.leb_gt in Ha; lia].
    assert (Hn : Z.to_nat n <= length ds) by lia.
    pose proof (substring_split _ _ Hn) as Hsplit.
    replace (Z.to_nat (Z.of_nat (length ds) - n))
      with (length ds - Z.to_nat n) by lia.
    set (a := substring 0 (Z.to_nat n) ds) in *.
    set (b := substring (Z.to_nat n) (length ds - Z.to_nat n) ds) in *.
    assert (Hab : string_forallb is_digit a = true
                  /\ string_forallb is_digit b = true).
    { rewrite Hsplit, string_forallb_append in Hall.
      now apply andb_true_iff in Hall. }
    destruct Hab as [Hda Hdb].
    assert (Hla : length a = Z.to_nat n).
    { unfold a. rewrite length_substring. lia. }
    rewrite parseFloat_number.
    - eexists _, _. split; [reflexivity|].
      cbn [append take_fraction]. change ("." =? ".")%char with true.
      rewrite (take_digits_all _ Hdb). cbn [fst snd parse_exponent].
      rewrite <- Hsplit.
      replace (0 - Z.of_nat (length b))%Z with (n - Z.of_nat (length ds))%Z.
      + apply same_decimal_refl.
      + assert (length ds = length a + length b)
          by (rewrite Hsplit at 1; apply length_append). lia.
    - intros E. rewrite E in Hla. simpl in Hla. lia.
    - assumption.
    - reflexivity. }
  destruct ((-6 <? n) && (n <=? 0))%Z eqn:Hc.
  { (* zero, point, zeros, digits *)
    apply andb_true_iff in Hc as [_ Hc]. apply Z.leb_le in Hc.
    change ("0." ++ zeros (Z.to_nat (- n)) ++ ds)%string
      with ("0" ++ String "." (zeros (Z.to_nat (- n)) ++ ds))%string.
    rewrite parseFloat_number; [|discriminate|reflexivity|reflexivity].
    eexists _, _. split; [reflexivity|].
    cbn [take_fraction]. change ("." =? ".")%char with true.
    rewrite take_digits_all
      by now rewrite string_forallb_append, zeros_digits, Hall.
    cbn [fst snd parse_exponent].
    change ("0" ++ zeros (Z.to_nat (- n)) ++ ds)%string
      with (zeros (S (Z.to_nat (- n))) ++ ds)%string.
    rewrite digits_value_leading_zeros, length_append, length_zeros.
    replace (0 - Z.of_nat (Z.to_nat (- n) + length ds))%Z
      with (n - Z.of_nat (length ds))%Z by lia.
    apply same_decimal_refl. }
  (* exponent notation *)
  destruct ds as [|d rest]; [congruence|].
  pose proof Hall as Hall'. cbn [string_forallb] in Hall'.
  apply andb_true_iff in Hall' as [Hd Hrest].
  assert (Hone : string_forallb is_digit (String d "") = true)
    by (cbn [string_forallb]; now rewrite Hd).
  destruct rest as [|d' rest].
  - change (String d (format_exponent (n - 1)))
      with (String d "" ++ format_exponent (n - 1))%string.
    rewrite parseFloat_number; [|discriminate|assumption|reflexivity].
    eexists _, _. split; [reflexivity|].
    unfold format_exponent at 1 2 3. cbn [take_fraction].
    change ("e" =? ".")%char with false. cbn [fst snd].
    fold (format_exponent (n - 1)). rewrite parse_exponent_format.
    rewrite append_nil_r. cbn [length].
    replace (n - 1 - Z.of_nat 0)%Z with (n - Z.of_nat 1)%Z by lia.
    apply same_decimal_refl.
  - change (String d ("." ++ String d' rest ++ format_exponent (n - 1)))
      with (String d ""
            ++ String "." (String d' rest ++ format_exponent (n - 1)))%string.
    rewrite parseFloat_number; [|discriminate|assumption|reflexivity].
    eexists _, _. split; [reflexivity|].
    cbn [take_fraction]. change ("." =? ".")%char with true.
    rewrite (take_digits_append _ _ Hrest) by reflexivity.
    cbn [fst snd]. rewrite parse_exponent_format.
    replace (n - 1 - Z.of_nat (length (String d' rest)))%Z
      with (n - Z.of_nat (length (String d (String d' rest))))%Z
      by (cbn [length]; lia).
    apply same_decimal_refl.
Qed.

(** ** Spans of the entities *)

Lemma extractNumbers_steps_append (input : IntentResult) (n : nat) :
  appends (entity_in_text (text input)) input
    (snd (while_steps n extractNumbers_cond extractNumbers_body (0, input))).
Proof.
  apply (while_steps_invariant extractNumbers_cond extractNumbers_body
           (fun s => appends (entity_in_text (text input)) input (snd s))).
  - intros s s'. apply extractNumbers_body_appends.
  - apply appends_refl.
Qed.

(** C5: whatever number of iterations an extractor has run, every entity it
    has appended so far satisfies [start < end <= length(text)] and has the
    substring [text[start:end]] of the input text as its value: for the email
    loop, for the phone extractor, for the URL loop of each protocol, and for
    the number loop. *)
Theorem appended_entities_span_their_value :
  forall input : IntentResult,
    (forall n,
       appends (entity_in_text (text input)) input
         (snd (while_steps n (fun _ => true) extractEmails_body (0, input))))
    /\ appends (entity_in_text (text input)) input (extractPhones input)
    /\ Forall (fun protocol =>
                 forall n,
                   appends (entity_in_text (text input)) input
                     (snd (while_steps n extractUrls_cond
                             (extractUrls_body protocol) (0, input))))
         protocols
    /\ (forall n,
          appends (entity_in_text (text input)) input
            (snd (while_steps n extractNumbers_cond extractNumbers_body
                    (0, input)))).
Proof.
  intros input. split; [|split; [|split]].
  - intros n. eapply appends_weaken; [|apply extractEmails_steps_append].
    intros e (_ & H & _). exact H.
  - apply extractPhones_appends.
  - unfold protocols.
    apply Forall_cons; [|apply Forall_cons; [|apply Forall_nil]]; intros n;
      (eapply appends_weaken;
       [|apply extractUrls_steps_append; discriminate]);
      intros e (_ & H & _); exact H.
  - intros n. apply extractNumbers_steps_append.
Qed.

(** ** The URL examples *)

(** C6: on ["visit http://example.com/path now"] the URL extractor returns
    exactly one entity, the URL ["http://example.com/path"] at offsets 6 to
    29; on ["http://bad"] it returns none; and every candidate the validation
    accepts has a first path segment that splits on ['.'] into at least two
    non-empty labels made of [[A-Za-z0-9-]] only. *)
Theorem extractUrls_examples :
  (forall (tks : list Token) (k : nat),
     extractUrls (2 + k)
       {| text := "visit http://example.com/path now"; tokens := tks;
          entities := [] |}
     = Some {| text := "visit http://example.com/path now"; tokens := tks;
               entities := [mkEntity E_url "http://example.com/path" 6 29] |})
  /\ (forall (tks : list Token) (k : nat),
        extractUrls (2 + k)
          {| text := "http://bad"; tokens := tks; entities := [] |}
        = Some {| text := "http://bad"; tokens := tks; entities := [] |})
  /\ isValidUrl "http://bad" = false
  /\ (forall candidate : string,
        isValidUrl candidate = true -> has_dotted_host candidate).
Proof.
  split; [|split; [|split]].
  - intros tks k. vm_compute. reflexivity.
  - intros tks k. vm_compute. reflexivity.
  - reflexivity.
  - exact isValidUrl_dotted_host.
Qed.

Lemma extractUrls_examples_witness :
  isValidUrl "http://example.com/path" = true
  /\ has_dotted_host "http://example.com/path".
Proof.
  split; [reflexivity|].
  apply (proj2 (proj2 (proj2 extractUrls_examples))). reflexivity.
Defined.

(** ** normalize *)

Lemma toLowerCase_char_fixed (c : ascii) :
  toLowerCase_char (toLowerCase_char c) = toLowerCase_char c.
Proof.
  destruct c as [[] [] [] [] [] [] [] []]; reflexivity.
Qed.

Lemma toLowerCase_fixed (s : string) :
  toLowerCase (toLowerCase s) = toLowerCase s.
Proof.
  induction s as [|c s IH]; simpl; [reflexivity|].
  now rewrite toLowerCase_char_fixed, IH.
Qed.

Section NormalizeFacts.

Variable JSNumber : Type.
Variable toNumber : ParsedNumber -> JSNumber.
Variable numberToString : JSNumber -> string.

Hypothesis numberToString_fixed :
  forall x : JSNumber,
    numberToString (toNumber (parseFloat (numberToString x)))
    = numberToString x.

Lemma normalize_token_fixed (token : Token) :
  normalize_token toNumber numberToString
    (normalize_token toNumber numberToString token)
  = normalize_token toNumber numberToString token.
Proof.
  destruct token as [ty v s e]. unfold normalize_token, set_token_value.
  destruct ty; simpl; try reflexivity.
  - now rewrite toLowerCase_fixed.
  - now rewrite numberToString_fixed.
Qed.

Lemma normalize_entity_fixed (entity : Entity) :
  normalize_entity (normalize_entity entity) = normalize_entity entity.
Proof.
  unfold normalize_entity, set_entity_value. simpl.
  now rewrite toLowerCase_fixed.
Qed.

(** Normalizing twice is normalizing once, when printing a number is a
    fixed point on the text it prints. *)
Lemma normalize_fixed (input : IntentResult) :
  normalize toNumber numberToString (normalize toNumber numberToString input)
  = normalize toNumber numberToString input.
Proof.
  unfold normalize. simpl. f_equal.
  - rewrite map_map. apply map_ext. intros t. apply normalize_token_fixed.
  - rewrite map_map. apply map_ext. intros e. apply normalize_entity_fixed.
Qed.

End NormalizeFacts.

Section NumberToString.

Variable JSNumber : Type.
Variable toNumber : ParsedNumber -> JSNumber.
Variable Number_digits : JSNumber -> NumberDigits.

(** The digits of a finite number are decimal digits, at least one. *)
Hypothesis digits_well_formed :
  forall x negative ds n,
    Number_digits x = ND_Finite negative ds n ->
    ds <> EmptyString /\ string_forallb is_digit ds = true.

(** The double a decimal rounds to depends on its value only. *)
Hypothesis toNumber_of_value :
  forall negative m e m' e',
    same_decimal m e m' e' ->
    toNumber (PN_Decimal negative m e) = toNumber (PN_Decimal negative m' e').

(** The digits of a number denote a decimal that rounds to it. *)
Hypothesis toNumber_of_digits :
  forall x negative ds n,
    Number_digits x = ND_Finite negative ds n ->
    toNumber (PN_Decimal negative (digits_value ds)
                (n - Z.of_nat (length ds))) = x.

(** NaN, the infinities and the zero that ["0"] parses to print as such. *)
Hypothesis digits_of_NaN : Number_digits (toNumber PN_NaN) = ND_NaN.

Hypothesis digits_of_Infinity :
  forall negative,
    Number_digits (toNumber (PN_Infinity negative)) = ND_Infinity negative.

Hypothesis digits_of_zero :
  Number_digits (toNumber (PN_Decimal false 0 0)) = ND_Zero.

(** Printing a number, parsing the text and printing again gives the same
    text. *)
Lemma Number_toString_fixed (x : JSNumber) :
  Number_toString Number_digits
    (toNumber (parseFloat (Number_toString Number_digits x)))
  = Number_toString Number_digits x.
Proof.
  unfold Number_toString.
  destruct (Number_digits x) as [|negative| |negative ds n] eqn:Hx;
    cbn [format_number].
  - change (parseFloat "NaN") with PN_NaN. now rewrite digits_of_NaN.
  - replace (parseFloat (sign_prefix negative ++ "Infinity"))
      with (PN_Infinity negative) by (destruct negative; reflexivity).
    now rewrite digits_of_Infinity.
  - change (parseFloat "0") with (PN_Decimal false 0 0).
    now rewrite digits_of_zero.
  - destruct (digits_well_formed _ _ _ _ Hx) as [Hne Hall].
    destruct (parseFloat_format_finite negative ds n Hne Hall)
      as (m & e & -> & Hsame).
    rewrite (toNumber_of_value _ _ _ _ _ Hsame).
    rewrite (toNumber_of_digits _ _ _ _ Hx), Hx. reflexivity.
Qed.

(** C7: the normalize stage is idempotent: applied twice it yields the
    record it yields applied once.  Lowercasing is a fixed point on its
    output, and so is the canonical text of a number: [parseFloat] reads
    every layout of [Number.prototype.toString] back to the digits and the
    exponent it was printed from.  The engine is assumed to round a decimal
    by its value, to print a number with digits that round to it, and to
    print NaN, the infinities and zero as such. *)
Theorem normalize_idempotent :
  forall input : IntentResult,
    normalize toNumber (Number_toString Number_digits)
      (normalize toNumber (Number_toString Number_digits) input)
    = normalize toNumber (Number_toString Number_digits) input.
Proof.
  intros input. apply normalize_fixed. exact Number_toString_fixed.
Qed.

End NumberToString.

(** The engine of integers meets the assumptions. *)
Lemma integer_value_same (m : N) (e : Z) (m' : N) (e' : Z) :
  same_decimal m e m' e' -> integer_value m e = integer_value m' e'.
Proof.
  unfold same_decimal, integer_value. intros H.
  set (M := Z.of_N m) in *. set (M' := Z.of_N m') in *.
  assert (Hpow : forall a b, (0 <= a)%Z -> (0 <= b)%Z ->
                   (10 ^ (a + b) = 10 ^ a * 10 ^ b)%Z)
    by (intros; apply Z.pow_add_r; lia).
  assert (Hpos : forall a, (0 <= a)%Z -> (0 < 10 ^ a)%Z)
    by (intros; apply Z.pow_pos_nonneg; lia).
  destruct (0 <=? e)%Z eqn:He; destruct (0 <=? e')%Z eqn:He';
    try apply Z.leb_le in He; try apply Z.leb_le in He';
    try apply Z.leb_gt in He; try apply Z.leb_gt in He'.
  - (* both exponents non-negative *)
    f_equal.
    assert (E1 : (10 ^ e = 10 ^ (e - Z.min e e') * 10 ^ Z.min e e')%Z)
      by (rewrite <- Hpow by lia; f_equal; lia).
    assert (E2 : (10 ^ e' = 10 ^ (e' - Z.min e e') * 10 ^ Z.min e e')%Z)
      by (rewrite <- Hpow by lia; f_equal; lia).
    rewrite E1, E2, !Z.mul_assoc, H. reflexivity.
  - replace (Z.min e e') with e' in H by lia.
    replace (e' - e')%Z with 0%Z in H by lia.
    replace (e - e')%Z with (e + - e')%Z in H by lia.
    rewrite Hpow in H by lia. rewrite Z.pow_0_r, Z.mul_1_r in H.
    rewrite <- H, Z.mul_assoc.
    rewrite Z.mod_mul by (specialize (Hpos (- e')%Z); lia).
    rewrite Z.div_mul by (specialize (Hpos (- e')%Z); lia).
    reflexivity.
  - replace (Z.min e e') with e in H by lia.
    replace (e - e)%Z with 0%Z in H by lia.
    replace (e' - e)%Z with (e' + - e)%Z in H by lia.
    rewrite Hpow in H by lia. rewrite Z.pow_0_r, Z.mul_1_r in H.
    rewrite H, Z.mul_assoc.
    rewrite Z.mod_mul by (specialize (Hpos (- e)%Z); lia).
    rewrite Z.div_mul by (specialize (Hpos (- e)%Z); lia).
    reflexivity.
  - destruct (Z.le_ge_cases e e') as [Hle|Hle].
    + replace (Z.min e e') with e in H by lia.
      replace (e - e)%Z with 0%Z in H by lia.
      rewrite Z.pow_0_r, Z.mul_1_r in H.
      replace (- e)%Z with (- e' + (e' - e))%Z by lia.
      rewrite Hpow by lia. rewrite H.
      pose proof (Hpos (e' - e)%Z ltac:(lia)).
      pose proof (Hpos (- e')%Z ltac:(lia)).
      rewrite Z.mul_mod_distr_r by lia.
      rewrite Z.div_mul_cancel_r by lia.
      destruct (M' mod 10 ^ (- e') =? 0)%Z eqn:Hm.
      * apply Z.eqb_eq in Hm. rewrite Hm. reflexivity.
      * apply Z.eqb_neq in Hm.
        replace (M' mod 10 ^ (- e') * 10 ^ (e' - e) =? 0)%Z with false;
          [reflexivity|]. symmetry. apply Z.eqb_neq. nia.
    + replace (Z.min e e') with e' in H by lia.
      replace (e' - e')%Z with 0%Z in H by lia.
      rewrite Z.pow_0_r, Z.mul_1_r in H.
      replace (- e')%Z with (- e + (e - e'))%Z by lia.
      rewrite Hpow by lia. rewrite <- H.
      pose proof (Hpos (e - e')%Z ltac:(lia)).
      pose proof (Hpos (- e)%Z ltac:(lia)).
      rewrite Z.mul_mod_distr_r by lia.
      rewrite Z.div_mul_cancel_r by lia.
      destruct (M mod 10 ^ (- e) =? 0)%Z eqn:Hm.
      * apply Z.eqb_eq in Hm. rewrite Hm. reflexivity.
      * apply Z.eqb_neq in Hm.
        replace (M mod 10 ^ (- e) * 10 ^ (e - e') =? 0)%Z with false;
          [reflexivity|]. symmetry. apply Z.eqb_neq. nia.
Qed.

Lemma int_digits_well_formed (x : IntNumber) negative ds n :
  int_digits x = ND_Finite negative ds n ->
  ds <> EmptyString /\ string_forallb is_digit ds = true.
Proof.
  destruct x as [|neg|v]; try discriminate.
  destruct v; cbn [int_digits]; intros H; inversion H; subst;
    split; apply decimal_string_spec.
Qed.

Lemma int_toNumber_of_value negative m e m' e' :
  same_decimal m e m' e' ->
  int_toNumber (PN_Decimal negative m e)
  = int_toNumber (PN_Decimal negative m' e').
Proof.
  intros H. cbn [int_toNumber]. now rewrite (integer_value_same _ _ _ _ H).
Qed.

Lemma int_toNumber_of_digits (x : IntNumber) negative ds n :
  int_digits x = ND_Finite negative ds n ->
  int_toNumber (PN_Decimal negative (digits_value ds)
                  (n - Z.of_nat (length ds))) = x.
Proof.
  destruct x as [|neg|v]; try discriminate.
  destruct v; cbn [int_digits]; intros H; inversion H; subst;
    cbn [int_toNumber];
    destruct (decimal_string_spec (N.pos p)) as (_ & _ & Hv);
    rewrite Hv, Z.sub_diag; unfold integer_value;
    cbn [Z.leb Z.compare Z.ltb]; rewrite Z.pow_0_r, Z.mul_1_r;
    reflexivity.
Qed.

Lemma normalize_idempotent_witness :
  normalize int_toNumber (Number_toString int_digits)
    (normalize int_toNumber (Number_toString int_digits) sample_result)
  = normalize int_toNumber (Number_toString int_digits) sample_result
  /\ map token_value
       (tokens (normalize int_toNumber (Number_toString int_digits)
                  sample_result))
     = ["mail"; "john"; "7"; "times"; "!"].
Proof.
  split.
  - apply (normalize_idempotent IntNumber int_toNumber int_digits
             int_digits_well_formed int_toNumber_of_value
             int_toNumber_of_digits eq_refl (fun _ => eq_refl) eq_refl
             sample_result).
  - reflexivity.
Defined.

(** ** Stage registration *)

(** A stage registered last runs last. *)
Lemma process_use (tokenize : TokenizerOptions -> string -> list Token)
    (this : Pipeline) (component : PipelineComponent) (t : string) :
  process tokenize (use this component) t
  = component (process tokenize this t).
Proof.
  unfold process, use. cbn [components tokenizer].
  now rewrite fold_left_app.
Qed.

(** C8: [use] and [addCustomProcessor] have the same effect and result: on
    the same pipeline and stage both append the stage at the end of the
    component list, change nothing else, and return that pipeline. *)
Theorem addCustomProcessor_is_use :
  forall (this : Pipeline) (component : PipelineComponent),
    addCustomProcessor this component = use this component
    /\ components (use this component)
       = (components this ++ [component])%list
    /\ tokenizer (use this component) = tokenizer this
    /\ config (use this component) = config this.
Proof.
  intros this component. unfold addCustomProcessor, use.
  split; [reflexivity|]. cbn [components tokenizer config]. auto.
Qed.

(** * Further properties *)

(** ** clean and normalize *)





Lemma toLowerCase_char_not_capital (c : ascii) :
  is_capital (toLowerCase_char c) = false.
Proof.
  destruct c as [[] [] [] [] [] [] [] []]; reflexivity.
Qed.

Lemma toLowerCase_no_capital (s : string) :
  string_forallb (fun c => negb (is_capital c)) (toLowerCase s) = true.
Proof.
  induction s as [|c s IH]; simpl; [reflexivity|].
  now rewrite toLowerCase_char_not_capital, IH.
Qed.

Section NormalizeShape.

Variable JSNumber : Type.
Variable toNumber : ParsedNumber -> JSNumber.
Variable numberToString : JSNumber -> string.

Lemma normalize_token_type (token : Token) :
  token_type (normalize_token toNumber numberToString token)
  = token_type token.
Proof.
  unfold normalize_token. destruct (token_type token) eqn:H; cbn; congruence.
Qed.

(** X2: normalize changes values only: the text, the number of tokens and
    of entities, their order, and the type, start and end of each are kept;
    afterwards no entity value and no word token holds a capital letter. *)
Theorem normalize_keeps_types_and_spans :
  forall input : IntentResult,
    let out := normalize toNumber numberToString input in
    text out = text input
    /\ map token_type (tokens out) = map token_type (tokens input)
    /\ map token_start (tokens out) = map token_start (tokens input)
    /\ map token_end (tokens out) = map token_end (tokens input)
    /\ map entity_type (entities out) = map entity_type (entities input)
    /\ map entity_start (entities out) = map entity_start (entities input)
    /\ map entity_end (entities out) = map entity_end (entities input)
    /\ Forall (fun e => string_forallb (fun c => negb (is_capital c))
                          (entity_value e) = true) (entities out)
    /\ Forall (fun token =>
                 match token_type token with
                 | T_word => string_forallb (fun c => negb (is_capital c))
                               (token_value token) = true
                 | _ => True
                 end) (tokens out).
Proof.
  intros input out. subst out. unfold normalize. cbn [text tokens entities].
  rewrite !map_map.
  repeat split; try reflexivity.
  - apply map_ext. intros t. apply normalize_token_type.
  - apply map_ext. intros t. unfold normalize_token.
    destruct (token_type t); reflexivity.
  - apply map_ext. intros t. unfold normalize_token.
    destruct (token_type t); reflexivity.
  - apply Forall_map, Forall_forall. intros e _. cbn.
    apply toLowerCase_no_capital.
  - apply Forall_map, Forall_forall. intros t _. unfold normalize_token.
    destruct (token_type t) eqn:Ht; cbn; rewrite ?Ht; auto.
    apply toLowerCase_no_capital.
Qed.

(** X3: clean and normalize commute: the two built-in stages give the same
    record in either order. *)
Theorem clean_normalize_commute :
  forall input : IntentResult,
    clean (normalize toNumber numberToString input)
    = normalize toNumber numberToString (clean input).
Proof.
  intros input. unfold clean, normalize. cbn [text tokens entities].
  f_equal. induction (tokens input) as [|t l IH]; [reflexivity|].
  cbn [map filter]. rewrite normalize_token_type.
  destruct (token_type t); cbn [map]; now rewrite IH.
Qed.

End NormalizeShape.

(** ** The pipeline *)

(** X4: stages run in the order they were registered, whichever of [use]
    and [addCustomProcessor] registered them: a stage added to a pipeline
    runs on what the pipeline produced before it was added. *)
Theorem stages_run_in_registration_order :
  forall (tokenize : TokenizerOptions -> string -> list Token)
         (this : Pipeline) (a b : PipelineComponent) (t : string),
    process tokenize (use this a) t = a (process tokenize this t)
    /\ process tokenize (addCustomProcessor (use this a) b) t
       = b (a (process tokenize this t))
    /\ process tokenize
         {| components := []; tokenizer := tokenizer this;
            config := config this |} t
       = tokenized tokenize (tokenizer this) t.
Proof.
  intros tokenize this a b t. unfold process, addCustomProcessor, use.
  cbn [components tokenizer]. rewrite !fold_left_app. repeat split.
Qed.

Section ConstructedPipeline.

Variable JSNumber : Type.
Variable toNumber : ParsedNumber -> JSNumber.
Variable numberToString : JSNumber -> string.
Variable tokenize : TokenizerOptions -> string -> list Token.

(** X5: a pipeline built with extraction and segmentation switched off
    reports no entity on any text, whatever the four extraction flags say:
    it returns the tokens of the tokenizer, normalized and then cleaned as
    the two other flags ask. *)
Theorem pipeline_without_extraction_reports_no_entity :
  forall (stages : BuiltinStages) (cfg : MiniparseConfig) (t : string),
    stage_normalize stages = normalize toNumber numberToString ->
    stage_clean stages = clean ->
    enableExtraction (config_pipeline cfg) = false ->
    enableSegmentation (config_pipeline cfg) = false ->
    let start :=
      tokenized tokenize
        {| lowercase := lowercase (config_tokenizer cfg);
           mergeSymbols := mergeSymbols (config_tokenizer cfg) |} t in
    let normalized :=
      if enableNormalization (config_pipeline cfg)
      then normalize toNumber numberToString start else start in
    process tokenize (construct stages cfg) t
    = (if enableCleaning (config_pipeline cfg)
       then clean normalized else normalized)
    /\ entities (process tokenize (construct stages cfg) t) = [].
Proof.
  intros stages cfg t Hn Hc Hx Hs start normalized.
  assert (Hp : process tokenize (construct stages cfg) t
               = (if enableCleaning (config_pipeline cfg)
                  then clean normalized else normalized)).
  { unfold construct, process. rewrite Hx, Hs, Hn, Hc.
    subst normalized start. unfold use_when, use, tokenized.
    destruct (enableNormalization (config_pipeline cfg));
      destruct (enableCleaning (config_pipeline cfg)); reflexivity. }
  split; [exact Hp|]. rewrite Hp. subst normalized start.
  destruct (enableNormalization (config_pipeline cfg));
    destruct (enableCleaning (config_pipeline cfg)); reflexivity.
Qed.

End ConstructedPipeline.

Lemma pipeline_without_extraction_reports_no_entity_witness :
  let stages :=
    {| stage_normalize := normalize int_toNumber (Number_toString int_digits);
       stage_clean := clean;
       stage_extractEmailsOnly := fun r => r;
       stage_extractPhonesOnly := fun r => r;
       stage_extractUrlsOnly := fun r => r;
       stage_extractNumbersOnly := fun r => r;
       stage_segment := fun r => r |} in
  let cfg :=
    {| config_tokenizer := {| lowercase := false; mergeSymbols := false |};
       config_pipeline :=
         {| enableNormalization := true; enableCleaning := true;
            enableExtraction := false; enableSegmentation := false |};
       config_extraction :=
         {| extractEmailsFlag := true; extractPhonesFlag := true;
            extractUrlsFlag := true; extractNumbersFlag := true |} |} in
  let tokenize := fun (_ : TokenizerOptions) (_ : string) =>
                    tokens sample_result in
  entities (process tokenize (construct stages cfg) (text sample_result)) = []
  /\ map token_value
       (tokens (process tokenize (construct stages cfg) (text sample_result)))
     = ["mail"; "john"; "7"; "times"].
Proof.
  intros stages cfg tokenize. split.
  - apply (pipeline_without_extraction_reports_no_entity
             IntNumber int_toNumber (Number_toString int_digits) tokenize
             stages cfg (text sample_result));
      reflexivity.
  - reflexivity.
Defined.

(** ** Order of the entities of one scan *)

Lemma spans_in_order_snoc (e : Entity) (l : list Entity) :
  forall from,
    spans_in_order from l ->
    last_end from l <= entity_start e -> entity_start e < entity_end e ->
    spans_in_order from (l ++ [e]).
Proof.
  unfold last_end. induction l as [|x l IH]; intros from Hl Hle Hlt.
  - cbn in *. auto.
  - cbn [app spans_in_order fold_left] in *.
    destruct Hl as (H1 & H2 & H3). repeat split; auto.
Qed.

Lemma last_end_snoc (e : Entity) (l : list Entity) (from : nat) :
  last_end from (l ++ [e]) = entity_end e.
Proof. unfold last_end. now rewrite fold_left_app. Qed.

(** A loop that scans the text from left to right, and pushes on each
    iteration at most one entity that lies between the old and the new
    position, appends entities in order. *)
Section Scan.

Variable cond : nat * IntentResult -> bool.
Variable body : nat * IntentResult -> LoopStep (nat * IntentResult).
Variable Q : string -> Entity -> Prop.

Hypothesis body_continue :
  forall pos st s',
    cond (pos, st) = true -> body (pos, st) = Continue s' ->
    scan_step Q pos st s'.

Hypothesis body_break :
  forall pos st s', body (pos, st) = Break s' -> snd s' = st.

Lemma scan_appends_in_order (input : IntentResult) :
  forall n pos st,
    (exists new,
       text st = text input /\ tokens st = tokens input
       /\ entities st = (entities input ++ new)%list
       /\ Forall (Q (text input)) new /\ spans_in_order 0 new
       /\ last_end 0 new <= pos) ->
    appends_in_order (Q (text input)) input
      (snd (while_steps n cond body (pos, st))).
Proof.
  induction n as [|n IH]; intros pos st (new & Ht & Hk & He & HQ & Ho & Hl).
  - cbn. repeat split; try assumption. eauto.
  - cbn [while_steps].
    assert (Hhere : appends_in_order (Q (text input)) input st)
      by (repeat split; try assumption; eauto).
    destruct (cond (pos, st)) eqn:Hc; [|exact Hhere].
    destruct (body (pos, st)) as [s'|s'] eqn:Hb.
    + destruct (body_continue _ _ _ Hc Hb) as (Hpos & Hs').
      destruct s' as [pos' st']. cbn [fst snd] in *.
      apply IH. destruct Hs' as [->|(e & -> & Hq & H1 & H2 & H3)].
      * exists new. repeat split; try assumption. lia.
      * exists (new ++ [e])%list. cbn [push_entity text tokens entities].
        repeat split; try assumption.
        -- now rewrite He, app_assoc.
        -- apply Forall_app. split; [assumption|].
           constructor; [now rewrite <- Ht|constructor].
        -- apply spans_in_order_snoc; [assumption|lia|assumption].
        -- rewrite last_end_snoc. assumption.
    + rewrite (body_break _ _ _ Hb). exact Hhere.
Qed.

Lemma scan_from_start (input : IntentResult) (n : nat) :
  appends_in_order (Q (text input)) input
    (snd (while_steps n cond body (0, input))).
Proof.
  apply scan_appends_in_order. exists []. rewrite app_nil_r.
  cbn. repeat split; auto.
Qed.

End Scan.

Lemma extractEmails_scan_step (lastIndex : nat) (input : IntentResult)
    (s' : nat * IntentResult) :
  extractEmails_body (lastIndex, input) = Continue s' ->
  scan_step email_entity lastIndex input s'.
Proof.
  unfold extractEmails_body, scan_step.
  destruct (regex_exec emailPattern (text input) lastIndex)
    as [[index len]|] eqn:Hx; [|discriminate].
  destruct (emailPattern_exec _ _ _ _ Hx) as (Hle & Hpos & Hend & Hlen & Hsh).
  intros H. inversion H; subst; clear H. cbn [fst snd].
  replace (index =? index + len) with false
    by (symmetry; apply Nat.eqb_neq; lia).
  split; [lia|]. right. eexists. split; [reflexivity|].
  unfold email_entity, entity_in_text. cbn [entity_type entity_value
    entity_start entity_end]. rewrite Hlen.
  repeat split; try lia; assumption.
Qed.

Lemma extractNumbers_scan_step (i : nat) (input : IntentResult)
    (s' : nat * IntentResult) :
  extractNumbers_cond (i, input) = true ->
  extractNumbers_body (i, input) = Continue s' ->
  scan_step number_entity i input s'.
Proof.
  unfold extractNumbers_cond, extractNumbers_body, scan_step.
  cbn [fst snd]. intros Hc. apply Nat.ltb_lt in Hc.
  destruct (number_candidate (text input) i) as [start stop] eqn:Hcand.
  destruct (number_candidate_bounds _ _ _ _ Hcand) as (H1 & H2 & H3).
  destruct (length (text input) <=? start); [discriminate|].
  destruct (start <? stop) eqn:Hlt.
  - apply Nat.ltb_lt in Hlt.
    pose proof (number_candidate_literal _ _ _ _ Hcand Hlt) as Hlit.
    destruct (isNumber (js_substring (text input) start stop)) eqn:Hnum;
      intros H; inversion H; subst; clear H; cbn [fst snd];
      (split; [lia|]).
    + right. eexists. split; [reflexivity|].
      unfold number_entity, entity_in_text. cbn [entity_type entity_value
        entity_start entity_end].
      repeat split; try lia; assumption.
    + now left.
  - intros H; inversion H; subst; clear H. cbn [fst snd].
    split; [lia|now left].
Qed.

Lemma extractNumbers_body_on_break (i : nat) (input : IntentResult)
    (s' : nat * IntentResult) :
  extractNumbers_body (i, input) = Break s' -> snd s' = input.
Proof.
  unfold extractNumbers_body.
  destruct (number_candidate (text input) i) as [start stop].
  destruct (length (text input) <=? start);
    [intros H; inversion H; reflexivity|].
  destruct (start <? stop);
    [destruct (isNumber (js_substring (text input) start stop))|];
    discriminate.
Qed.

(** ** Substrings, character by character *)

Lemma string_forallb_get (p : ascii -> bool) (s : string) :
  (forall j c, get j s = Some c -> p c = true) ->
  string_forallb p s = true.
Proof.
  induction s as [|c s IH]; intros H; cbn [string_forallb]; [reflexivity|].
  rewrite (H 0 c eq_refl). apply IH. intros j d Hj. apply (H (S j) d Hj).
Qed.

Lemma get_substring (t : string) (a m j : nat) (c : ascii) :
  get j (substring a m t) = Some c -> j < m /\ get (j + a) t = Some c.
Proof.
  intros H. destruct (Nat.lt_ge_cases j m) as [Hlt|Hge].
  - split; [assumption|]. now rewrite <- (substring_correct1 t a m j Hlt).
  - rewrite (substring_correct2 t a m j Hge) in H. discriminate.
Qed.

Lemma substring_of_substring (t : string) (a m k : nat) :
  k <= m -> substring 0 k (substring a m t) = substring a k t.
Proof.
  intros Hk. apply get_correct. intros j.
  destruct (Nat.lt_ge_cases j k) as [Hlt|Hge].
  - rewrite (substring_correct1 _ 0 k j) by lia.
    rewrite (substring_correct1 t a m (j + 0)) by lia.
    rewrite (substring_correct1 t a k j) by lia.
    f_equal. lia.
  - now rewrite !substring_correct2 by lia.
Qed.

Lemma substring_append (t : string) (a k m : nat) :
  substring a (k + m) t = (substring a k t ++ substring (a + k) m t)%string.
Proof.
  rewrite (substring_drop a), (substring_drop a k), (substring_drop (a + k)).
  rewrite <- drop_drop. generalize (drop a t). clear t a. intros s.
  revert s. induction k as [|k IH]; intros s.
  - cbn [Nat.add drop]. destruct s; [destruct m|]; reflexivity.
  - destruct s as [|c s]; cbn [Nat.add substring drop append].
    + destruct m; reflexivity.
    + now rewrite IH.
Qed.

(** ** The URL scan *)

Lemma find_url_end_no_terminator (n : nat) (t : string) :
  forall urlEnd j,
    urlEnd <= j -> j < find_url_end n t urlEnd ->
    exists c, charAt t j = Some c /\ not_url_terminator c = true.
Proof.
  induction n as [|n IH]; intros urlEnd j Hle Hlt; cbn [find_url_end] in Hlt;
    [lia|].
  destruct (urlEnd <? length t); [|lia].
  destruct (charAt t urlEnd) as [c|] eqn:Hc; [|lia].
  destruct (char_in url_terminators c) eqn:Hterm; [lia|].
  destruct (Nat.eq_dec j urlEnd) as [->|Hne].
  - exists c. split; [assumption|]. unfold not_url_terminator. now rewrite Hterm.
  - apply (IH (S urlEnd)); [lia|assumption].
Qed.

Lemma extractUrls_scan_step (protocol : string) (searchStart : nat)
    (input : IntentResult) (s' : nat * IntentResult) :
  protocol <> EmptyString ->
  string_forallb not_url_terminator protocol = true ->
  extractUrls_body protocol (searchStart, input) = Continue s' ->
  scan_step (url_entity_of protocol) searchStart input s'.
Proof.
  intros Hne Hproto. unfold extractUrls_body, scan_step.
  destruct (indexOf (text input) protocol searchStart) as [pidx|] eqn:Hidx;
    [|discriminate].
  unfold indexOf in Hidx.
  pose proof (index_from _ _ _ _ Hidx) as Hfrom.
  pose proof (index_inside _ _ _ _ Hne Hidx) as Hin.
  pose proof (index_correct1 _ _ _ _ Hidx) as Hocc.
  assert (Hp : 0 < length protocol)
    by (destruct protocol; [congruence|simpl; lia]).
  pose proof (find_url_end_bounds
                (length (text input) - (pidx + length protocol)) (text input)
                (pidx + length protocol)) as Hend.
  pose proof (find_url_end_no_terminator
                (length (text input) - (pidx + length protocol)) (text input)
                (pidx + length protocol)) as Hchars.
  set (urlEnd := find_url_end _ _ _) in *.
  intros H. inversion H; subst; clear H. cbn [fst snd].
  replace (searchStart <? urlEnd) with true
    by (symmetry; apply Nat.ltb_lt; lia).
  split; [lia|].
  destruct (negb (js_substring (text input) pidx urlEnd =? "")%string
            && isValidUrl (js_substring (text input) pidx urlEnd)) eqn:Hv;
    [|now left].
  right. eexists. split; [reflexivity|].
  apply andb_true_iff in Hv as [_ Hv].
  assert (Hurl : js_substring (text input) pidx urlEnd
                 = (protocol
                    ++ substring (pidx + length protocol)
                         (urlEnd - (pidx + length protocol)) (text input))%string).
  { unfold js_substring.
    replace (Nat.min pidx urlEnd) with pidx by lia.
    replace (Nat.max pidx urlEnd - pidx)
      with (length protocol + (urlEnd - (pidx + length protocol))) by lia.
    now rewrite substring_append, Hocc. }
  unfold url_entity_of, entity_in_text.
  cbn [entity_type entity_value entity_start entity_end].
  repeat split; try lia; try assumption.
  - rewrite Hurl. apply prefix_correct. apply substring_0_append.
  - rewrite Hurl, string_forallb_append, Hproto. cbn [andb].
    apply string_forallb_get. intros j c Hj.
    apply get_substring in Hj as [Hj Hc].
    destruct (Hchars (j + (pidx + length protocol))) as (d & Hd & Hnt);
      [lia|lia|].
    unfold charAt in Hd. congruence.
Qed.

Lemma extractUrls_pass (protocol : string) (input : IntentResult)
    (fuel : nat) :
  protocol <> EmptyString ->
  string_forallb not_url_terminator protocol = true ->
  length (text input) < fuel ->
  exists out,
    extractUrls_protocol fuel protocol input = Some out
    /\ appends_in_order (url_entity_of protocol (text input)) input out.
Proof.
  intros Hne Hproto Hfuel.
  destruct (extractUrls_protocol_terminates protocol input fuel Hne Hfuel)
    as (out & Hout & _).
  exists out. split; [assumption|].
  unfold extractUrls_protocol in Hout.
  destruct (while_loop fuel extractUrls_cond (extractUrls_body protocol)
              (0, input)) as [s'|] eqn:Hs; [|discriminate].
  inversion Hout; subst; clear Hout.
  apply while_loop_steps in Hs. rewrite <- Hs.
  apply scan_from_start.
  - intros pos st s1 _ Hb. now apply extractUrls_scan_step.
  - intros pos st s1 Hb. now apply (extractUrls_body_break protocol pos).
Qed.

(** X6: the email extractor returns on every text, and the entities it
    appends are emails of the text that follow one another from left to
    right without overlap: each starts at or after the end of the one
    before. *)
Theorem extractEmails_appends_in_order :
  forall input : IntentResult,
    exists out,
      extractEmails (length (text input) + 2) input = Some out
      /\ appends_in_order (email_entity (text input)) input out.
Proof.
  intros input.
  destruct (extractEmails_terminates input (length (text input) + 2))
    as [out Hout]; [lia|].
  exists out. split; [assumption|].
  unfold extractEmails in Hout.
  destruct (while_loop (length (text input) + 2) (fun _ => true)
              extractEmails_body (0, input)) as [s'|] eqn:Hs; [|discriminate].
  inversion Hout; subst; clear Hout.
  apply while_loop_steps in Hs. rewrite <- Hs.
  apply scan_from_start.
  - intros pos st s1 _ Hb. now apply extractEmails_scan_step.
  - intros pos st s1 Hb. now apply (extractEmails_body_break pos).
Qed.

(** X7: the URL extractor returns on every text, after one pass for
    ["http://"] and one for ["https://"].  Each pass appends its entities
    from left to right without overlap; every entity starts with the
    protocol of its pass, holds no white space and no bracket, is a
    substring of the text at its offsets and passes [isValidUrl]. *)
Theorem extractUrls_passes :
  forall input : IntentResult,
    exists mid out,
      extractUrls_protocol (length (text input) + 1) "http://" input
      = Some mid
      /\ extractUrls_protocol (length (text input) + 1) "https://" mid
         = Some out
      /\ extractUrls (length (text input) + 1) input = Some out
      /\ appends_in_order (url_entity_of "http://" (text input)) input mid
      /\ appends_in_order (url_entity_of "https://" (text input)) mid out.
Proof.
  intros input.
  destruct (extractUrls_pass "http://" input (length (text input) + 1))
    as (mid & Hmid & Hord1); [discriminate|reflexivity|lia|].
  assert (Ht : text mid = text input) by apply Hord1.
  destruct (extractUrls_pass "https://" mid (length (text input) + 1))
    as (out & Hout & Hord2); [discriminate|reflexivity|rewrite Ht; lia|].
  exists mid, out. rewrite Ht in Hord2.
  split; [assumption|]. split; [assumption|].
  split; [|split; assumption].
  unfold extractUrls, protocols. cbn [fold_left]. now rewrite Hmid.
Qed.

(** ** The number scan, in order *)

Lemma extractNumbers_steps_in_order (input : IntentResult) (n : nat) :
  appends_in_order (number_entity (text input)) input
    (snd (while_steps n extractNumbers_cond extractNumbers_body (0, input))).
Proof.
  apply scan_from_start.
  - intros pos st s1 Hc Hb. now apply extractNumbers_scan_step.
  - intros pos st s1 Hb. now apply (extractNumbers_body_on_break pos).
Qed.

Lemma extractNumbers_result (input out : IntentResult) (fuel : nat) :
  extractNumbers fuel input = Some out ->
  appends_in_order (number_entity (text input)) input out.
Proof.
  unfold extractNumbers. intros H.
  destruct (while_loop fuel extractNumbers_cond extractNumbers_body (0, input))
    as [s'|] eqn:Hs; [|discriminate].
  inversion H; subst; clear H.
  apply while_loop_steps in Hs. rewrite <- Hs.
  apply extractNumbers_steps_in_order.
Qed.

(** X8: whatever number of iterations the number loop has run, the entities
    it has appended are numbers of the text in the form [digits],
    [digits.digits] or [.digits] that pass [isNumber], from left to right
    without overlap; on a text where every ['.'] stands between two digits
    the extractor returns such a list. *)
Theorem extractNumbers_appends_in_order :
  (forall (input : IntentResult) (n : nat),
     appends_in_order (number_entity (text input)) input
       (snd (while_steps n extractNumbers_cond extractNumbers_body
               (0, input))))
  /\ (forall input : IntentResult,
        periods_between_digits (text input) ->
        exists out,
          extractNumbers (length (text input) + 1) input = Some out
          /\ appends_in_order (number_entity (text input)) input out).
Proof.
  split; [exact extractNumbers_steps_in_order|].
  intros input Hall.
  destruct (extractNumbers_terminates input (length (text input) + 1) Hall)
    as [out Hout]; [lia|].
  exists out. split; [assumption|]. eapply extractNumbers_result; eassumption.
Qed.

Lemma extractNumbers_appends_in_order_witness :
  exists out,
    extractNumbers 13 (initial "1.5 and 0.25") = Some out
    /\ appends_in_order (number_entity "1.5 and 0.25")
         (initial "1.5 and 0.25") out.
Proof.
  apply (proj2 extractNumbers_appends_in_order (initial "1.5 and 0.25")).
  intros p. do 12 (destruct p as [|p]; [vm_compute; congruence|]).
  vm_compute. discriminate.
Defined.

(** ** extract: the four extractors in sequence *)

Lemma appends_in_order_appends (Q : Entity -> Prop)
    (input out : IntentResult) :
  appends_in_order Q input out -> appends Q input out.
Proof.
  intros (Ht & Hk & new & He & HQ & _). repeat split; eauto.
Qed.

Lemma extractUrls_protocol_result (protocol : string)
    (input out : IntentResult) (fuel : nat) :
  protocol <> EmptyString ->
  string_forallb not_url_terminator protocol = true ->
  extractUrls_protocol fuel protocol input = Some out ->
  appends_in_order (url_entity_of protocol (text input)) input out.
Proof.
  intros Hne Hproto Hout. unfold extractUrls_protocol in Hout.
  destruct (while_loop fuel extractUrls_cond (extractUrls_body protocol)
              (0, input)) as [s'|] eqn:Hs; [|discriminate].
  inversion Hout; subst; clear Hout.
  apply while_loop_steps in Hs. rewrite <- Hs.
  apply scan_from_start.
  - intros pos st s1 _ Hb. now apply extractUrls_scan_step.
  - intros pos st s1 Hb. now apply (extractUrls_body_break protocol pos).
Qed.

Lemma extractUrls_result (input out : IntentResult) (fuel : nat) :
  extractUrls fuel input = Some out ->
  appends (url_entity_any (text input)) input out.
Proof.
  unfold extractUrls, protocols. cbn [fold_left].
  destruct (extractUrls_protocol fuel "http://" input) as [mid|] eqn:Hmid;
    [|discriminate].
  intros Hout.
  apply extractUrls_protocol_result in Hmid; [|discriminate|reflexivity].
  apply extractUrls_protocol_result in Hout; [|discriminate|reflexivity].
  apply appends_in_order_appends in Hmid, Hout.
  assert (Ht : text mid = text input) by apply Hmid.
  rewrite Ht in Hout.
  eapply appends_trans.
  - eapply appends_weaken; [|exact Hmid]. intros e He. now left.
  - eapply appends_weaken; [|exact Hout]. intros e He. now right.
Qed.

(** The ['.'] before the last label of an email is followed by a letter. *)
Lemma email_has_stray_period (t : string) (e : Entity) :
  email_entity t e -> has_stray_period t.
Proof.
  intros (_ & (Hlt & Hend & Hval) & Hshape).
  destruct Hshape as (local & domain & tld & Hv & _ & _ & _ & _ & Htld & Hlen).
  destruct tld as [|c tld]; [simpl in Hlen; lia|].
  cbn [string_forallb] in Htld. apply andb_true_iff in Htld as [Hc _].
  set (q := length (local ++ "@" ++ domain)).
  assert (Hshape : entity_value e
                   = ((local ++ "@" ++ domain) ++ String "." (String c tld))%string)
    by (rewrite Hv, !append_assoc; reflexivity).
  assert (Hq : get q (entity_value e) = Some "."%char).
  { rewrite Hshape. unfold q.
    pose proof (append_correct2 (local ++ "@" ++ domain)
                  (String "." (String c tld)) 0) as H0.
    cbn [Nat.add get] in H0. now rewrite <- H0. }
  assert (Hq1 : get (S q) (entity_value e) = Some c).
  { rewrite Hshape. unfold q.
    pose proof (append_correct2 (local ++ "@" ++ domain)
                  (String "." (String c tld)) 1) as H1.
    cbn [Nat.add get] in H1. now rewrite <- H1. }
  unfold js_substring in Hval.
  replace (Nat.min (entity_start e) (entity_end e)) with (entity_start e)
    in Hval by lia.
  replace (Nat.max (entity_start e) (entity_end e) - entity_start e)
    with (entity_end e - entity_start e) in Hval by lia.
  rewrite Hval in Hq, Hq1.
  apply get_substring in Hq as [_ Hq]. apply get_substring in Hq1 as [_ Hq1].
  exists (q + entity_start e). split; [exact Hq|].
  unfold between_digits, charAt.
  replace (q + entity_start e + 1) with (S q + entity_start e) by lia.
  rewrite Hq1.
  replace (isDigit (Some c)) with false; [now rewrite andb_false_r|].
  clear - Hc. destruct c as [[] [] [] [] [] [] [] []];
    vm_compute in Hc |- *; congruence.
Qed.

Lemma extract_on_stray_period (input : IntentResult) (fuel : nat) :
  has_stray_period (text input) -> extract fuel input = None.
Proof.
  intros (p & Hp & Hb). unfold extract.
  destruct (extractEmails fuel input) as [input1|] eqn:H1; [|reflexivity].
  apply extractEmails_appends in H1. destruct H1 as (Ht1 & _).
  destruct (extractPhones_entities input1) as (phones & Hph & _).
  destruct (extractUrls fuel (extractPhones input1)) as [input2|] eqn:H2;
    [|reflexivity].
  apply extractUrls_result in H2. destruct H2 as (Ht2 & _).
  rewrite Hph in Ht2. cbn [text] in Ht2.
  apply (extractNumbers_diverges input2 p); congruence.
Qed.

(** X9: [extract] never returns on a text that has a ['.'] which does not
    stand between two digits, because its last step, the number extractor,
    does not; every email has such a ['.'], so [extract] never returns on a
    text in which the email extractor finds an email. *)
Theorem extract_never_returns_on_an_email :
  (forall (input : IntentResult) (fuel : nat),
     has_stray_period (text input) -> extract fuel input = None)
  /\ (forall (input out : IntentResult) (fuel : nat),
        extractEmails fuel input = Some out ->
        entities out <> entities input ->
        forall fuel', extract fuel' input = None).
Proof.
  split; [exact extract_on_stray_period|].
  intros input out fuel Hout Hnew fuel'.
  apply extract_on_stray_period.
  apply extractEmails_appends in Hout.
  destruct Hout as (_ & _ & new & He & Hall).
  destruct new as [|e new]; [rewrite app_nil_r in He; congruence|].
  inversion Hall; subst. eapply email_has_stray_period; eassumption.
Qed.

Lemma extract_never_returns_on_an_email_witness :
  extractEmails 43 (initial "contact me at john.doe@example.com please")
  = Some {| text := "contact me at john.doe@example.com please";
            tokens := [];
            entities := [mkEntity E_email "john.doe@example.com" 14 34] |}
  /\ extract 1000 (initial "contact me at john.doe@example.com please")
     = None.
Proof.
  split; [reflexivity|].
  apply (proj2 extract_never_returns_on_an_email
           (initial "contact me at john.doe@example.com please")
           {| text := "contact me at john.doe@example.com please";
              tokens := [];
              entities := [mkEntity E_email "john.doe@example.com" 14 34] |}
           43).
  - reflexivity.
  - discriminate.
Defined.



(** ** Repeated phone candidates *)

Lemma first_occurrence_unique (t v : string) (m m' : nat) :
  first_occurrence t v m -> first_occurrence t v m' -> m = m'.
Proof.
  intros [H1 H1'] [H2 H2'].
  destruct (Nat.lt_trichotomy m m') as [Hlt|[Heq|Hgt]]; [|assumption|].
  - exfalso. exact (H2' m Hlt H1).
  - exfalso. exact (H1' m' Hgt H2).
Qed.

(** X11: the offsets of a phone entity depend on its value only: when the
    same candidate occurs again in the text, the phone extractor appends
    the very same entity again, with the offsets of the first occurrence. *)
Theorem repeated_phone_candidates_share_offsets :
  (forall input : IntentResult,
     exists new,
       entities (extractPhones input) = (entities input ++ new)%list
       /\ Forall (fun e1 =>
                    Forall (fun e2 =>
                              entity_value e1 = entity_value e2 -> e1 = e2)
                      new) new)
  /\ entities (extractPhones (initial "555-123-4567 or 555-123-4567"))
     = [mkEntity E_phone "555-123-4567" 0 12;
        mkEntity E_phone "555-123-4567" 0 12].
Proof.
  split; [|reflexivity].
  intros input.
  destruct (extractPhones_entities input) as (new & -> & _ & Hall).
  exists new. split; [reflexivity|].
  rewrite Forall_forall in Hall.
  apply Forall_forall. intros e1 H1. apply Forall_forall. intros e2 H2 Hv.
  destruct (Hall e1 H1) as (Ht1 & Hf1 & He1).
  destruct (Hall e2 H2) as (Ht2 & Hf2 & He2).
  rewrite Hv in Hf1, He1.
  pose proof (first_occurrence_unique _ _ _ _ Hf1 Hf2) as Hs.
  destruct e1 as [ty1 v1 s1 e1], e2 as [ty2 v2 s2 e2].
  cbn in *. congruence.
Qed.

(** ** Numbers that isNumber accepts *)

Lemma digit_value_bound (c : ascii) :
  is_digit c = true -> (digit_value c <= 9)%N.
Proof.
  destruct c as [[] [] [] [] [] [] [] []]; vm_compute; intros H;
    try discriminate H; discriminate.
Qed.

Lemma digits_value_acc_bound (ds : string) :
  string_forallb is_digit ds = true ->
  forall acc,
    (digits_value_acc acc ds < (acc + 1) * 10 ^ N.of_nat (length ds))%N.
Proof.
  induction ds as [|c ds IH]; intros Hall acc.
  - cbn. lia.
  - cbn [string_forallb] in Hall. apply andb_true_iff in Hall as [Hc Hall].
    cbn [digits_value_acc length]. specialize (IH Hall (acc * 10 + digit_value c)%N).
    pose proof (digit_value_bound c Hc).
    rewrite Nat2N.inj_succ, N.pow_succ_r'.
    eapply N.lt_le_trans; [exact IH|].
    rewrite N.mul_assoc. apply N.mul_le_mono_r. lia.
Qed.

Lemma digits_value_bound (ds : string) :
  string_forallb is_digit ds = true ->
  (Z.of_N (digits_value ds) < 10 ^ Z.of_nat (length ds))%Z.
Proof.
  intros Hall. pose proof (digits_value_acc_bound ds Hall 0%N) as H.
  unfold digits_value. rewrite N.add_0_l, N.mul_1_l in H.
  apply N2Z.inj_lt in H. rewrite N2Z.inj_pow, nat_N_Z in H. exact H.
Qed.

(** The decimal a literal parses to: its digits, scaled by the number of
    digits after the point. *)
Lemma parseFloat_literal_value (s : string) :
  is_decimal_literal s = true ->
  exists ds frac,
    parseFloat s = PN_Decimal false (digits_value ds) (- Z.of_nat frac)
    /\ string_forallb is_digit ds = true
    /\ length ds <= length s.
Proof.
  unfold is_decimal_literal. intros H.
  assert (Hplain : take_sign (trim_start s) = (false, s)
                   /\ prefix "Infinity" s = false).
  { destruct s as [|c s]; [discriminate H|].
    destruct (is_digit c) eqn:Hc.
    - destruct (digit_is_plain c Hc) as (Hsp & Hm & Hp & _ & HI).
      cbn [trim_start]. rewrite Hsp. cbn [take_sign]. rewrite Hm, Hp.
      split; [reflexivity|]. now apply prefix_Infinity.
    - cbn [take_digits] in H. rewrite Hc in H.
      destruct (take_digits s) as [fp r'].
      apply andb_true_iff in H as [H _]. apply andb_true_iff in H as [H _].
      apply Ascii.eqb_eq in H. subst c. split; reflexivity. }
  destruct Hplain as [Hsign Hinf].
  unfold parseFloat. rewrite Hsign, Hinf.
  destruct (take_digits s) as [ip rest] eqn:Hip.
  destruct (take_digits_split _ _ _ Hip) as (Hs & Hdip & _).
  destruct rest as [|c r].
  - cbn [take_fraction]. rewrite append_nil_r.
    destruct ip as [|d ip]; [discriminate H|].
    exists (String d ip), 0. repeat split; [assumption|].
    rewrite Hs, append_nil_r. lia.
  - unfold take_fraction. destruct (take_digits r) as [fp r'] eqn:Hfp.
    destruct (take_digits_split _ _ _ Hfp) as (Hr & Hdfp & _).
    apply andb_true_iff in H as [H Hr']. apply andb_true_iff in H as [Hdot Hne].
    rewrite Hdot.
    destruct (ip ++ fp)%string eqn:Happ.
    + destruct ip; [|discriminate Happ]. cbn in Happ. subst fp.
      discriminate Hne.
    + exists (ip ++ fp)%string, (length fp). rewrite <- Happ.
      cbn [parse_exponent]. apply String.eqb_eq in Hr'. subst r'.
      cbn [parse_exponent]. rewrite Z.sub_0_l.
      repeat split.
      * now rewrite string_forallb_append, Hdip, Hdfp.
      * rewrite Hs, Hr, !length_append. cbn [length]. rewrite length_append. lia.
Qed.

(** X12: [isNumber] accepts every string of the form [digits],
    [digits.digits] or [.digits] of at most 308 characters: the number
    extractor discards no candidate that short. *)
Theorem isNumber_accepts_short_literals :
  forall s : string,
    is_decimal_literal s = true -> length s <= 308 -> isNumber s = true.
Proof.
  intros s Hlit Hlen.
  destruct (parseFloat_literal_value s Hlit) as (ds & frac & Hp & Hall & Hds).
  unfold isNumber. rewrite Hp. cbn [isNaN isFinite negb andb].
  pose proof (digits_value_bound ds Hall) as Hb.
  assert (Hpow : (10 ^ Z.of_nat (length ds) <= 10 ^ 308)%Z)
    by (apply Z.pow_le_mono_r; lia).
  assert (Hmax : (10 ^ 308 < double_overflow)%Z) by reflexivity.
  unfold rounds_to_finite.
  destruct (0 <=? - Z.of_nat frac)%Z eqn:He.
  - apply Z.leb_le in He. replace (- Z.of_nat frac)%Z with 0%Z by lia.
    apply Z.ltb_lt. rewrite Z.pow_0_r. lia.
  - apply Z.ltb_lt. rewrite Z.opp_involutive.
    assert (1 <= 10 ^ Z.of_nat frac)%Z
      by (pose proof (Z.pow_pos_nonneg 10 (Z.of_nat frac)); lia).
    assert (0 < double_overflow)%Z by reflexivity.
    nia.
Qed.

Lemma isNumber_accepts_short_literals_witness :
  is_decimal_literal "12.50" = true /\ isNumber "12.50" = true.
Proof.
  split; [reflexivity|].
  apply (isNumber_accepts_short_literals "12.50"); [reflexivity|cbn; lia].
Defined.

#[local] Arguments is_key_char : simpl never.
#[local] Arguments is_line_char : simpl never.

(** ** The line pattern of the configuration parser *)

(** A greedy repetition keeps its longest match when the continuation
    rejects every shorter one. *)
Lemma capture_star_greedy {A : Type} (cls : ascii -> bool) (m rest : string) :
  string_forallb cls m = true ->
  head_outside cls rest ->
  forall k : string -> string -> option A,
    (forall m1 m2, m = (m1 ++ m2)%string -> m2 <> ""%string ->
                   k m1 (m2 ++ rest)%string = None) ->
    capture_star cls k (m ++ rest) = k m rest.
Proof.
  induction m as [|c m IH]; intros Hall Hrest k Hk.
  - cbn [append]. destruct rest as [|d rest]; [reflexivity|].
    cbn [capture_star]. cbn in Hrest. now rewrite Hrest.
  - cbn [string_forallb] in Hall. apply andb_true_iff in Hall as [Hc Hall].
    cbn [append capture_star]. rewrite Hc.
    rewrite (IH Hall Hrest (fun m0 r => k (String c m0) r)).
    + destruct (k (String c m) rest) eqn:Hres; [reflexivity|].
      apply (Hk ""%string (String c m)); [reflexivity|discriminate].
    + intros m1 m2 -> Hm2. apply (Hk (String c m1) m2); [reflexivity|exact Hm2].
Qed.

Lemma capture_star_first {A : Type} (cls : ascii -> bool) (m rest : string) :
  string_forallb cls m = true ->
  head_outside cls rest ->
  forall (k : string -> string -> option A) (r : A),
    k m rest = Some r -> capture_star cls k (m ++ rest) = Some r.
Proof.
  induction m as [|c m IH]; intros Hall Hrest k r Hk.
  - cbn [append]. destruct rest as [|d rest]; [exact Hk|].
    cbn [capture_star]. cbn in Hrest. now rewrite Hrest.
  - cbn [string_forallb] in Hall. apply andb_true_iff in Hall as [Hc Hall].
    cbn [append capture_star]. rewrite Hc.
    now rewrite (IH Hall Hrest (fun m0 r => k (String c m0) r) r Hk).
Qed.

Lemma capture_star_none {A : Type} (cls : ascii -> bool) (m rest : string) :
  string_forallb cls m = true ->
  head_outside cls rest ->
  forall k : string -> string -> option A,
    (forall m1 m2, m = (m1 ++ m2)%string ->
                   k m1 (m2 ++ rest)%string = None) ->
    capture_star cls k (m ++ rest) = None.
Proof.
  intros Hall Hrest k Hk.
  rewrite capture_star_greedy; try assumption.
  - apply (Hk m ""%string). now rewrite append_nil_r.
  - intros m1 m2 Hm _. now apply Hk.
Qed.

(** The last repetition of the pattern, followed by the end of input. *)
Lemma capture_line_chars {B : Type} (f : string -> B) (s : string) :
  capture_star is_line_char
    (fun m r => if (r =? "")%string then Some (f m) else None) s
  = if string_forallb is_line_char s then Some (f s) else None.
Proof.
  revert f. induction s as [|c s IH]; intros f; [reflexivity|].
  cbn [capture_star string_forallb].
  destruct (is_line_char c); [|reflexivity].
  rewrite (IH (fun m => f (String c m))). cbn [andb].
  now destruct (string_forallb is_line_char s).
Qed.

Lemma span_split (cls : ascii -> bool) (s m rest : string) :
  span cls s = (m, rest) ->
  s = (m ++ rest)%string /\ string_forallb cls m = true
  /\ head_outside cls rest.
Proof.
  revert m rest. induction s as [|c s IH]; intros m rest H.
  - cbn in H. injection H as <- <-. now repeat split.
  - cbn [span] in H. destruct (cls c) eqn:Hc.
    + destruct (span cls s) as [m' rest'] eqn:Hs. injection H as <- <-.
      destruct (IH _ _ eq_refl) as (-> & Hall & Hrest).
      repeat split; [|exact Hrest]. cbn [string_forallb]. now rewrite Hc.
    + injection H as <- <-. repeat split. exact Hc.
Qed.

Lemma span_append (cls : ascii -> bool) (m rest : string) :
  string_forallb cls m = true -> head_outside cls rest ->
  span cls (m ++ rest) = (m, rest).
Proof.
  induction m as [|c m IH]; intros Hall Hrest.
  - cbn [append]. destruct rest as [|d rest]; [reflexivity|].
    cbn in Hrest. cbn [span]. now rewrite Hrest.
  - cbn [string_forallb] in Hall. apply andb_true_iff in Hall as [Hc Hall].
    cbn [append span]. now rewrite Hc, (IH Hall Hrest).
Qed.

Lemma key_char_not_space (c : ascii) :
  is_key_char c = true ->
  is_space c = false /\ (c =? ":")%char = false /\ (c =? "#")%char = false.
Proof.
  destruct c as [[] [] [] [] [] [] [] []]; vm_compute; intros H;
    try discriminate H; now repeat split.
Qed.

Lemma space_not_key_char (c : ascii) :
  is_space c = true -> is_key_char c = false.
Proof.
  destruct c as [[] [] [] [] [] [] [] []]; vm_compute; intros H;
    try discriminate H; reflexivity.
Qed.

Lemma forallb_tail_head (cls : ascii -> bool) (m m1 m2 : string) (c : ascii) :
  string_forallb cls m = true -> m = (m1 ++ String c m2)%string ->
  cls c = true.
Proof.
  intros Hall ->. rewrite string_forallb_append in Hall.
  apply andb_true_iff in Hall as [_ Hall]. cbn [string_forallb] in Hall.
  now apply andb_true_iff in Hall as [Hc _].
Qed.

(** The backtracking match finds the groups of the left-to-right reading. *)
Lemma line_pattern_groups (line : string) :
  line_pattern line = line_groups line.
Proof.
  unfold line_pattern, line_groups.
  destruct (span is_space line) as [indent r1] eqn:H1.
  destruct (span_split _ _ _ _ H1) as (-> & Hindent & Hr1).
  rewrite capture_star_greedy; [|exact Hindent|exact Hr1|].
  2:{ intros m1 m2 Hm Hm2. destruct m2 as [|c m2]; [contradiction|].
      pose proof (forallb_tail_head _ _ _ _ _ Hindent Hm) as Hc.
      cbn [append capture_plus]. now rewrite (space_not_key_char c Hc). }
  destruct (span is_key_char r1) as [key r2] eqn:H2.
  destruct (span_split _ _ _ _ H2) as (-> & Hkey & Hr2).
  destruct key as [|c key].
  - cbn [append String.eqb]. destruct r2 as [|d r2]; [reflexivity|].
    cbn in Hr2. cbn [capture_plus]. now rewrite Hr2.
  - cbn [string_forallb] in Hkey. apply andb_true_iff in Hkey as [Hc Hkey].
    cbn [append capture_plus String.eqb]. rewrite Hc.
    rewrite capture_star_greedy; [|exact Hkey|exact Hr2|].
    2:{ intros m1 m2 Hm Hm2. destruct m2 as [|d m2]; [contradiction|].
        pose proof (forallb_tail_head _ _ _ _ _ Hkey Hm) as Hd.
        destruct (key_char_not_space d Hd) as (_ & Hcolon & _).
        cbn [append]. 
        destruct d as [[] [] [] [] [] [] [] []]; try reflexivity;
          discriminate Hcolon. }
    destruct r2 as [|d r3]; [reflexivity|].
    destruct (Ascii.eqb d ":") eqn:Hd.
    2:{ destruct d as [[] [] [] [] [] [] [] []]; try reflexivity;
          discriminate Hd. }
    apply Ascii.eqb_eq in Hd. subst d.
    destruct (span is_space r3) as [sp r4] eqn:H3.
    destruct (span_split _ _ _ _ H3) as (-> & Hsp & Hr4).
    destruct (string_forallb is_line_char r4) eqn:Hline.
    + apply capture_star_first; [exact Hsp|exact Hr4|].
      rewrite (capture_line_chars (fun value => (indent, String c key, value))).
      now rewrite Hline.
    + apply capture_star_none; [exact Hsp|exact Hr4|].
      intros m1 m2 Hm.
      rewrite (capture_line_chars (fun value => (indent, String c key, value))).
      now rewrite string_forallb_append, Hline, andb_false_r.
Qed.

Lemma line_groups_shape (line ws key rest : string) :
  line_groups line = Some (ws, key, rest) ->
  exists c key' sp,
    key = String c key'
    /\ line = (ws ++ String c (key' ++ String ":" (sp ++ rest)))%string
    /\ string_forallb is_space ws = true
    /\ is_key_char c = true
    /\ string_forallb is_key_char key' = true
    /\ string_forallb is_space sp = true
    /\ string_forallb is_line_char rest = true.
Proof.
  unfold line_groups. intros H.
  destruct (span is_space line) as [indent r1] eqn:H1.
  destruct (span_split _ _ _ _ H1) as (-> & Hindent & _).
  destruct (span is_key_char r1) as [k r2] eqn:H2.
  destruct (span_split _ _ _ _ H2) as (-> & Hkey & _).
  destruct k as [|c k]; [discriminate H|]. cbn [String.eqb] in H.
  destruct r2 as [|d r3]; [discriminate H|].
  destruct (Ascii.eqb d ":") eqn:Hd.
  2:{ destruct d as [[] [] [] [] [] [] [] []]; try discriminate H;
        discriminate Hd. }
  apply Ascii.eqb_eq in Hd. subst d.
  destruct (span is_space r3) as [sp r4] eqn:H3.
  destruct (span_split _ _ _ _ H3) as (-> & Hsp & _).
  destruct (string_forallb is_line_char r4) eqn:Hline; [|discriminate H].
  injection H as <- <- <-.
  cbn [string_forallb] in Hkey. apply andb_true_iff in Hkey as [Hc Hkey].
  exists c, k, sp. now repeat split.
Qed.

Lemma line_groups_match (ws key sp value : string) :
  string_forallb is_space ws = true ->
  key <> ""%string ->
  string_forallb is_key_char key = true ->
  string_forallb is_space sp = true ->
  head_outside is_space value ->
  string_forallb is_line_char value = true ->
  line_groups (ws ++ key ++ String ":" (sp ++ value)) = Some (ws, key, value).
Proof.
  intros Hws Hne Hkey Hsp Hhead Hvalue. unfold line_groups.
  destruct key as [|c key]; [contradiction|].
  pose proof Hkey as Hkey'. cbn [string_forallb] in Hkey'.
  apply andb_true_iff in Hkey' as [Hc _].
  destruct (key_char_not_space c Hc) as (Hspace & _).
  rewrite span_append; [|exact Hws|exact Hspace].
  rewrite span_append; [|exact Hkey|reflexivity].
  cbn [String.eqb]. rewrite span_append; [|exact Hsp|exact Hhead].
  now rewrite Hvalue.
Qed.

(** ** White space at the ends of a string *)

Lemma trim_start_append (ws rest : string) :
  string_forallb is_space ws = true -> head_outside is_space rest ->
  trim_start (ws ++ rest) = rest.
Proof.
  induction ws as [|c ws IH]; intros Hws Hrest.
  - cbn [append]. destruct rest as [|d rest]; [reflexivity|].
    cbn in Hrest. cbn [trim_start]. now rewrite Hrest.
  - cbn [string_forallb] in Hws. apply andb_true_iff in Hws as [Hc Hws].
    cbn [append trim_start]. rewrite Hc. now apply IH.
Qed.

Lemma trim_head (ws rest : string) (c : ascii) :
  string_forallb is_space ws = true -> is_space c = false ->
  trim (ws ++ String c rest) = String c (trim_end rest).
Proof.
  intros Hws Hc. unfold trim.
  rewrite trim_start_append; [|exact Hws|exact Hc].
  cbn [trim_end]. now rewrite Hc.
Qed.

Lemma trim_spaces (ws : string) :
  string_forallb is_space ws = true -> trim ws = ""%string.
Proof.
  intros Hws. unfold trim.
  rewrite <- (append_nil_r ws). now rewrite trim_start_append.
Qed.

Lemma trim_plain_value (value : string) :
  plain_value value = true ->
  trim value = value /\ value <> ""%string
  /\ head_outside is_space value
  /\ string_forallb is_line_char value = true.
Proof.
  unfold plain_value. intros H.
  apply andb_true_iff in H as [H Hline]. apply andb_true_iff in H as [Hc He].
  apply String.eqb_eq in He.
  destruct value as [|c value]; [discriminate Hc|].
  apply negb_true_iff in Hc.
  repeat split; try assumption; [|discriminate].
  unfold trim. cbn [trim_start]. now rewrite Hc.
Qed.

Lemma append_last (a b rest : string) (c : ascii) :
  (a ++ String c "")%string = (b ++ rest)%string -> rest <> ""%string ->
  exists rest', rest = (rest' ++ String c "")%string.
Proof.
  revert b. induction a as [|x a IH]; intros b H Hrest.
  - destruct b as [|y b].
    + cbn in H. subst rest. now exists ""%string.
    + cbn in H. injection H as _ H. destruct b; [|discriminate H].
      cbn in H. now subst rest.
  - destruct b as [|y b].
    + change ("" ++ rest)%string with rest in H. subst rest.
      now exists (String x a).
    + cbn [append] in H. injection H as _ H. now apply (IH b).
Qed.

(** ** Objects of the heap *)

Section HeapProperties.

Variable JSNumber : Type.

Lemma length_update (h : Heap JSNumber) (ref : nat) (o : JSObject JSNumber) :
  List.length (update h ref o) = List.length h.
Proof.
  revert ref. induction h as [|x h IH]; intros [|ref]; cbn; auto.
Qed.

Lemma firstn_update (h : Heap JSNumber) (n ref : nat)
    (o : JSObject JSNumber) :
  n <= ref -> firstn n (update h ref o) = firstn n h.
Proof.
  revert n ref. induction h as [|x h IH]; intros n ref Hn.
  - now destruct ref.
  - destruct ref as [|ref].
    + now replace n with 0 by lia.
    + destruct n as [|n]; [reflexivity|]. cbn. f_equal. apply IH. lia.
Qed.

Lemma Forall_update (P : JSObject JSNumber -> Prop) (h : Heap JSNumber)
    (ref : nat) (o : JSObject JSNumber) :
  Forall P h -> P o -> Forall P (update h ref o).
Proof.
  intros Hh Ho. revert ref. induction Hh as [|x h Hx Hh IH]; intros ref.
  - destruct ref; constructor.
  - destruct ref as [|ref]; cbn; constructor; auto.
Qed.

Lemma length_put (h : Heap JSNumber) (ref : nat) (key : string)
    (v : JSValue JSNumber) :
  List.length (put h ref key v) = List.length h.
Proof.
  unfold put. destruct (nth_error h ref) as [o|]; [|reflexivity].
  destruct (_ && _); [destruct v|]; try reflexivity; apply length_update.
Qed.

Lemma firstn_put (h : Heap JSNumber) (n ref : nat) (key : string)
    (v : JSValue JSNumber) :
  n <= ref -> firstn n (put h ref key v) = firstn n h.
Proof.
  intros Hn. unfold put. destruct (nth_error h ref) as [o|]; [|reflexivity].
  destruct (_ && _); [destruct v|]; try reflexivity;
    now apply firstn_update.
Qed.

Lemma set_own_sections (props : list (string * JSValue JSNumber))
    (key : string) (ref : nat) :
  Forall (fun kv => exists r, snd kv = V_object r) props ->
  Forall (fun kv => exists r, snd kv = @V_object JSNumber r)
    (set_own props key (V_object ref)).
Proof.
  induction 1 as [|[k w] props Hk Hprops IH]; cbn [set_own].
  - constructor; [now exists ref|constructor].
  - destruct (k =? key)%string; constructor; auto. now exists ref.
Qed.

Lemma put_sections (h : Heap JSNumber) (cur ref : nat) (key : string) :
  only_sections h -> only_sections (put h cur key (V_object ref)).
Proof.
  intros Hh. unfold put. destruct (nth_error h cur) as [o|] eqn:Ho; [|exact Hh].
  assert (Hown : Forall (fun kv => exists r, snd kv = @V_object JSNumber r)
                   (own o)).
  { unfold only_sections in Hh. rewrite Forall_forall in Hh.
    apply Hh. eapply nth_error_In. exact Ho. }
  destruct (_ && _).
  - apply Forall_update; [exact Hh|exact Hown].
  - apply Forall_update; [exact Hh|]. now apply set_own_sections.
Qed.

Lemma adjust_stack_nonempty (levels : IndentLevels) (indent : nat)
    (s : list nat) :
  s <> [] -> adjust_stack levels indent s <> [].
Proof.
  induction s as [|a s IH]; intros Hs; [contradiction|].
  cbn [adjust_stack]. destruct s as [|b s]; [discriminate|].
  destruct (indent <? getIndentLevel levels a); [|discriminate].
  apply IH. discriminate.
Qed.

(** An object whose level does not exceed the indentation of the line stays
    on the stack, below objects created after it. *)
Lemma adjust_stack_keeps (levels : IndentLevels) (indent obj : nat)
    (above below : list nat) :
  getIndentLevel levels obj <= indent ->
  Forall (fun a => obj < a) above ->
  exists above',
    adjust_stack levels indent (above ++ obj :: below)%list
    = (above' ++ obj :: below)%list
    /\ Forall (fun a => obj < a) above'.
Proof.
  intros Hlevel. induction above as [|a above IH]; intros Habove.
  - exists []. split; [|constructor]. cbn [app adjust_stack].
    destruct below as [|b below]; [reflexivity|].
    now replace (indent <? getIndentLevel levels obj) with false
      by (symmetry; apply Nat.ltb_ge; exact Hlevel).
  - inversion Habove as [|? ? Ha Habove']; subst.
    cbn [app adjust_stack].
    destruct (above ++ obj :: below)%list as [|b rest] eqn:Hrest.
    { now destruct above. }
    destruct (indent <? getIndentLevel levels a).
    + now apply IH.
    + exists (a :: above). split; [|exact Habove].
      cbn [app]. now rewrite Hrest.
Qed.

End HeapProperties.

(** ** The loop over the lines *)

Section ParserProperties.

Variable JSNumber : Type.
Variable Number : string -> option JSNumber.

Lemma process_line_matched (st : ParserState JSNumber)
    (line ws key rest : string) :
  line_pattern line = Some (ws, key, rest) ->
  process_line Number st line
  = match adjust_stack (indentLevels st) (length ws) (stack st) with
    | [] => mkParserState (heap st) [] (indentLevels st)
    | currentObj :: below =>
        if (trim rest =? "")%string then
          mkParserState
            (put (heap st ++ [empty_object])%list currentObj key
               (V_object (List.length (heap st))))
            (List.length (heap st) :: currentObj :: below)
            (setIndentLevel (indentLevels st) (List.length (heap st))
               (length ws))
        else
          mkParserState
            (put (heap st) currentObj key
               (parseYAMLValue Number (trim rest)))
            (currentObj :: below) (indentLevels st)
    end.
Proof.
  intros Hp. unfold process_line. rewrite Hp.
  rewrite line_pattern_groups in Hp.
  destruct (line_groups_shape _ _ _ _ Hp)
    as (c & key' & sp & -> & -> & Hws & Hc & _).
  destruct (key_char_not_space c Hc) as (Hspace & _ & Hhash).
  rewrite trim_head; [|exact Hws|exact Hspace].
  cbn [String.eqb orb]. unfold startsWith. cbn [prefix].
  destruct (ascii_dec "#" c) as [<-|_]; [discriminate Hhash|].
  destruct (adjust_stack _ _ _); reflexivity.
Qed.

Lemma process_line_unmatched (st : ParserState JSNumber) (line : string) :
  line_pattern line = None -> process_line Number st line = st.
Proof.
  intros Hp. unfold process_line. rewrite Hp. now destruct (_ || _).
Qed.

Lemma process_line_stack (st : ParserState JSNumber) (line : string) :
  stack st <> [] -> stack (process_line Number st line) <> [].
Proof.
  intros Hs.
  destruct (line_pattern line) as [[[ws key] rest]|] eqn:Hp.
  - rewrite (process_line_matched _ _ _ _ _ Hp).
    pose proof (adjust_stack_nonempty (indentLevels st) (length ws) _ Hs) as Ha.
    destruct (adjust_stack _ _ _) as [|cur below]; [contradiction|].
    destruct (_ =? _)%string; discriminate.
  - now rewrite process_line_unmatched.
Qed.

Lemma fold_process_line_stack (lines : list string)
    (st : ParserState JSNumber) :
  stack st <> [] -> stack (fold_left (process_line Number) lines st) <> [].
Proof.
  revert st. induction lines as [|l lines IH]; intros st Hs; [exact Hs|].
  cbn [fold_left]. apply IH. now apply process_line_stack.
Qed.

Lemma process_line_section_open (obj level : nat) (below : list nat)
    (before : Heap JSNumber) (st : ParserState JSNumber) (line : string) :
  section_open obj level below before st ->
  indented_by level [line] ->
  section_open obj level below before (process_line Number st line).
Proof.
  intros ((above & Hstack & Habove) & Hlevel & Hlen & Hbefore) Hline.
  apply Forall_inv in Hline.
  destruct (line_pattern line) as [[[ws key] rest]|] eqn:Hp.
  2:{ rewrite process_line_unmatched by exact Hp.
      repeat split; try assumption. now exists above. }
  specialize (Hline _ _ _ eq_refl).
  rewrite (process_line_matched _ _ _ _ _ Hp), Hstack.
  destruct (adjust_stack_keeps (indentLevels st) (length ws) obj above below)
    as (above' & -> & Habove'); [lia|exact Habove|].
  assert (Hcur : exists cur rest',
             (above' ++ obj :: below)%list = cur :: rest' /\ obj <= cur).
  { destruct above' as [|a above'].
    - exists obj, below. split; [reflexivity|lia].
    - exists a, (above' ++ obj :: below)%list. split; [reflexivity|].
      apply Forall_inv in Habove'. lia. }
  destruct Hcur as (cur & rest' & Hcur & Hle).
  rewrite Hcur.
  destruct (trim rest =? "")%string.
  - unfold section_open. cbn [stack heap indentLevels].
    repeat split.
    + exists (List.length (heap st) :: above'). split.
      * cbn [app]. now rewrite Hcur.
      * constructor; [exact Hlen|exact Habove'].
    + unfold setIndentLevel. cbn [getIndentLevel].
      replace (List.length (heap st) =? obj) with false
        by (symmetry; apply Nat.eqb_neq; lia).
      exact Hlevel.
    + rewrite length_put, length_app. cbn [List.length]. lia.
    + rewrite firstn_put by exact Hle.
      rewrite firstn_app. replace (obj - List.length (heap st)) with 0 by lia.
      cbn [firstn]. now rewrite app_nil_r.
  - unfold section_open. cbn [stack heap indentLevels].
    repeat split.
    + exists above'. now split.
    + exact Hlevel.
    + now rewrite length_put.
    + now rewrite firstn_put by exact Hle.
Qed.

Lemma fold_process_line_section_open (obj level : nat) (below : list nat)
    (before : Heap JSNumber) (lines : list string)
    (st : ParserState JSNumber) :
  section_open obj level below before st ->
  indented_by level lines ->
  section_open obj level below before
    (fold_left (process_line Number) lines st).
Proof.
  revert st. induction lines as [|l lines IH]; intros st Hst Hlines.
  - exact Hst.
  - inversion Hlines as [|? ? Hl Hlines']; subst. cbn [fold_left].
    apply IH; [|exact Hlines'].
    apply process_line_section_open; [exact Hst|].
    constructor; [exact Hl|constructor].
Qed.

Lemma process_line_heap (st : ParserState JSNumber) (line : string) :
  List.length (heap st) <= List.length (heap (process_line Number st line)).
Proof.
  destruct (line_pattern line) as [[[ws key] rest]|] eqn:Hp.
  - rewrite (process_line_matched _ _ _ _ _ Hp).
    destruct (adjust_stack _ _ _) as [|cur below]; [reflexivity|].
    destruct (_ =? _)%string; cbn [heap]; rewrite length_put;
      [rewrite length_app; lia|lia].
  - now rewrite process_line_unmatched.
Qed.

Lemma fold_process_line_heap (lines : list string)
    (st : ParserState JSNumber) :
  List.length (heap st)
  <= List.length (heap (fold_left (process_line Number) lines st)).
Proof.
  revert st. induction lines as [|l lines IH]; intros st; [reflexivity|].
  cbn [fold_left]. etransitivity; [apply process_line_heap|apply IH].
Qed.

(** X13: a section is closed only by a line indented less than its header.
    Lines indented as much as the header, or more, leave every object
    created before the section as it was when the section was opened; among
    them is the root object.  After a header without indentation this holds
    for all the lines that follow. *)
Theorem section_stays_open_for_lines_not_indented_less :
  forall (pre post : list string) (line ws key rest : string),
    line_pattern line = Some (ws, key, rest) ->
    trim rest = ""%string ->
    indented_by (length ws) post ->
    let opened := parse_lines Number (pre ++ [line]) in
    let final := parse_lines Number (pre ++ line :: post) in
    1 <= List.length opened - 1
    /\ firstn (List.length opened - 1) final
       = firstn (List.length opened - 1) opened
    /\ nth_error final 0 = nth_error opened 0.
Proof.
  intros pre post line ws key rest Hp Hrest Hpost opened final.
  subst opened final. unfold parse_lines.
  rewrite !fold_left_app. cbn [fold_left].
  set (st := fold_left (process_line Number) pre parser_start).
  assert (Hst : stack st <> []).
  { apply fold_process_line_stack. discriminate. }
  assert (Hheap : 1 <= List.length (heap st)).
  { apply (fold_process_line_heap pre parser_start). }
  pose proof (adjust_stack_nonempty (indentLevels st) (length ws) _ Hst) as Ha.
  pose proof (process_line_matched st _ _ _ _ Hp) as Hline.
  rewrite Hrest in Hline. cbn [String.eqb] in Hline.
  destruct (adjust_stack _ _ _) as [|cur below]; [contradiction|].
  set (st1 := process_line Number st line) in *.
  assert (Hlen : List.length (heap st1) = S (List.length (heap st))).
  { rewrite Hline. cbn [heap]. rewrite length_put, length_app.
    cbn [List.length]. lia. }
  assert (Hopen : section_open (List.length (heap st)) (length ws)
                    (cur :: below)
                    (firstn (List.length (heap st)) (heap st1)) st1).
  { repeat split.
    - exists []. split; [|constructor]. now rewrite Hline.
    - rewrite Hline. cbn [indentLevels setIndentLevel getIndentLevel].
      now rewrite Nat.eqb_refl.
    - lia. }
  pose proof (fold_process_line_section_open _ _ _ _ post st1 Hopen Hpost)
    as (_ & _ & _ & Hfinal).
  rewrite Hlen. replace (S (List.length (heap st)) - 1)
    with (List.length (heap st)) by lia.
  split; [exact Hheap|]. split; [exact Hfinal|].
  rewrite <- (firstn_skipn (List.length (heap st))
                (heap (fold_left (process_line Number) post st1))).
  rewrite <- (firstn_skipn (List.length (heap st)) (heap st1)) at 1.
  rewrite Hfinal.
  rewrite !nth_error_app1; [reflexivity| |];
    rewrite length_firstn; lia.
Qed.

(** *** Lines that end in a carriage return *)

Lemma carriage_return_line_has_no_value (l ws key rest : string) :
  line_pattern (l ++ carriage_return) = Some (ws, key, rest) ->
  rest = ""%string.
Proof.
  intros Hp. rewrite line_pattern_groups in Hp.
  destruct (line_groups_shape _ _ _ _ Hp)
    as (c & key' & sp & _ & Hline & _ & _ & _ & _ & Hrest).
  destruct rest as [|d rest]; [reflexivity|]. exfalso.
  replace (ws ++ String c (key' ++ String ":" (sp ++ String d rest)))%string
    with ((ws ++ String c (key' ++ String ":" sp)) ++ String d rest)%string
    in Hline.
  2:{ rewrite append_assoc. cbn [append]. rewrite append_assoc.
      reflexivity. }
  destruct (append_last _ _ _ _ Hline) as (rest' & Hlast); [discriminate|].
  rewrite Hlast, string_forallb_append in Hrest.
  apply andb_true_iff in Hrest as [_ Hrest]. discriminate Hrest.
Qed.

Lemma process_line_sections (st : ParserState JSNumber) (line : string) :
  line = ""%string \/ (exists l, line = (l ++ carriage_return)%string) ->
  only_sections (heap st) ->
  only_sections (heap (process_line Number st line)).
Proof.
  intros Hline Hst.
  destruct (line_pattern line) as [[[ws key] rest]|] eqn:Hp.
  2:{ now rewrite process_line_unmatched. }
  destruct Hline as [->|(l & ->)]; [discriminate Hp|].
  rewrite (process_line_matched _ _ _ _ _ Hp).
  rewrite (carriage_return_line_has_no_value _ _ _ _ Hp).
  destruct (adjust_stack _ _ _) as [|cur below]; [exact Hst|].
  cbn [trim trim_start trim_end String.eqb heap].
  apply put_sections. apply Forall_app. split; [exact Hst|].
  constructor; [constructor|constructor].
Qed.

(** X14: a scalar is never read from a line that ends in a carriage
    return.  When every line of the text is empty or ends in one, as in a
    file with CRLF line ends, the result holds sections only: every
    property of every object created is an object. *)
Theorem lines_with_carriage_return_yield_sections_only :
  forall yamlStr : string,
    Forall
      (fun line =>
         line = ""%string \/ exists l, line = (l ++ carriage_return)%string)
      (split_string line_feed yamlStr) ->
    only_sections (parseYAMLToJSON Number yamlStr).
Proof.
  intros yamlStr. unfold parseYAMLToJSON, parse_lines.
  fold line_feed.
  assert (Hstart : only_sections (heap (@parser_start JSNumber))).
  { constructor; [constructor|constructor]. }
  revert Hstart. generalize (@parser_start JSNumber).
  induction (split_string line_feed yamlStr) as [|l lines IH];
    intros st Hst Hlines; [exact Hst|].
  inversion Hlines as [|? ? Hl Hlines']; subst. cbn [fold_left].
  apply IH; [|exact Hlines']. now apply process_line_sections.
Qed.

(** *** A section of scalar lines *)

Lemma process_line_scalar (root : JSObject JSNumber)
    (props : list (string * JSValue JSNumber)) (indent key value : string) :
  string_forallb is_space indent = true ->
  plain_key key = true ->
  plain_value value = true ->
  process_line Number
    (mkParserState [root; mkObject props Proto_Object] [1; 0] [(1, 0)])
    (indent ++ key ++ ": " ++ value)
  = mkParserState
      [root;
       mkObject (set_own props key (parseYAMLValue Number value))
         Proto_Object]
      [1; 0] [(1, 0)].
Proof.
  intros Hindent Hkey Hvalue.
  unfold plain_key in Hkey. apply andb_true_iff in Hkey as [Hkey Hproto].
  apply andb_true_iff in Hkey as [Hne Hkey].
  apply negb_true_iff in Hne, Hproto.
  destruct (trim_plain_value _ Hvalue) as (Htrim & Hv & Hhead & Hchars).
  assert (Hp : line_pattern (indent ++ key ++ ": " ++ value)
               = Some (indent, key, value)).
  { rewrite line_pattern_groups.
    apply (line_groups_match indent key " " value); try assumption;
      [|reflexivity].
    intros ->. discriminate Hne. }
  rewrite (process_line_matched _ _ _ _ _ Hp).
  cbn [indentLevels stack adjust_stack getIndentLevel Nat.eqb heap].
  replace (length indent <? 0) with false
    by (symmetry; apply Nat.ltb_ge; lia).
  rewrite Htrim.
  replace (value =? "")%string with false
    by (symmetry; apply String.eqb_neq; exact Hv).
  unfold put. cbn [nth_error own proto]. rewrite Hproto.
  cbn [andb update]. reflexivity.
Qed.

(** X15: a section header followed by lines [key: value] under one
    indentation is read as written: the root gets the section as its only
    property, and the section gets the values in the order of the lines, a
    repeated key keeping its place and taking the later value. *)
Theorem section_of_scalars_is_read_as_written :
  forall (section indent : string) (kvs : list (string * string)),
    plain_key section = true ->
    string_forallb is_space indent = true ->
    Forall
      (fun kv => plain_key (fst kv) = true /\ plain_value (snd kv) = true)
      kvs ->
    parse_lines Number
      ((section ++ ":")%string
         :: map (fun kv => (indent ++ fst kv ++ ": " ++ snd kv)%string) kvs)
    = [mkObject [(section, V_object 1)] Proto_Object;
       mkObject
         (fold_left
            (fun props kv =>
               set_own props (fst kv) (parseYAMLValue Number (snd kv)))
            kvs [])
         Proto_Object].
Proof.
  intros section indent kvs Hsection Hindent Hkvs.
  unfold parse_lines. cbn [fold_left].
  assert (Hhead : process_line Number parser_start (section ++ ":")
                  = mkParserState
                      [mkObject [(section, V_object 1)] Proto_Object;
                       mkObject [] Proto_Object]
                      [1; 0] [(1, 0)]).
  { unfold plain_key in Hsection.
    apply andb_true_iff in Hsection as [Hkey Hproto].
    apply andb_true_iff in Hkey as [Hne Hkey].
    apply negb_true_iff in Hne, Hproto.
    assert (Hp : line_pattern (section ++ ":") = Some (""%string, section, ""%string)).
    { rewrite line_pattern_groups.
      apply (line_groups_match "" section "" ""); try reflexivity;
        [|exact Hkey].
      intros ->. discriminate Hne. }
    rewrite (process_line_matched _ _ _ _ _ Hp).
    cbn [parser_start indentLevels stack adjust_stack heap trim trim_start
           trim_end String.eqb app List.length length setIndentLevel].
    unfold put. cbn [nth_error empty_object own proto]. rewrite Hproto.
    cbn [andb update set_own]. reflexivity. }
  rewrite Hhead. clear Hhead.
  set (root := mkObject [(section, @V_object JSNumber 1)] Proto_Object).
  generalize (@nil (string * JSValue JSNumber)) as props.
  induction Hkvs as [|[k v] kvs [Hk Hv] Hkvs IH]; intros props.
  - reflexivity.
  - cbn [map fold_left fst snd].
    rewrite process_line_scalar; [|assumption..]. apply IH.
Qed.

(** *** Values *)

Lemma prefix_empty (s : string) : prefix "" s = true.
Proof. now destruct s. Qed.

Lemma drop_length_append (a b : string) : drop (length a) (a ++ b) = b.
Proof. induction a as [|c a IH]; [reflexivity|exact IH]. Qed.

(** X16: a value between two double quotes, or between two single quotes,
    that does not convert to a number is the text between the quotes: the
    words true, false, null and undefined stay text when quoted. *)
Theorem quoted_value_is_the_text_between_the_quotes :
  forall q body : string,
    q = double_quote \/ q = "'"%string ->
    Number (q ++ body ++ q) = None ->
    parseYAMLValue Number (q ++ body ++ q) = V_string body.
Proof.
  intros q body Hq Hnumber.
  assert (Hlen : length q = 1) by (now destruct Hq as [-> | ->]).
  assert (Hends : endsWith (q ++ body ++ q) q = true).
  { unfold endsWith. rewrite !length_append.
    replace (length q + (length body + length q) - length q)
      with (length (q ++ body)%string) by (rewrite length_append; lia).
    rewrite <- append_assoc, drop_length_append, String.eqb_refl.
    rewrite andb_true_r. apply Nat.leb_le. lia. }
  assert (Htext : js_substring (q ++ body ++ q)
                    1 (length (q ++ body ++ q) - 1) = body).
  { unfold js_substring. rewrite !length_append, Hlen.
    replace (Nat.min 1 (1 + (length body + 1) - 1)) with 1 by lia.
    replace (Nat.max 1 (1 + (length body + 1) - 1) - 1)
      with (length body) by lia.
    destruct Hq as [-> | ->]; cbn [double_quote append substring];
      apply substring_0_append. }
  unfold parseYAMLValue. rewrite Hnumber, Htext.
  destruct Hq as [-> | ->].
  - rewrite Hends. unfold startsWith, double_quote.
    cbn [append toLowerCase String.eqb prefix].
    change (toLowerCase_char "034" =? "t")%char with false.
    change (toLowerCase_char "034" =? "f")%char with false.
    change ("034" =? "n")%char with false.
    change ("034" =? "u")%char with false.
    destruct (ascii_dec "034" "034") as [_|E]; [|now contradiction E].
    now rewrite prefix_empty.
  - rewrite Hends. unfold startsWith, double_quote.
    cbn [append toLowerCase String.eqb prefix].
    change (toLowerCase_char "'" =? "t")%char with false.
    change (toLowerCase_char "'" =? "f")%char with false.
    change ("'" =? "n")%char with false.
    change ("'" =? "u")%char with false.
    destruct (ascii_dec "034" "'") as [E|_]; [discriminate E|].
    destruct (ascii_dec "'" "'") as [_|E]; [|now contradiction E].
    now rewrite prefix_empty.
Qed.

End ParserProperties.

Lemma section_stays_open_for_lines_not_indented_less_witness :
  let post := ["  lowercase: true"; "pipeline:"; "  enableCleaning: false"]
  in
  indented_by 0 post
  /\ nth_error (parse_lines digits_Number ("tokenizer:" :: post)) 0
     = Some (mkObject [("tokenizer", V_object 1)] Proto_Object).
Proof.
  intros post.
  assert (Hpost : indented_by 0 post).
  { repeat constructor; intros; lia. }
  split; [exact Hpost|].
  destruct (section_stays_open_for_lines_not_indented_less N digits_Number
              [] post "tokenizer:" "" "tokenizer" ""
              eq_refl eq_refl Hpost) as (_ & _ & Hroot).
  exact Hroot.
Defined.

Lemma lines_with_carriage_return_yield_sections_only_witness :
  let yamlStr :=
    ("tokenizer:" ++ carriage_return ++ line_feed
     ++ "  lowercase: true" ++ carriage_return ++ line_feed)%string
  in
  split_string line_feed yamlStr
  = [("tokenizer:" ++ carriage_return)%string;
     ("  lowercase: true" ++ carriage_return)%string; ""%string]
  /\ only_sections (parseYAMLToJSON digits_Number yamlStr).
Proof.
  intros yamlStr. split; [reflexivity|].
  apply (lines_with_carriage_return_yield_sections_only N digits_Number).
  change (split_string line_feed yamlStr)
    with [("tokenizer:" ++ carriage_return)%string;
          ("  lowercase: true" ++ carriage_return)%string; ""%string].
  apply Forall_cons; [right; now exists "tokenizer:"%string|].
  apply Forall_cons; [right; now exists "  lowercase: true"%string|].
  apply Forall_cons; [now left|apply Forall_nil].
Defined.

Lemma section_of_scalars_is_read_as_written_witness :
  parse_lines digits_Number
    ["tokenizer:"; "  lowercase: true"; "  maxLength: 12";
     "  lowercase: off"]
  = [mkObject [("tokenizer", V_object 1)] Proto_Object;
     mkObject
       [("lowercase", V_string "off"); ("maxLength", V_number 12%N)]
       Proto_Object].
Proof.
  apply (section_of_scalars_is_read_as_written N digits_Number
           "tokenizer" "  "
           [("lowercase", "true"); ("maxLength", "12"); ("lowercase", "off")]);
    [reflexivity|reflexivity|].
  repeat constructor.
Defined.

Lemma quoted_value_is_the_text_between_the_quotes_witness :
  digits_Number (double_quote ++ "true" ++ double_quote) = None
  /\ parseYAMLValue digits_Number (double_quote ++ "true" ++ double_quote)
     = V_string "true".
Proof.
  split; [reflexivity|].
  apply (quoted_value_is_the_text_between_the_quotes N digits_Number
           double_quote "true"); [now left|reflexivity].
Defined.
